(** * integration-service: the pipeline adapter

    A shallow embedding of [controllers/pipeline/pipeline_adapter.go]: the
    operations that turn a finished build PipelineRun into a deduplicated
    ApplicationSnapshot and that reduce the outcomes of the integration test
    PipelineRuns of a snapshot to one verdict.

    Conventions of the embedding.
    - A Go [map[string]string] (labels) is a [gmap string string]; indexing a
      missing key yields the empty string, as in Go.
    - A Go function returning [(T, error)] returns [result T]; where the Go
      code returns a meaningful pair (the two outcome functions return
      [(false, err)]) the pair [bool * option error] is kept.
    - A [for ... range] loop with an early [return] is [range_until]; a loop
      that updates a local variable is a [fold_left].
    - The Kubernetes client is explicit state passing over a [World]: the
      cluster contents, the fate of the coming API calls, and the history of
      the writes that were applied.
    - Logging has no effect on results and is left out.
    - Pointers that the code dereferences without a nil check
      ([taskRun.Status], [Status.CompletionTime]) are the pointed-to value. *)

From Stdlib Require Import Ascii String NArith ZArith.
From stdpp Require Import base option list gmap strings.

#[local] Set Warnings "-register-all".

(** ** Go plumbing *)

(** Go's [error] values are only created with [fmt.Errorf] or handed through
    from a callee: the message identifies them. *)
Definition error := string.

Inductive result (A : Type) : Type :=
| Ok (a : A)
| Err (e : error).
Arguments Ok {A} a.
Arguments Err {A} e.

(** [for _, x := range l { if ... { return r } }]: [Some r] when the body
    returned [r] at some element, [None] when the loop ran to its end. *)
Fixpoint range_until {A R : Type} (body : A → option R) (l : list A) : option R :=
  match l with
  | [] => None
  | x :: l' =>
      match body x with
      | Some r => Some r
      | None => range_until body l'
      end
  end.

(** [m[k]] on a [map[string]string]. *)
Definition index_label (m : gmap string string) (k : string) : string :=
  default "" (m !! k).

(** *** [strings.Split] *)

Fixpoint has_prefix (p s : string) : bool :=
  match p, s with
  | EmptyString, _ => true
  | String a p', String b s' => if Ascii.eqb a b then has_prefix p' s' else false
  | String _ _, EmptyString => false
  end.

(** Scan [s] from the left; [skip] counts the bytes of a separator that was
    just recognised and still has to be passed over; [cur] is the piece
    being collected. *)
Fixpoint Split_from (sep : string) (skip : nat) (cur : string) (s : string) : list string :=
  match s with
  | EmptyString => [cur]
  | String c s' =>
      match skip with
      | S k => Split_from sep k cur s'
      | O =>
          if has_prefix sep s
          then cur :: Split_from sep (String.length sep - 1) "" s'
          else Split_from sep 0 (cur +:+ String c "") s'
      end
  end.

Fixpoint explode (s : string) : list string :=
  match s with
  | EmptyString => []
  | String c s' => String c "" :: explode s'
  end.

(** [strings.Split(s, sep)]. With an empty separator Go splits after each
    UTF-8 sequence; [explode] does so for single-byte characters. *)
Definition Split (s sep : string) : list string :=
  match sep with
  | EmptyString => explode s
  | _ => Split_from sep 0 "" s
  end.

(** ** [encoding/json]: the dynamic values behind [interface{}] *)

Inductive jvalue : Type :=
| JNil
| JBool (b : bool)
| JFloat64 (literal : string)
| JString (s : string)
| JSlice (l : list jvalue)
| JMap (m : gmap string jvalue).

(** [m[k]] on a [map[string]interface{}]: the nil interface when [k] is
    missing (also when the map itself is nil). *)
Definition index_iface (m : gmap string jvalue) (k : string) : jvalue :=
  default JNil (m !! k).

(** [v != s] for an interface value [v] and a string constant [s]: the two
    are equal only when [v] holds a string, and that string is [s]. *)
Definition iface_neq_string (v : jvalue) (s : string) : bool :=
  match v with
  | JString s' => negb (bool_decide (s' = s))
  | _ => true
  end.

(** The decoder [json.Unmarshal(data, &m)] for a freshly declared
    [var m map[string]interface{}]. The adapter is verified against every
    decoder; [json_Unmarshal] below is the one the examples run. *)
Class JsonDecoder := {
  Unmarshal : string → result (gmap string jvalue)
}.

(** ** API types, one module per Go type *)

Module metav1.
Definition ConditionTrue : string := "True".
Definition ConditionFalse : string := "False".

(** [metav1.Condition], without [LastTransitionTime] and
    [ObservedGeneration]. *)
Module Condition.
Record t := mk {
  Type_ : string;
  Status : string;
  Reason : string;
  Message : string
}.
#[global] Instance eq_dec : EqDecision t.
Proof. solve_decision. Defined.
End Condition.
End metav1.

(** [hasv1alpha1.Component] *)
Module Component.
Record t := mk {
  Name : string;
  Namespace : string;
  Spec_Application : string;
  Status_ContainerImage : string
}.
End Component.

(** [hasv1alpha1.Application] *)
Module Application.
Record t := mk {
  Name : string;
  Namespace : string
}.
End Application.

(** [appstudioshared.ApplicationSnapshotComponent]: a comparable struct. *)
Module ApplicationSnapshotComponent.
Record t := mk {
  Name : string;
  ContainerImage : string
}.
#[global] Instance eq_dec : EqDecision t.
Proof. solve_decision. Defined.
End ApplicationSnapshotComponent.

(** [appstudioshared.ApplicationSnapshot] *)
Module ApplicationSnapshot.
Record t := mk {
  Name : string;
  GenerateName : string;
  Namespace : string;
  Labels : gmap string string;
  Spec_Application : string;
  Spec_Components : list ApplicationSnapshotComponent.t;
  Status_Conditions : list metav1.Condition.t
}.
End ApplicationSnapshot.

(** [v1alpha1.IntegrationTestScenario] *)
Module IntegrationTestScenario.
Record t := mk {
  Name : string;
  Namespace : string;
  Labels : gmap string string;
  Spec_Application : string
}.
End IntegrationTestScenario.

(** [tektonv1beta1.TaskRunResult] *)
Module TaskRunResult.
Record t := mk {
  Name : string;
  Value : string
}.
End TaskRunResult.

(** [tektonv1beta1.PipelineRunTaskRunStatus]; [Status_TaskRunResults] is
    [Status.TaskRunResults]. *)
Module PipelineRunTaskRunStatus.
Record t := mk {
  PipelineTaskName : string;
  Status_TaskRunResults : list TaskRunResult.t
}.
End PipelineRunTaskRunStatus.

(** [apis.Condition] of knative. *)
Module KCondition.
Record t := mk {
  Type_ : string;
  Status : string
}.
End KCondition.

(** [tektonv1beta1.PipelineRun]. [Status_TaskRuns] is a Go map from the
    TaskRun name to its status: the list holds its entries in the order in
    which one [range] over the map visits them, which Go leaves
    unspecified; every statement below holds for every order.
    [Status_CompletionTime] is an instant on the time line. *)
Module PipelineRun.
Record t := mk {
  Name : string;
  Namespace : string;
  Labels : gmap string string;
  Spec_Params : list (string * string);
  Status_Conditions : list KCondition.t;
  Status_CompletionTime : Z;
  Status_TaskRuns : list (string * PipelineRunTaskRunStatus.t)
}.
End PipelineRun.

(** The helpers of the repository's [tekton] package, which the adapter
    calls on a PipelineRun. *)
Class Tekton := {
  IsBuildPipelineRun : PipelineRun.t → bool;
  IsIntegrationPipelineRun : PipelineRun.t → bool;
  GetTypeFromPipelineRun : PipelineRun.t → result string;
  GetOutputImage : PipelineRun.t → result string;
  GetOutputImageDigest : PipelineRun.t → result string
}.

(** ** The adapter: operations that do not touch the cluster *)

Section Pure.
Context `{!JsonDecoder} `{!Tekton}.

(** compareApplicationSnapshots *)
Definition compareApplicationSnapshots
    (expectedApplicationSnapshot foundApplicationSnapshot : ApplicationSnapshot.t) : bool :=
  let snapshotsHaveSameNumberOfImages :=
    bool_decide (length (ApplicationSnapshot.Spec_Components expectedApplicationSnapshot)
                 = length (ApplicationSnapshot.Spec_Components foundApplicationSnapshot)) in
  let allImagesMatch :=
    fold_left
      (fun allImagesMatch component1 =>
         let foundImage :=
           fold_left
             (fun foundImage component2 =>
                if bool_decide (component2 = component1) then true else foundImage)
             (ApplicationSnapshot.Spec_Components foundApplicationSnapshot) false in
         if negb foundImage then false else allImagesMatch)
      (ApplicationSnapshot.Spec_Components expectedApplicationSnapshot) true in
  snapshotsHaveSameNumberOfImages && allImagesMatch.

(** getImagePullSpecFromPipelineRun;
    [fmt.Sprintf("%s@%s", a, b)] is [a ++ "@" ++ b], and index [0] of the
    slice that [strings.Split] returns exists (see [Split_from_nonempty]). *)
Definition getImagePullSpecFromPipelineRun (pipelineRun : PipelineRun.t) : result string :=
  match GetOutputImage pipelineRun with
  | Err err => Err err
  | Ok outputImage =>
      match GetOutputImageDigest pipelineRun with
      | Err err => Err err
      | Ok imageDigest =>
          Ok (nth 0 (Split outputImage ":") "" +:+ "@" +:+ imageDigest)
      end
  end.

(** The body of the inner loop of calculateIntegrationPipelineRunOutcome:
    [Some] is a [return]. *)
Definition checkTaskRunResult (taskRunResult : TaskRunResult.t) : option (bool * option error) :=
  if bool_decide (TaskRunResult.Name taskRunResult = "HACBS_TEST_OUTPUT") then
    match Unmarshal (TaskRunResult.Value taskRunResult) with
    | Err err => Some (false, Some err)
    | Ok testOutput =>
        if iface_neq_string (index_iface testOutput "result") "SUCCESS"
           && iface_neq_string (index_iface testOutput "result") "SKIPPED"
        then Some (false, None)
        else None
    end
  else None.

(** calculateIntegrationPipelineRunOutcome *)
Definition calculateIntegrationPipelineRunOutcome (pipelineRun : PipelineRun.t) : bool * option error :=
  match
    range_until
      (fun taskRun : string * PipelineRunTaskRunStatus.t =>
         range_until checkTaskRunResult
           (PipelineRunTaskRunStatus.Status_TaskRunResults (snd taskRun)))
      (PipelineRun.Status_TaskRuns pipelineRun)
  with
  | Some ret => ret
  | None => (true, None)
  end.

(** The loop of determineIfAllIntegrationPipelinesPassed, from the value
    [allIntegrationPipelineRunsPassed] has on entry. *)
Fixpoint determine_loop (integrationPipelineRuns : list PipelineRun.t)
    (allIntegrationPipelineRunsPassed : bool) : bool * option error :=
  match integrationPipelineRuns with
  | [] => (allIntegrationPipelineRunsPassed, None)
  | integrationPipelineRun :: rest =>
      match calculateIntegrationPipelineRunOutcome integrationPipelineRun with
      | (_, Some err) => (false, Some err)
      | (pipelineRunOutcome, None) =>
          determine_loop rest
            (if negb pipelineRunOutcome then false else allIntegrationPipelineRunsPassed)
      end
  end.

(** determineIfAllIntegrationPipelinesPassed *)
Definition determineIfAllIntegrationPipelinesPassed
    (integrationPipelineRuns : list PipelineRun.t) : bool * option error :=
  determine_loop integrationPipelineRuns true.

End Pure.

(** ** [k8s.io/apimachinery]: label selectors and status conditions *)

Module selection.
(** The operators of a label requirement ([GreaterThan] and [LessThan],
    which compare integers, are not used by the adapter). *)
Inductive Operator : Type :=
| In_ | NotIn | Equals | DoubleEquals | NotEquals | Exists | DoesNotExist.
End selection.

Module labels.
Record Requirement := mkRequirement {
  key : string;
  operator : selection.Operator;
  strValues : list string
}.

(** [labels.NewRequirement]: the arity rules of the operators (the syntax
    checks on the key and the values are left out). *)
Definition NewRequirement (key : string) (op : selection.Operator) (vals : list string)
    : result Requirement :=
  match op with
  | selection.In_ | selection.NotIn =>
      if bool_decide (length vals = 0)
      then Err "for 'in', 'notin' operators, values set can't be empty"
      else Ok (mkRequirement key op vals)
  | selection.Equals | selection.DoubleEquals | selection.NotEquals =>
      if bool_decide (length vals = 1)
      then Ok (mkRequirement key op vals)
      else Err "exact-match compatibility requires one single value"
  | selection.Exists | selection.DoesNotExist =>
      if bool_decide (length vals = 0)
      then Ok (mkRequirement key op vals)
      else Err "values set must be empty for exists and does not exist"
  end.

Definition hasValue (r : Requirement) (value : string) : bool :=
  bool_decide (value ∈ strValues r).

(** [Requirement.Matches] *)
Definition Matches (r : Requirement) (ls : gmap string string) : bool :=
  match operator r with
  | selection.In_ | selection.Equals | selection.DoubleEquals =>
      match ls !! key r with
      | None => false
      | Some v => hasValue r v
      end
  | selection.NotIn | selection.NotEquals =>
      match ls !! key r with
      | None => true
      | Some v => negb (hasValue r v)
      end
  | selection.Exists => bool_decide (is_Some (ls !! key r))
  | selection.DoesNotExist => negb (bool_decide (is_Some (ls !! key r)))
  end.

(** A selector is the conjunction of its requirements;
    [NewSelector()] is [[]] and [Add] appends. *)
Definition Selector := list Requirement.
Definition NewSelector : Selector := [].
Definition Add (s : Selector) (r : Requirement) : Selector := s ++ [r].
Definition SelectorMatches (s : Selector) (ls : gmap string string) : bool :=
  forallb (fun r => Matches r ls) s.
End labels.

Module meta.
Import metav1.

(** [meta.SetStatusCondition]: the first condition of the same type takes
    the new status, reason and message; without one the new condition is
    appended. *)
Fixpoint SetStatusCondition (conditions : list Condition.t) (newCondition : Condition.t)
    : list Condition.t :=
  match conditions with
  | [] => [newCondition]
  | c :: rest =>
      if bool_decide (Condition.Type_ c = Condition.Type_ newCondition)
      then Condition.mk (Condition.Type_ c) (Condition.Status newCondition)
             (Condition.Reason newCondition) (Condition.Message newCondition) :: rest
      else c :: SetStatusCondition rest newCondition
  end.

(** [meta.FindStatusCondition] *)
Definition FindStatusCondition (conditions : list Condition.t) (conditionType : string)
    : option Condition.t :=
  range_until
    (fun c => if bool_decide (Condition.Type_ c = conditionType) then Some c else None)
    conditions.
End meta.

(** knative: [Status.GetCondition(t)] and the [IsTrue] method of the
    condition pointer it returns (false on nil). *)
Definition GetCondition (conditions : list KCondition.t) (t : string) : option KCondition.t :=
  range_until
    (fun c => if bool_decide (KCondition.Type_ c = t) then Some c else None)
    conditions.

Definition IsTrue (c : option KCondition.t) : bool :=
  match c with
  | None => false
  | Some c => bool_decide (KCondition.Status c = "True")
  end.

Definition ConditionSucceeded : string := "Succeeded".

(** [t.After(u)] on instants. *)
Definition After (t u : Z) : bool := (u <? t)%Z.

(** ** The cluster behind [client.Client] *)

Record Cluster := mkCluster {
  Components : list Component.t;
  ApplicationSnapshots : list ApplicationSnapshot.t;
  IntegrationTestScenarios : list IntegrationTestScenario.t;
  PipelineRuns : list PipelineRun.t
}.

(** A write that the API server applied. *)
Inductive Write : Type :=
| CreateSnapshot (s : ApplicationSnapshot.t)
| PatchSnapshotStatus (s : ApplicationSnapshot.t)
| UpdatePipelineRunStatus (p : PipelineRun.t).

(** [faults] decides the coming API calls, one entry per call: [Some err]
    makes the call fail with [err] and leave the cluster alone; [None], or
    no entry at all, lets it through. [suffixes] are the random suffixes the
    server will draw for [GenerateName]. [writes] is the history of applied
    writes, newest first. *)
Record World := mkWorld {
  cluster : Cluster;
  faults : list (option error);
  suffixes : list string;
  writes : list Write
}.

(** The adapter's calls on the client: state and error passing. *)
Definition M (A : Type) : Type := World → result A * World.

#[global] Instance M_ret : MRet M := λ A a w, (Ok a, w).
#[global] Instance M_bind : MBind M := λ A B k m w,
  match m w with
  | (Ok a, w') => k a w'
  | (Err e, w') => (Err e, w')
  end.
Definition fail {A : Type} (e : error) : M A := λ w, (Err e, w).

Definition api_call : M unit := λ w,
  match faults w with
  | [] => (Ok tt, w)
  | None :: fs => (Ok tt, mkWorld (cluster w) fs (suffixes w) (writes w))
  | Some e :: fs => (Err e, mkWorld (cluster w) fs (suffixes w) (writes w))
  end.

Definition read {A : Type} (f : Cluster → A) : M A := λ w, (Ok (f (cluster w)), w).

Definition apply_write (c : Cluster) (wr : Write) : M unit := λ w,
  (Ok tt, mkWorld c (faults w) (suffixes w) (wr :: writes w)).

Definition draw_suffix : M string := λ w,
  match suffixes w with
  | [] => (Ok "", w)
  | s :: ss => (Ok s, mkWorld (cluster w) (faults w) ss (writes w))
  end.

(** The calls of the adapter on controller-runtime's [client.Client], the
    object store client of section 6 of the specification ([Get], [List],
    [Create], [PatchStatus]): the namespace and a field selector on
    [spec.application] restrict a [List], a label selector or a set of
    matching labels filters on the labels. *)
Module client.

Definition List_Components (namespace application : string) : M (list Component.t) :=
  _ ← api_call;
  read (λ c, filter (λ x, Component.Namespace x = namespace
                          ∧ Component.Spec_Application x = application) (Components c)).

Definition List_ApplicationSnapshots (namespace application : string)
    : M (list ApplicationSnapshot.t) :=
  _ ← api_call;
  read (λ c, filter (λ x, ApplicationSnapshot.Namespace x = namespace
                          ∧ ApplicationSnapshot.Spec_Application x = application)
               (ApplicationSnapshots c)).

Definition List_IntegrationTestScenarios (namespace application : string)
    (labelSelector : labels.Selector) : M (list IntegrationTestScenario.t) :=
  _ ← api_call;
  read (λ c, filter (λ x, IntegrationTestScenario.Namespace x = namespace
                          ∧ IntegrationTestScenario.Spec_Application x = application
                          ∧ labels.SelectorMatches labelSelector
                              (IntegrationTestScenario.Labels x) = true)
               (IntegrationTestScenarios c)).

Definition List_PipelineRuns (namespace : string) (matchingLabels : gmap string string)
    : M (list PipelineRun.t) :=
  _ ← api_call;
  read (λ c, filter (λ x, PipelineRun.Namespace x = namespace
                          ∧ map_Forall (λ k v, PipelineRun.Labels x !! k = Some v)
                              matchingLabels)
               (PipelineRuns c)).

Definition is_snapshot (namespace name : string) (x : ApplicationSnapshot.t) : bool :=
  bool_decide (ApplicationSnapshot.Namespace x = namespace ∧ ApplicationSnapshot.Name x = name).

Definition Get_ApplicationSnapshot (namespace name : string) : M ApplicationSnapshot.t :=
  _ ← api_call;
  found ← read (λ c, find (is_snapshot namespace name) (ApplicationSnapshots c));
  match found with
  | Some s => mret s
  | None => fail "not found"
  end.

Definition with_name (s : ApplicationSnapshot.t) (name : string) : ApplicationSnapshot.t :=
  ApplicationSnapshot.mk name (ApplicationSnapshot.GenerateName s)
    (ApplicationSnapshot.Namespace s) (ApplicationSnapshot.Labels s)
    (ApplicationSnapshot.Spec_Application s) (ApplicationSnapshot.Spec_Components s)
    (ApplicationSnapshot.Status_Conditions s).

(** [Create]: an object without a name gets its [GenerateName] and a
    suffix; a name that is taken in the namespace is refused. *)
Definition Create_ApplicationSnapshot (s : ApplicationSnapshot.t) : M ApplicationSnapshot.t :=
  _ ← api_call;
  suffix ← draw_suffix;
  let name :=
    if bool_decide (ApplicationSnapshot.Name s = "")
    then ApplicationSnapshot.GenerateName s +:+ suffix
    else ApplicationSnapshot.Name s in
  taken ← read (λ c, find (is_snapshot (ApplicationSnapshot.Namespace s) name)
                       (ApplicationSnapshots c));
  match taken with
  | Some _ => fail "already exists"
  | None =>
      let created := with_name s name in
      c ← read id;
      _ ← apply_write
            (mkCluster (Components c) (ApplicationSnapshots c ++ [created])
               (IntegrationTestScenarios c) (PipelineRuns c))
            (CreateSnapshot created);
      mret created
  end.

Definition with_conditions (s : ApplicationSnapshot.t) (conditions : list metav1.Condition.t)
    : ApplicationSnapshot.t :=
  ApplicationSnapshot.mk (ApplicationSnapshot.Name s) (ApplicationSnapshot.GenerateName s)
    (ApplicationSnapshot.Namespace s) (ApplicationSnapshot.Labels s)
    (ApplicationSnapshot.Spec_Application s) (ApplicationSnapshot.Spec_Components s)
    conditions.

(** Replace the first element that [p] accepts. *)
Fixpoint replace_first {A : Type} (p : A → bool) (new : A) (l : list A) : list A :=
  match l with
  | [] => []
  | x :: l' => if p x then new :: l' else x :: replace_first p new l'
  end.

(** [Status().Patch(obj, client.MergeFrom(base))]: the merge patch is the
    difference between [base] and [obj]; of the status only the
    conditions can differ, and a merge patch replaces a list as a whole.
    The server answers with the stored object after the patch. *)
Definition Status_Patch_ApplicationSnapshot (obj base : ApplicationSnapshot.t)
    : M ApplicationSnapshot.t :=
  _ ← api_call;
  stored ← read (λ c, find (is_snapshot (ApplicationSnapshot.Namespace obj)
                              (ApplicationSnapshot.Name obj)) (ApplicationSnapshots c));
  match stored with
  | None => fail "not found"
  | Some stored =>
      let patched :=
        if bool_decide (ApplicationSnapshot.Status_Conditions obj
                        = ApplicationSnapshot.Status_Conditions base)
        then stored
        else with_conditions stored (ApplicationSnapshot.Status_Conditions obj) in
      c ← read id;
      _ ← apply_write
            (mkCluster (Components c)
               (replace_first (is_snapshot (ApplicationSnapshot.Namespace obj)
                                 (ApplicationSnapshot.Name obj)) patched
                  (ApplicationSnapshots c))
               (IntegrationTestScenarios c) (PipelineRuns c))
            (PatchSnapshotStatus patched);
      mret patched
  end.

Definition is_pipelineRun (namespace name : string) (x : PipelineRun.t) : bool :=
  bool_decide (PipelineRun.Namespace x = namespace ∧ PipelineRun.Name x = name).

(** [Status().Update(obj)]: the stored object takes the status of [obj]. *)
Definition Status_Update_PipelineRun (obj : PipelineRun.t) : M unit :=
  _ ← api_call;
  stored ← read (λ c, find (is_pipelineRun (PipelineRun.Namespace obj) (PipelineRun.Name obj))
                        (PipelineRuns c));
  match stored with
  | None => fail "not found"
  | Some stored =>
      let updated :=
        PipelineRun.mk (PipelineRun.Name stored) (PipelineRun.Namespace stored)
          (PipelineRun.Labels stored) (PipelineRun.Spec_Params stored)
          (PipelineRun.Status_Conditions obj) (PipelineRun.Status_CompletionTime obj)
          (PipelineRun.Status_TaskRuns obj) in
      c ← read id;
      apply_write
        (mkCluster (Components c) (ApplicationSnapshots c) (IntegrationTestScenarios c)
           (replace_first (is_pipelineRun (PipelineRun.Namespace obj) (PipelineRun.Name obj))
              updated (PipelineRuns c)))
        (UpdatePipelineRunStatus updated)
  end.

End client.

(** ** The [results] package *)

Module results.
(** Modelled from the spec: the three-way result of an operation
    (section 4.1), which the [results] package of the repository builds and
    which is not part of the sources: [Continue]; [RetryWithError(err)];
    [RetryOrStop(err)], whose argument is the error of the status write
    that was attempted, [None] when that write went through. *)
Inductive OperationResult : Type :=
| ContinueProcessing
| RequeueWithError (err : error)
| RequeueOnErrorOrStop (err : option error).
End results.

(** ** The adapter: operations on the cluster *)

(** [Adapter] *)
Module Adapter.
Record t := mk {
  pipelineRun : PipelineRun.t;
  component : Component.t;
  application : Application.t
}.
End Adapter.

Section Adapter.
Context `{!JsonDecoder} `{!Tekton}.
Import results.

(** getApplicationSnapshotFromPipelineRun *)
Definition getApplicationSnapshotFromPipelineRun (a : Adapter.t)
    (pipelineRun : PipelineRun.t) (pipelineType : string) : M ApplicationSnapshot.t :=
  let snapshotLabel := pipelineType +:+ ".appstudio.openshift.io/snapshot" in
  match PipelineRun.Labels pipelineRun !! snapshotLabel with
  | Some snapshotName =>
      client.Get_ApplicationSnapshot (PipelineRun.Namespace pipelineRun) snapshotName
  | None => fail "the pipeline has no snapshot associated with it"
  end.

(** getAllApplicationSnapshots *)
Definition getAllApplicationSnapshots (a : Adapter.t) : M (list ApplicationSnapshot.t) :=
  client.List_ApplicationSnapshots
    (Application.Namespace (Adapter.application a)) (Application.Name (Adapter.application a)).

(** getAllApplicationComponents *)
Definition getAllApplicationComponents (a : Adapter.t) (application : Application.t)
    : M (list Component.t) :=
  client.List_Components (Application.Namespace application) (Application.Name application).

(** The loop of prepareApplicationSnapshotForPipelineRun, from the value
    [components] has on entry. *)
Fixpoint prepare_loop (pipelineRun : PipelineRun.t) (component : Component.t)
    (applicationComponents : list Component.t)
    (components : list ApplicationSnapshotComponent.t)
    : result (list ApplicationSnapshotComponent.t) :=
  match applicationComponents with
  | [] => Ok components
  | applicationComponent :: rest =>
      let pullSpec := Ok (Component.Status_ContainerImage applicationComponent) in
      let pullSpec :=
        if bool_decide (Component.Name applicationComponent = Component.Name component)
        then getImagePullSpecFromPipelineRun pipelineRun
        else pullSpec in
      match pullSpec with
      | Err err => Err err
      | Ok pullSpec =>
          prepare_loop pipelineRun component rest
            (components ++ [ApplicationSnapshotComponent.mk
                              (Component.Name applicationComponent) pullSpec])
      end
  end.

(** prepareApplicationSnapshotForPipelineRun. The fresh object has no
    labels, so the label map is created with the one entry. *)
Definition prepareApplicationSnapshotForPipelineRun (a : Adapter.t)
    (pipelineRun : PipelineRun.t) (component : Component.t) (application : Application.t)
    : M ApplicationSnapshot.t := λ w,
  match getAllApplicationComponents a application w with
  | (Err _, w') =>
      (Err ("failed to get all Application Components for Application "
            +:+ Application.Name (Adapter.application a)), w')
  | (Ok applicationComponents, w') =>
      match prepare_loop pipelineRun component applicationComponents [] with
      | Err err => (Err err, w')
      | Ok components =>
          (Ok (ApplicationSnapshot.mk ""
                 (Application.Name application +:+ "-")
                 (Application.Namespace application)
                 {[ "component" := Component.Name (Adapter.component a) ]}
                 (Application.Name application)
                 components
                 []), w')
      end
  end.

(** findMatchingApplicationSnapshot *)
Definition findMatchingApplicationSnapshot (a : Adapter.t) : M (option ApplicationSnapshot.t) :=
  expectedApplicationSnapshot ←
    prepareApplicationSnapshotForPipelineRun a (Adapter.pipelineRun a) (Adapter.component a) (Adapter.application a);
  allApplicationSnapshots ← getAllApplicationSnapshots a;
  mret (range_until
          (λ foundApplicationSnapshot,
             if compareApplicationSnapshots expectedApplicationSnapshot foundApplicationSnapshot
             then Some foundApplicationSnapshot else None)
          allApplicationSnapshots).

(** createApplicationSnapshotForPipelineRun *)
Definition createApplicationSnapshotForPipelineRun (a : Adapter.t)
    (pipelineRun : PipelineRun.t) (component : Component.t) (application : Application.t)
    : M ApplicationSnapshot.t :=
  applicationSnapshot ←
    prepareApplicationSnapshotForPipelineRun a pipelineRun component application;
  client.Create_ApplicationSnapshot applicationSnapshot.

(** updateStatus: the error of the write, [None] for nil. *)
Definition updateStatus (a : Adapter.t) : World → option error * World := λ w,
  match client.Status_Update_PipelineRun (Adapter.pipelineRun a) w with
  | (Ok _, w') => (None, w')
  | (Err err, w') => (Some err, w')
  end.

(** [results.RequeueOnErrorOrStop(a.updateStatus())] *)
Definition requeueOnErrorOrStop_updateStatus (a : Adapter.t)
    : World → OperationResult * World := λ w,
  let '(err, w') := updateStatus a w in (RequeueOnErrorOrStop err, w').

(** EnsureApplicationSnapshotExists *)
Definition EnsureApplicationSnapshotExists (a : Adapter.t)
    : World → OperationResult * World := λ w,
  if negb (IsBuildPipelineRun (Adapter.pipelineRun a)) then (ContinueProcessing, w)
  else
    match findMatchingApplicationSnapshot a w with
    | (Err err, w1) => (RequeueWithError err, w1)
    | (Ok (Some existingApplicationSnapshot), w1) => (ContinueProcessing, w1)
    | (Ok None, w1) =>
        match createApplicationSnapshotForPipelineRun a
                (Adapter.pipelineRun a) (Adapter.component a) (Adapter.application a) w1 with
        | (Err err, w2) => requeueOnErrorOrStop_updateStatus a w2
        | (Ok newApplicationSnapshot, w2) => (ContinueProcessing, w2)
        end
    end.

(** getRequiredIntegrationTestScenariosForApplication *)
Definition getRequiredIntegrationTestScenariosForApplication (a : Adapter.t)
    (application : Application.t) : M (list IntegrationTestScenario.t) :=
  let labelSelector := labels.NewSelector in
  match labels.NewRequirement "test.appstudio.openshift.io/optional"
          selection.NotIn ["false"] with
  | Err err => fail err
  | Ok labelRequirement =>
      let labelSelector := labels.Add labelSelector labelRequirement in
      client.List_IntegrationTestScenarios
        (Application.Namespace application) (Application.Name application) labelSelector
  end.

(** The loop of getLatestPipelineRunForApplicationSnapshotAndScenario: one
    step on [latestIntegrationPipelineRun]. *)
Definition latest_step (latestIntegrationPipelineRun : option PipelineRun.t)
    (pipelineRun : PipelineRun.t) : option PipelineRun.t :=
  if IsTrue (GetCondition (PipelineRun.Status_Conditions pipelineRun) ConditionSucceeded) then
    match latestIntegrationPipelineRun with
    | None => Some pipelineRun
    | Some latest =>
        if After (PipelineRun.Status_CompletionTime pipelineRun)
                 (PipelineRun.Status_CompletionTime latest)
        then Some pipelineRun
        else latestIntegrationPipelineRun
    end
  else latestIntegrationPipelineRun.

(** getLatestPipelineRunForApplicationSnapshotAndScenario *)
Definition getLatestPipelineRunForApplicationSnapshotAndScenario (a : Adapter.t)
    (applicationSnapshot : ApplicationSnapshot.t)
    (integrationTestScenario : IntegrationTestScenario.t) : M (option PipelineRun.t) :=
  integrationPipelineRuns ←
    client.List_PipelineRuns (Application.Namespace (Adapter.application a))
      (<[ "pipelines.appstudio.openshift.io/type" := "test" ]>
       (<[ "test.appstudio.openshift.io/snapshot" := ApplicationSnapshot.Name applicationSnapshot ]>
        (<[ "test.appstudio.openshift.io/scenario" :=
              IntegrationTestScenario.Name integrationTestScenario ]> ∅)));
  mret (fold_left latest_step integrationPipelineRuns None).

(** The loop of getAllPipelineRunsForApplicationSnapshot, from the value
    [integrationPipelineRuns] has on entry. *)
Fixpoint getAll_loop (a : Adapter.t) (applicationSnapshot : ApplicationSnapshot.t)
    (integrationTestScenarios : list IntegrationTestScenario.t)
    (integrationPipelineRuns : list PipelineRun.t) : M (list PipelineRun.t) :=
  match integrationTestScenarios with
  | [] => mret integrationPipelineRuns
  | integrationTestScenario :: rest =>
      if negb (bool_decide
                 (index_label (PipelineRun.Labels (Adapter.pipelineRun a))
                    "test.appstudio.openshift.io/scenario"
                  = IntegrationTestScenario.Name integrationTestScenario))
      then
        integrationPipelineRun ←
          getLatestPipelineRunForApplicationSnapshotAndScenario a
            applicationSnapshot integrationTestScenario;
        match integrationPipelineRun with
        | Some integrationPipelineRun =>
            getAll_loop a applicationSnapshot rest
              (integrationPipelineRuns ++ [integrationPipelineRun])
        | None => getAll_loop a applicationSnapshot rest integrationPipelineRuns
        end
      else
        getAll_loop a applicationSnapshot rest (integrationPipelineRuns ++ [Adapter.pipelineRun a])
  end.

(** getAllPipelineRunsForApplicationSnapshot *)
Definition getAllPipelineRunsForApplicationSnapshot (a : Adapter.t)
    (applicationSnapshot : ApplicationSnapshot.t)
    (integrationTestScenarios : list IntegrationTestScenario.t) : M (list PipelineRun.t) :=
  getAll_loop a applicationSnapshot integrationTestScenarios [].

(** The condition that markSnapshotAsPassed sets. *)
Definition passedCondition (message : string) : metav1.Condition.t :=
  metav1.Condition.mk "HACBSTestSucceeded" metav1.ConditionTrue "Passed" message.

(** The condition that markSnapshotAsFailed sets. *)
Definition failedCondition (message : string) : metav1.Condition.t :=
  metav1.Condition.mk "HACBSTestSucceeded" metav1.ConditionFalse "Failed" message.

(** markSnapshotAsPassed *)
Definition markSnapshotAsPassed (a : Adapter.t) (applicationSnapshot : ApplicationSnapshot.t)
    (message : string) : M ApplicationSnapshot.t :=
  let patch := applicationSnapshot in
  let applicationSnapshot :=
    client.with_conditions applicationSnapshot
      (meta.SetStatusCondition (ApplicationSnapshot.Status_Conditions applicationSnapshot)
         (passedCondition message)) in
  client.Status_Patch_ApplicationSnapshot applicationSnapshot patch.

(** markSnapshotAsFailed *)
Definition markSnapshotAsFailed (a : Adapter.t) (applicationSnapshot : ApplicationSnapshot.t)
    (message : string) : M ApplicationSnapshot.t :=
  let patch := applicationSnapshot in
  let applicationSnapshot :=
    client.with_conditions applicationSnapshot
      (meta.SetStatusCondition (ApplicationSnapshot.Status_Conditions applicationSnapshot)
         (failedCondition message)) in
  client.Status_Patch_ApplicationSnapshot applicationSnapshot patch.

(** EnsureApplicationSnapshotPassedAllTests *)
Definition EnsureApplicationSnapshotPassedAllTests (a : Adapter.t)
    : World → OperationResult * World := λ w,
  if negb (IsIntegrationPipelineRun (Adapter.pipelineRun a)) then (ContinueProcessing, w)
  else
    match GetTypeFromPipelineRun (Adapter.pipelineRun a) with
    | Err err => (RequeueWithError err, w)
    | Ok pipelineType =>
    match getApplicationSnapshotFromPipelineRun a (Adapter.pipelineRun a) pipelineType w with
    | (Err err, w1) => (RequeueWithError err, w1)
    | (Ok existingApplicationSnapshot, w1) =>
    match getRequiredIntegrationTestScenariosForApplication a (Adapter.application a) w1 with
    | (Err err, w2) => (RequeueWithError err, w2)
    | (Ok integrationTestScenarios, w2) =>
    match getAllPipelineRunsForApplicationSnapshot a
            existingApplicationSnapshot integrationTestScenarios w2 with
    | (Err err, w3) => requeueOnErrorOrStop_updateStatus a w3
    | (Ok integrationPipelineRuns, w3) =>
        if negb (bool_decide (length integrationTestScenarios
                              = length integrationPipelineRuns))
        then (ContinueProcessing, w3)
        else
          match determineIfAllIntegrationPipelinesPassed integrationPipelineRuns with
          | (_, Some err) => requeueOnErrorOrStop_updateStatus a w3
          | (allIntegrationPipelineRunsPassed, None) =>
              if allIntegrationPipelineRunsPassed then
                match markSnapshotAsPassed a existingApplicationSnapshot
                        "All Integration Pipeline tests passed" w3 with
                | (Err err, w4) => requeueOnErrorOrStop_updateStatus a w4
                | (Ok _, w4) => (ContinueProcessing, w4)
                end
              else
                match markSnapshotAsFailed a existingApplicationSnapshot
                        "Some Integration pipeline tests failed" w3 with
                | (Err err, w4) => requeueOnErrorOrStop_updateStatus a w4
                | (Ok _, w4) => (ContinueProcessing, w4)
                end
          end
    end end end end.

End Adapter.

(** ** A decoder and [tekton] helpers to run the adapter on examples *)

(** *** JSON texts (RFC 8259) *)

Module json.

Definition code (c : ascii) : N := N_of_ascii c.

Definition dquote : string := String (ascii_of_N 34) EmptyString.

(** A text written with apostrophes in the place of double quotes. *)
Fixpoint text (s : string) : string :=
  match s with
  | EmptyString => EmptyString
  | String c s' => String (if (code c =? 39)%N then ascii_of_N 34 else c) (text s')
  end.

Definition is_space (c : ascii) : bool :=
  (code c =? 32)%N || (code c =? 9)%N || (code c =? 10)%N || (code c =? 13)%N.

Definition is_digit (c : ascii) : bool := (48 <=? code c)%N && (code c <=? 57)%N.

Fixpoint skip_space (s : list ascii) : list ascii :=
  match s with
  | c :: s' => if is_space c then skip_space s' else s
  | [] => []
  end.

(** [s] without the leading [p], when it starts with [p]. *)
Fixpoint strip (p : string) (s : list ascii) : option (list ascii) :=
  match p, s with
  | EmptyString, _ => Some s
  | String a p', b :: s' => if Ascii.eqb a b then strip p' s' else None
  | String _ _, [] => None
  end.

Definition hex_digit (c : ascii) : option N :=
  let n := code c in
  if (48 <=? n)%N && (n <=? 57)%N then Some (n - 48)%N
  else if (65 <=? n)%N && (n <=? 70)%N then Some (n - 55)%N
  else if (97 <=? n)%N && (n <=? 102)%N then Some (n - 87)%N
  else None.

Definition hex4 (a b c d : ascii) : option N :=
  match hex_digit a, hex_digit b, hex_digit c, hex_digit d with
  | Some a, Some b, Some c, Some d => Some (((a * 16 + b) * 16 + c) * 16 + d)%N
  | _, _, _, _ => None
  end.

(** The UTF-8 bytes of a code point. *)
Definition utf8 (cp : N) : list ascii :=
  if (cp <? 128)%N then [ascii_of_N cp]
  else if (cp <? 2048)%N then
    [ascii_of_N (192 + cp / 64); ascii_of_N (128 + cp mod 64)]
  else if (cp <? 65536)%N then
    [ascii_of_N (224 + cp / 4096); ascii_of_N (128 + (cp / 64) mod 64);
     ascii_of_N (128 + cp mod 64)]
  else
    [ascii_of_N (240 + cp / 262144); ascii_of_N (128 + (cp / 4096) mod 64);
     ascii_of_N (128 + (cp / 64) mod 64); ascii_of_N (128 + cp mod 64)].

Definition is_high_surrogate (cp : N) : bool := (55296 <=? cp)%N && (cp <? 56320)%N.
Definition is_low_surrogate (cp : N) : bool := (56320 <=? cp)%N && (cp <? 57344)%N.

(** The character a two-character escape stands for. *)
Definition escape (c : ascii) : option ascii :=
  let n := code c in
  if (n =? 34)%N || (n =? 92)%N || (n =? 47)%N then Some c
  else if (n =? 98)%N then Some (ascii_of_N 8)
  else if (n =? 102)%N then Some (ascii_of_N 12)
  else if (n =? 110)%N then Some (ascii_of_N 10)
  else if (n =? 114)%N then Some (ascii_of_N 13)
  else if (n =? 116)%N then Some (ascii_of_N 9)
  else None.

Definition prepend (cs : list ascii) (r : option (list ascii * list ascii))
    : option (list ascii * list ascii) :=
  match r with
  | Some (body, rest) => Some (cs ++ body, rest)
  | None => None
  end.

(** The characters of a string after its opening quote, up to the closing
    quote, and what follows it. A surrogate escape without its partner
    decodes to U+FFFD, as Go does. *)
Fixpoint chars (s : list ascii) : option (list ascii * list ascii) :=
  match s with
  | [] => None
  | c :: r =>
      if (code c =? 34)%N then Some ([], r)
      else if (code c <? 32)%N then None
      else if (code c =? 92)%N then
        match r with
        | [] => None
        | e :: r1 =>
            match escape e with
            | Some x => prepend [x] (chars r1)
            | None =>
                if (code e =? 117)%N then
                  match r1 with
                  | h1 :: h2 :: h3 :: h4 :: r2 =>
                      match hex4 h1 h2 h3 h4 with
                      | None => None
                      | Some cp =>
                          if is_high_surrogate cp then
                            match r2 with
                            | b :: u :: l1 :: l2 :: l3 :: l4 :: r3 =>
                                match hex4 l1 l2 l3 l4 with
                                | Some lo =>
                                    if (code b =? 92)%N && (code u =? 117)%N
                                       && is_low_surrogate lo
                                    then prepend
                                           (utf8 (65536 + (cp - 55296) * 1024 + (lo - 56320)))
                                           (chars r3)
                                    else prepend (utf8 65533) (chars r2)
                                | None => prepend (utf8 65533) (chars r2)
                                end
                            | _ => prepend (utf8 65533) (chars r2)
                            end
                          else if is_low_surrogate cp then prepend (utf8 65533) (chars r2)
                          else prepend (utf8 cp) (chars r2)
                      end
                  | _ => None
                  end
                else None
            end
        end
      else prepend [c] (chars r)
  end.

Fixpoint digits (s : list ascii) : list ascii * list ascii :=
  match s with
  | c :: s' => if is_digit c then let '(ds, r) := digits s' in (c :: ds, r) else ([], s)
  | [] => ([], [])
  end.

(** A number literal and what follows it. *)
Definition number (s : list ascii) : option (list ascii * list ascii) :=
  let '(sign, s1) :=
    match s with
    | c :: r => if (code c =? 45)%N then ([c], r) else ([], s)
    | [] => ([], s)
    end in
  let '(int, s2) := digits s1 in
  match int with
  | [] => None
  | d :: ds =>
      if (code d =? 48)%N && negb (bool_decide (ds = [])) then None
      else
        let frac :=
          match s2 with
          | c :: r =>
              if (code c =? 46)%N then
                let '(fs, r') := digits r in
                if bool_decide (fs = []) then None else Some (c :: fs, r')
              else Some ([], s2)
          | [] => Some ([], s2)
          end in
        match frac with
        | None => None
        | Some (fs, s3) =>
            let exp :=
              match s3 with
              | c :: r =>
                  if (code c =? 101)%N || (code c =? 69)%N then
                    let '(sg, r1) :=
                      match r with
                      | x :: r' =>
                          if (code x =? 43)%N || (code x =? 45)%N then ([x], r') else ([], r)
                      | [] => ([], r)
                      end in
                    let '(es, r2) := digits r1 in
                    if bool_decide (es = []) then None else Some (c :: sg ++ es, r2)
                  else Some ([], s3)
              | [] => Some ([], s3)
              end in
            match exp with
            | None => None
            | Some (es, s4) => Some (sign ++ int ++ fs ++ es, s4)
            end
        end
  end.

(** A value and what follows it; [n] bounds the number of nested calls,
    and the length of the text is enough. *)
Fixpoint value (n : nat) (s : list ascii) {struct n} : option (jvalue * list ascii) :=
  match n with
  | O => None
  | S n' =>
      let s := skip_space s in
      match strip "null" s, strip "true" s, strip "false" s with
      | Some r, _, _ => Some (JNil, r)
      | _, Some r, _ => Some (JBool true, r)
      | _, _, Some r => Some (JBool false, r)
      | None, None, None =>
          match strip dquote s, strip "[" s, strip "{" s with
          | Some r, _, _ =>
              match chars r with
              | Some (cs, r') => Some (JString (string_of_list_ascii cs), r')
              | None => None
              end
          | _, Some r, _ =>
              match strip "]" (skip_space r) with
              | Some r' => Some (JSlice [], r')
              | None =>
                  match elements n' r with
                  | Some (vs, r') => Some (JSlice vs, r')
                  | None => None
                  end
              end
          | _, _, Some r =>
              match strip "}" (skip_space r) with
              | Some r' => Some (JMap ∅, r')
              | None =>
                  match members n' ∅ r with
                  | Some (m, r') => Some (JMap m, r')
                  | None => None
                  end
              end
          | None, None, None =>
              match number s with
              | Some (lit, r) => Some (JFloat64 (string_of_list_ascii lit), r)
              | None => None
              end
          end
      end
  end
with elements (n : nat) (s : list ascii) {struct n} : option (list jvalue * list ascii) :=
  match n with
  | O => None
  | S n' =>
      match value n' s with
      | None => None
      | Some (v, r) =>
          let r := skip_space r in
          match strip "," r, strip "]" r with
          | Some r', _ =>
              match elements n' r' with
              | Some (vs, r'') => Some (v :: vs, r'')
              | None => None
              end
          | None, Some r' => Some ([v], r')
          | None, None => None
          end
      end
  end
with members (n : nat) (m : gmap string jvalue) (s : list ascii) {struct n}
    : option (gmap string jvalue * list ascii) :=
  match n with
  | O => None
  | S n' =>
      match strip dquote (skip_space s) with
      | None => None
      | Some r =>
          match chars r with
          | None => None
          | Some (k, r1) =>
              match strip ":" (skip_space r1) with
              | None => None
              | Some r2 =>
                  match value n' r2 with
                  | None => None
                  | Some (v, r3) =>
                      let m := <[ string_of_list_ascii k := v ]> m in
                      let r3 := skip_space r3 in
                      match strip "," r3, strip "}" r3 with
                      | Some r4, _ => members n' m r4
                      | None, Some r4 => Some (m, r4)
                      | None, None => None
                      end
                  end
              end
          end
      end
  end.

(** [json.Unmarshal] into a nil [map[string]interface{}]: the text has to
    be one JSON value, an object or [null] (which leaves the map nil);
    of two members with one key the later one stays. Numbers keep their
    literal, and the text is taken to be valid UTF-8. *)
Definition Unmarshal (data : string) : result (gmap string jvalue) :=
  let s := list_ascii_of_string data in
  match value (S (length s)) s with
  | None => Err "invalid character looking for beginning of value"
  | Some (v, r) =>
      match skip_space r with
      | _ :: _ => Err "invalid character after top-level value"
      | [] =>
          match v with
          | JMap m => Ok m
          | JNil => Ok ∅
          | _ => Err "json: cannot unmarshal into Go value of type map[string]interface {}"
          end
      end
  end.

End json.

Definition json_Unmarshal : JsonDecoder := {| Unmarshal := json.Unmarshal |}.

(** *** The [tekton] helpers *)

(** The [tekton] package is not part of the sources, and the adapter is
    verified against every implementation of its helpers. The examples run
    the one below. *)
Module tekton.

Definition PipelinesTypeLabel : string := "pipelines.appstudio.openshift.io/type".

(** Modelled from the spec: section 6 gives a PipelineRun a kind, [build]
    or [test], and the adapter itself selects test runs by the label
    [pipelines.appstudio.openshift.io/type]; the kind is read from that
    label. *)
Definition IsBuildPipelineRun (p : PipelineRun.t) : bool :=
  bool_decide (PipelineRun.Labels p !! PipelinesTypeLabel = Some "build").

(** Modelled from the spec: the kind [test] of section 6. *)
Definition IsIntegrationPipelineRun (p : PipelineRun.t) : bool :=
  bool_decide (PipelineRun.Labels p !! PipelinesTypeLabel = Some "test").

(** Modelled from the spec: the kind of section 6, an error without it. *)
Definition GetTypeFromPipelineRun (p : PipelineRun.t) : result string :=
  match PipelineRun.Labels p !! PipelinesTypeLabel with
  | Some pipelineType => Ok pipelineType
  | None => Err "the pipeline has no type associated with it"
  end.

(** Modelled from the spec: a build run implies the new image reference of
    its Component (section 4.2); the spec does not say where the run keeps
    it, and the parameter [output-image] is taken here. *)
Definition GetOutputImage (p : PipelineRun.t) : result string :=
  match range_until
          (λ param : string * string,
             if bool_decide (fst param = "output-image") then Some (snd param) else None)
          (PipelineRun.Spec_Params p) with
  | Some image => Ok image
  | None => Err "couldn't find the output-image PipelineRun param"
  end.

(** Modelled from the spec: as for the output image; the digest is taken
    from the task result [IMAGE_DIGEST]. *)
Definition GetOutputImageDigest (p : PipelineRun.t) : result string :=
  match range_until
          (λ taskRun : string * PipelineRunTaskRunStatus.t,
             range_until
               (λ r, if bool_decide (TaskRunResult.Name r = "IMAGE_DIGEST")
                     then Some (TaskRunResult.Value r) else None)
               (PipelineRunTaskRunStatus.Status_TaskRunResults (snd taskRun)))
          (PipelineRun.Status_TaskRuns p) with
  | Some digest => Ok digest
  | None => Err "couldn't find the IMAGE_DIGEST TaskRun result"
  end.

End tekton.

Definition tekton_helpers : Tekton := {|
  IsBuildPipelineRun := tekton.IsBuildPipelineRun;
  IsIntegrationPipelineRun := tekton.IsIntegrationPipelineRun;
  GetTypeFromPipelineRun := tekton.GetTypeFromPipelineRun;
  GetOutputImage := tekton.GetOutputImage;
  GetOutputImageDigest := tekton.GetOutputImageDigest
|}.

(** ** What the claims speak about *)

(** [strings.Split(s, ":")[0]] in the words of the specification: [s] cut
    off at its first occurrence of the character [c]. *)
Fixpoint truncate_at (c : ascii) (s : string) : string :=
  match s with
  | EmptyString => EmptyString
  | String x s' => if Ascii.eqb x c then EmptyString else String x (truncate_at c s')
  end.

Fixpoint occurs (c : ascii) (s : string) : bool :=
  match s with
  | EmptyString => false
  | String x s' => Ascii.eqb x c || occurs c s'
  end.

Definition colon : ascii := ascii_of_N 58.

(** The task results of a run, in the order in which the two loops of
    calculateIntegrationPipelineRunOutcome visit them. *)
Definition taskRunResults (p : PipelineRun.t) : list TaskRunResult.t :=
  flat_map (λ taskRun : string * PipelineRunTaskRunStatus.t,
              PipelineRunTaskRunStatus.Status_TaskRunResults (snd taskRun))
    (PipelineRun.Status_TaskRuns p).

Definition testOutputs (p : PipelineRun.t) : list TaskRunResult.t :=
  filter (λ r, TaskRunResult.Name r = "HACBS_TEST_OUTPUT") (taskRunResults p).

(** A decoded test output whose [result] is neither of the two strings. *)
Definition not_success_or_skipped (m : gmap string jvalue) : Prop :=
  m !! "result" ≠ Some (JString "SUCCESS") ∧ m !! "result" ≠ Some (JString "SKIPPED").

Definition succeeded (p : PipelineRun.t) : bool :=
  IsTrue (GetCondition (PipelineRun.Status_Conditions p) ConditionSucceeded).

(** The verdict a snapshot carries: status and reason of its
    [HACBSTestSucceeded] condition. *)
Definition verdict (s : ApplicationSnapshot.t) : option (string * string) :=
  match meta.FindStatusCondition (ApplicationSnapshot.Status_Conditions s)
          "HACBSTestSucceeded" with
  | Some c => Some (metav1.Condition.Status c, metav1.Condition.Reason c)
  | None => None
  end.

(** The next API call is answered. *)
Definition answers (w : World) : Prop :=
  match faults w with
  | Some _ :: _ => False
  | _ => True
  end.

Definition optionalLabel : string := "test.appstudio.openshift.io/optional".

(** The test PipelineRuns of a snapshot and a scenario that a [List] in
    the namespace returns. *)
Definition listedTestRuns (c : Cluster) (namespace snapshot scenario : string)
    : list PipelineRun.t :=
  filter (λ p, PipelineRun.Namespace p = namespace
               ∧ PipelineRun.Labels p !! "pipelines.appstudio.openshift.io/type" = Some "test"
               ∧ PipelineRun.Labels p !! "test.appstudio.openshift.io/snapshot" = Some snapshot
               ∧ PipelineRun.Labels p !! "test.appstudio.openshift.io/scenario" = Some scenario)
    (PipelineRuns c).

(** The Components of an Application. *)
Definition applicationComponents (c : Cluster) (app : Application.t) : list Component.t :=
  filter (λ x, Component.Namespace x = Application.Namespace app
               ∧ Component.Spec_Application x = Application.Name app) (Components c).

(** The Snapshots of an Application. *)
Definition applicationSnapshots (c : Cluster) (app : Application.t)
    : list ApplicationSnapshot.t :=
  filter (λ x, ApplicationSnapshot.Namespace x = Application.Namespace app
               ∧ ApplicationSnapshot.Spec_Application x = Application.Name app)
    (ApplicationSnapshots c).

(** The current component to image mapping with the image of the
    triggering component replaced. *)
Definition desiredComponents (components : list Component.t) (triggering derived : string)
    : list ApplicationSnapshotComponent.t :=
  map (λ c, ApplicationSnapshotComponent.mk (Component.Name c)
              (if bool_decide (Component.Name c = triggering) then derived
               else Component.Status_ContainerImage c))
    components.

(** The object prepareApplicationSnapshotForPipelineRun builds around a
    list of components. *)
Definition preparedSnapshot (a : Adapter.t) (app : Application.t)
    (components : list ApplicationSnapshotComponent.t) : ApplicationSnapshot.t :=
  ApplicationSnapshot.mk "" (Application.Name app +:+ "-") (Application.Namespace app)
    {[ "component" := Component.Name (Adapter.component a) ]}
    (Application.Name app) components [].

(** The body of the loop of findMatchingApplicationSnapshot. *)
Definition matches (expected found : ApplicationSnapshot.t) : option ApplicationSnapshot.t :=
  if compareApplicationSnapshots expected found then Some found else None.

(** [r] is a latest succeeded run of [l], or nothing when [l] has none. *)
Definition latest_of (l : list PipelineRun.t) (r : option PipelineRun.t) : Prop :=
  (r = None ↔ ∀ p, p ∈ l → succeeded p = false)
  ∧ (∀ p, r = Some p →
       p ∈ l ∧ succeeded p = true
       ∧ ∀ q, q ∈ l → succeeded q = true →
           (PipelineRun.Status_CompletionTime q ≤ PipelineRun.Status_CompletionTime p)%Z).

(** An operation that leaves the cluster and the history of writes alone. *)
Definition quiet {A : Type} (m : M A) : Prop :=
  ∀ w r w', m w = (r, w') → cluster w' = cluster w ∧ writes w' = writes w.

(** ** Example data *)

Module Examples.

Definition compA : ApplicationSnapshotComponent.t := ApplicationSnapshotComponent.mk "A" "img1".
Definition compB : ApplicationSnapshotComponent.t := ApplicationSnapshotComponent.mk "B" "img2".
Definition compC : ApplicationSnapshotComponent.t := ApplicationSnapshotComponent.mk "C" "img3".

(** A snapshot of application [app1] in namespace [ns]. *)
Definition snapshot_of (name : string) (components : list ApplicationSnapshotComponent.t)
    : ApplicationSnapshot.t :=
  ApplicationSnapshot.mk name "app1-" "ns" ∅ "app1" components [].

(** A build run of component [A] that pushed to a registry with a port. *)
Definition buildRun : PipelineRun.t :=
  PipelineRun.mk "build-a" "ns"
    {[ "pipelines.appstudio.openshift.io/type" := "build" ]}
    [("output-image", "localhost:5000/app/a:latest")]
    [KCondition.mk "Succeeded" "True"] 10
    [("build-a-task",
      PipelineRunTaskRunStatus.mk "build-container"
        [TaskRunResult.mk "IMAGE_DIGEST" "sha256:0a1b"])].

(** A test run with the given label map, completion time and task results,
    all of one TaskRun. *)
Definition testRun (name : string) (labels : gmap string string) (status : string)
    (completionTime : Z) (taskRunResults : list TaskRunResult.t) : PipelineRun.t :=
  PipelineRun.mk name "ns" labels []
    [KCondition.mk "Succeeded" status] completionTime
    [(name +:+ "-task", PipelineRunTaskRunStatus.mk "test" taskRunResults)].

Definition testOutput (value : string) : TaskRunResult.t :=
  TaskRunResult.mk "HACBS_TEST_OUTPUT" (json.text value).

Definition malformed : PipelineRun.t :=
  testRun "malformed" ∅ "True" 1 [testOutput "oops"].

Definition malformed_then_failure : PipelineRun.t :=
  testRun "malformed-then-failure" ∅ "True" 1
    [testOutput "oops"; testOutput "{'result':'FAILURE'}"].

Definition success_and_skipped : PipelineRun.t :=
  testRun "success-and-skipped" ∅ "True" 1
    [TaskRunResult.mk "OTHER" "oops"; testOutput "{'result':'SUCCESS'}";
     testOutput "{'result':'SKIPPED', 'failures': 0}"].

Definition app1 : Application.t := Application.mk "app1" "ns".

Definition componentA : Component.t := Component.mk "A" "ns" "app1" "r/a@sha1".
Definition componentB : Component.t := Component.mk "B" "ns" "app1" "r/b@sha2".
(** A component of another application in the namespace. *)
Definition componentZ : Component.t := Component.mk "Z" "ns" "app2" "r/z@sha9".

Definition scenario (name : string) (labels : gmap string string) : IntegrationTestScenario.t :=
  IntegrationTestScenario.mk name "ns" labels "app1".

Definition S1 : IntegrationTestScenario.t := scenario "S1" ∅.
Definition S2 : IntegrationTestScenario.t :=
  scenario "S2" {[ "test.appstudio.openshift.io/optional" := "true" ]}.
Definition S3 : IntegrationTestScenario.t :=
  scenario "S3" {[ "test.appstudio.openshift.io/optional" := "false" ]}.

(** The snapshot that the build of [A] leads to. *)
Definition snapshotXyz : ApplicationSnapshot.t :=
  ApplicationSnapshot.mk "app1-xyz" "app1-" "ns" {[ "component" := "A" ]} "app1"
    [ApplicationSnapshotComponent.mk "A" "localhost@sha256:0a1b";
     ApplicationSnapshotComponent.mk "B" "r/b@sha2"] [].

Definition testLabels (scenario : string) : gmap string string :=
  <[ "pipelines.appstudio.openshift.io/type" := "test" ]>
  (<[ "test.appstudio.openshift.io/snapshot" := "app1-xyz" ]>
   (<[ "test.appstudio.openshift.io/scenario" := scenario ]> ∅)).

Definition s1Early : PipelineRun.t :=
  testRun "s1-early" (testLabels "S1") "True" 5 [testOutput "{'result':'SUCCESS'}"].
Definition s1Late : PipelineRun.t :=
  testRun "s1-late" (testLabels "S1") "True" 9 [testOutput "{'result':'SUCCESS'}"].
Definition s1Broken : PipelineRun.t :=
  testRun "s1-broken" (testLabels "S1") "False" 20 [].
Definition s2Failure : PipelineRun.t :=
  testRun "s2-failure" (testLabels "S2") "True" 7
    [testOutput "{'result':'SKIPPED'}"; testOutput "{'result':'FAILURE'}"].
Definition s2Success : PipelineRun.t :=
  testRun "s2-success" (testLabels "S2") "True" 7 [testOutput "{'result':'SKIPPED'}"].

(** A test run that names no snapshot. *)
Definition orphan : PipelineRun.t :=
  testRun "orphan" {[ "pipelines.appstudio.openshift.io/type" := "test" ]} "True" 3 [].

Definition world (c : Cluster) : World := mkWorld c [] ["xyz"] [].

(** The cluster before any build of [app1] was seen. *)
Definition fresh : Cluster :=
  mkCluster [componentA; componentZ; componentB] [] [S1; S2; S3] [buildRun; orphan].

(** The cluster with the snapshot and test runs for it. *)
Definition tested (runs : list PipelineRun.t) (scenarios : list IntegrationTestScenario.t)
    : Cluster :=
  mkCluster [componentA; componentZ; componentB] [snapshotXyz] scenarios runs.

Definition adapter (p : PipelineRun.t) : Adapter.t := Adapter.mk p componentA app1.

End Examples.

(** ** What the further properties speak about *)

(** A test output that decodes, with SUCCESS or SKIPPED as its [result]. *)
Definition passes `{!JsonDecoder} (r : TaskRunResult.t) : Prop :=
  ∃ m, Unmarshal (TaskRunResult.Value r) = Ok m ∧ ¬ not_success_or_skipped m.

(** [a.pipelineRun.Labels["test.appstudio.openshift.io/scenario"]] *)
Definition scenarioLabel (a : Adapter.t) : string :=
  index_label (PipelineRun.Labels (Adapter.pipelineRun a)) "test.appstudio.openshift.io/scenario".

(** The run that stands for a scenario: the run being processed when its
    scenario label names the scenario, else what the selection loop keeps
    of the listed test runs. *)
Definition resolved (a : Adapter.t) (c : Cluster) (snapshot : ApplicationSnapshot.t)
    (sc : IntegrationTestScenario.t) : option PipelineRun.t :=
  if bool_decide (scenarioLabel a = IntegrationTestScenario.Name sc)
  then Some (Adapter.pipelineRun a)
  else fold_left latest_step
         (listedTestRuns c (Application.Namespace (Adapter.application a))
            (ApplicationSnapshot.Name snapshot) (IntegrationTestScenario.Name sc))
         None.

(** [r] is the first of the latest succeeded runs of [l]: the succeeded
    runs before it completed earlier, those after it did not complete
    later. *)
Definition first_latest (l : list PipelineRun.t) (r : option PipelineRun.t) : Prop :=
  match r with
  | None => ∀ q, q ∈ l → succeeded q = false
  | Some p =>
      ∃ l1 l2, l = l1 ++ p :: l2 ∧ succeeded p = true
        ∧ (∀ q, q ∈ l1 → succeeded q = true →
             (PipelineRun.Status_CompletionTime q < PipelineRun.Status_CompletionTime p)%Z)
        ∧ (∀ q, q ∈ l2 → succeeded q = true →
             (PipelineRun.Status_CompletionTime q ≤ PipelineRun.Status_CompletionTime p)%Z)
  end.

(** A snapshot without its status conditions. *)
Definition withoutStatus (s : ApplicationSnapshot.t) : ApplicationSnapshot.t :=
  client.with_conditions s [].

(** The component to image mapping as the Components record it. *)
Definition currentComponents (components : list Component.t)
    : list ApplicationSnapshotComponent.t :=
  map (λ c, ApplicationSnapshotComponent.mk (Component.Name c)
              (Component.Status_ContainerImage c)) components.

(** The name the API server gives to the next object created from a
    [GenerateName]. *)
Definition nextName (w : World) (generateName : string) : string :=
  generateName +:+ match suffixes w with [] => "" | suffix :: _ => suffix end.

Module MoreExamples.

(** A world whose API server fails as [faults] says. *)
Definition unreliable (c : Cluster) (faults : list (option error)) : World :=
  mkWorld c faults ["xyz"] [].

(** A test run of [S1] that did not succeed and reports nothing. *)
Definition s1Aborted : PipelineRun.t :=
  Examples.testRun "s1-aborted" (Examples.testLabels "S1") "False" 30 [].

(** A succeeded run of [S1] that completed when [s1Late] did. *)
Definition s1Tie : PipelineRun.t :=
  Examples.testRun "s1-tie" (Examples.testLabels "S1") "True" 9
    [Examples.testOutput "{'result':'SUCCESS'}"].

Definition failure_then_malformed : PipelineRun.t :=
  Examples.testRun "failure-then-malformed" ∅ "True" 1
    [Examples.testOutput "{'result':'FAILURE'}"; Examples.testOutput "oops"].

(** A component that is not among the Components of [app1] in the cluster. *)
Definition componentQ : Component.t := Component.mk "Q" "ns" "app1" "r/q@sha7".

(** The test outputs of [Examples.success_and_skipped], in two TaskRuns
    and next to other task results. *)
Definition success_and_skipped_apart : PipelineRun.t :=
  PipelineRun.mk "apart" "ns" ∅ [] [KCondition.mk "Succeeded" "True"] 1
    [("t1", PipelineRunTaskRunStatus.mk "first"
              [Examples.testOutput "{'result':'SUCCESS'}"; TaskRunResult.mk "LOG" "{"]);
     ("t2", PipelineRunTaskRunStatus.mk "second"
              [TaskRunResult.mk "IMAGE_DIGEST" "sha256:0a1b";
               Examples.testOutput "{'result':'SKIPPED', 'failures': 0}"])].

(** The cluster with a snapshot that holds the images the build of [A]
    leads to, in the other order. *)
Definition swapped : ApplicationSnapshot.t :=
  ApplicationSnapshot.mk "app1-old" "app1-" "ns" ∅ "app1"
    [ApplicationSnapshotComponent.mk "B" "r/b@sha2";
     ApplicationSnapshotComponent.mk "A" "localhost@sha256:0a1b"] [].

Definition stale : ApplicationSnapshot.t :=
  ApplicationSnapshot.mk "app1-stale" "app1-" "ns" ∅ "app1"
    [ApplicationSnapshotComponent.mk "A" "r/a@sha1";
     ApplicationSnapshotComponent.mk "B" "r/b@sha2"] [].

Definition deduplicated : Cluster :=
  mkCluster [Examples.componentA; Examples.componentZ; Examples.componentB]
    [stale; swapped] [Examples.S1] [Examples.buildRun].

End MoreExamples.

(** ** Properties *)

(** *** Loops *)

Lemma range_until_app {A R} (body : A → option R) (l1 l2 : list A) :
  range_until body (l1 ++ l2) =
  match range_until body l1 with
  | Some r => Some r
  | None => range_until body l2
  end.
Proof.
  induction l1 as [|x l1 IH]; simpl; [done|].
  destruct (body x); [done|apply IH].
Qed.

Lemma range_until_flat_map {A B R} (f : A → list B) (body : B → option R) (l : list A) :
  range_until (λ x, range_until body (f x)) l = range_until body (flat_map f l).
Proof.
  induction l as [|x l IH]; simpl; [done|].
  rewrite range_until_app. destruct (range_until body (f x)); [done|apply IH].
Qed.

Lemma range_until_None {A R} (body : A → option R) (l : list A) :
  range_until body l = None ↔ ∀ x, x ∈ l → body x = None.
Proof.
  induction l as [|x l IH]; simpl.
  - split; [|done]. intros _ y Hy. by apply elem_of_nil in Hy.
  - destruct (body x) eqn:Hx.
    + split; [done|]. intros H. specialize (H x (list_elem_of_here _ _)). congruence.
    + rewrite IH. split.
      * intros H y Hy. apply elem_of_cons in Hy as [->|Hy]; auto.
      * intros H y Hy. apply H. by apply list_elem_of_further.
Qed.

Lemma range_until_Some {A R} (body : A → option R) (l : list A) (r : R) :
  range_until body l = Some r →
  ∃ l1 x l2, l = l1 ++ x :: l2 ∧ body x = Some r ∧ ∀ y, y ∈ l1 → body y = None.
Proof.
  induction l as [|x l IH]; simpl; [done|].
  destruct (body x) eqn:Hx.
  - intros [= ->]. exists [], x, l. split_and!; [done|done|].
    intros y Hy. by apply elem_of_nil in Hy.
  - intros H. destruct (IH H) as (l1 & y & l2 & -> & Hy & Hl1).
    exists (x :: l1), y, l2. split_and!; [done|done|].
    intros z Hz. apply elem_of_cons in Hz as [->|Hz]; auto.
Qed.

(** *** compareApplicationSnapshots *)

Lemma foundImage_fold (c1 : ApplicationSnapshotComponent.t) l (b : bool) :
  fold_left (λ foundImage c2, if bool_decide (c2 = c1) then true else foundImage) l b
  = b || bool_decide (c1 ∈ l).
Proof.
  revert b. induction l as [|c2 l IH]; intros b; cbn [fold_left].
  - rewrite bool_decide_eq_false_2; [by destruct b|]. apply not_elem_of_nil.
  - rewrite IH. destruct (decide (c2 = c1)) as [->|Hne].
    + rewrite (bool_decide_eq_true_2 (c1 = c1)) by done.
      rewrite (bool_decide_eq_true_2 (c1 ∈ c1 :: l)) by apply list_elem_of_here.
      by destruct b.
    + rewrite (bool_decide_eq_false_2 (c2 = c1)) by done.
      f_equal. apply bool_decide_ext. rewrite elem_of_cons.
      split; [by right|]. intros [?|?]; [congruence|done].
Qed.

Lemma allImagesMatch_fold (found expected : list ApplicationSnapshotComponent.t) (b : bool) :
  fold_left
    (λ allImagesMatch component1,
       let foundImage :=
         fold_left (λ foundImage c2, if bool_decide (c2 = component1) then true else foundImage)
           found false in
       if negb foundImage then false else allImagesMatch)
    expected b
  = b && bool_decide (expected ⊆ found).
Proof.
  revert b. induction expected as [|c l IH]; intros b; cbn [fold_left].
  - rewrite bool_decide_eq_true_2; [by destruct b|]. apply list_subseteq_nil.
  - rewrite IH. cbv zeta. rewrite foundImage_fold. cbn [orb].
    destruct (decide (c ∈ found)) as [Hin|Hout].
    + rewrite (bool_decide_eq_true_2 (c ∈ found)) by done. cbn [negb]. f_equal.
      apply bool_decide_ext. split.
      * intros H x Hx. apply elem_of_cons in Hx as [->|Hx]; auto.
      * intros H x Hx. apply H. by apply list_elem_of_further.
    + rewrite (bool_decide_eq_false_2 (c ∈ found)) by done. cbn [negb andb].
      rewrite (bool_decide_eq_false_2 (c :: l ⊆ found)); [by destruct b|].
      intros H. apply Hout, H, list_elem_of_here.
Qed.

Lemma compareApplicationSnapshots_spec (e f : ApplicationSnapshot.t) :
  compareApplicationSnapshots e f = true ↔
  length (ApplicationSnapshot.Spec_Components e) = length (ApplicationSnapshot.Spec_Components f)
  ∧ ApplicationSnapshot.Spec_Components e ⊆ ApplicationSnapshot.Spec_Components f.
Proof.
  unfold compareApplicationSnapshots. rewrite allImagesMatch_fold. simpl.
  rewrite andb_true_iff, !bool_decide_eq_true. done.
Qed.

Lemma compareApplicationSnapshots_ext (e e' f f' : ApplicationSnapshot.t) :
  (compareApplicationSnapshots e f = true ↔ compareApplicationSnapshots e' f' = true) →
  compareApplicationSnapshots e f = compareApplicationSnapshots e' f'.
Proof.
  destruct (compareApplicationSnapshots e f), (compareApplicationSnapshots e' f');
    intros [H1 H2]; try done.
  - symmetry. by apply H1.
  - by apply H2.
Qed.

Lemma compareApplicationSnapshots_same_components (e f : ApplicationSnapshot.t) :
  ApplicationSnapshot.Spec_Components e = ApplicationSnapshot.Spec_Components f →
  compareApplicationSnapshots e f = true.
Proof. intros H. apply compareApplicationSnapshots_spec. by rewrite H. Qed.

Lemma compareApplicationSnapshots_NoDup (e f : ApplicationSnapshot.t) :
  NoDup (ApplicationSnapshot.Spec_Components e) →
  compareApplicationSnapshots e f = true →
  ApplicationSnapshot.Spec_Components e ≡ₚ ApplicationSnapshot.Spec_Components f.
Proof.
  intros Hnd [Hlen Hsub]%compareApplicationSnapshots_spec.
  apply submseteq_length_Permutation; [|lia].
  by apply NoDup_submseteq.
Qed.

(** C6, amended. Permuting the component list of either snapshot never
    changes the result of compareApplicationSnapshots; and the comparison of
    two snapshots gives the same result in both directions when neither
    component list holds an entry twice. *)
Theorem compareApplicationSnapshots_order_and_symmetry (s1 s2 s1' s2' : ApplicationSnapshot.t) :
  ApplicationSnapshot.Spec_Components s1 ≡ₚ ApplicationSnapshot.Spec_Components s1' →
  ApplicationSnapshot.Spec_Components s2 ≡ₚ ApplicationSnapshot.Spec_Components s2' →
  compareApplicationSnapshots s1 s2 = compareApplicationSnapshots s1' s2'
  ∧ (NoDup (ApplicationSnapshot.Spec_Components s1) →
     NoDup (ApplicationSnapshot.Spec_Components s2) →
     compareApplicationSnapshots s1 s2 = compareApplicationSnapshots s2 s1).
Proof.
  intros P1 P2. split.
  - apply compareApplicationSnapshots_ext.
    rewrite !compareApplicationSnapshots_spec.
    rewrite (Permutation_length P1), (Permutation_length P2).
    split; intros [Hl Hs]; (split; [done|]); intros x Hx.
    + rewrite <- P2. apply Hs. by rewrite P1.
    + rewrite P2. apply Hs. by rewrite <- P1.
  - intros N1 N2. apply compareApplicationSnapshots_ext. split; intros H.
    + pose proof (compareApplicationSnapshots_NoDup _ _ N1 H) as P.
      apply compareApplicationSnapshots_spec. split.
      * symmetry. by apply Permutation_length.
      * intros x Hx. by rewrite P.
    + pose proof (compareApplicationSnapshots_NoDup _ _ N2 H) as P.
      apply compareApplicationSnapshots_spec. split.
      * symmetry. by apply Permutation_length.
      * intros x Hx. by rewrite P.
Qed.

(** C6, as stated, fails: with an entry listed twice the comparison accepts
    [[A; A]] against [[A; B]] and rejects [[A; B]] against [[A; A]]. *)
Lemma compareApplicationSnapshots_not_symmetric :
  let s1 := Examples.snapshot_of "s1" [Examples.compA; Examples.compA] in
  let s2 := Examples.snapshot_of "s2" [Examples.compA; Examples.compB] in
  compareApplicationSnapshots s1 s2 = true
  ∧ compareApplicationSnapshots s2 s1 = false
  ∧ ¬ (∀ x y, compareApplicationSnapshots x y = compareApplicationSnapshots y x).
Proof.
  split_and!; [done|done|].
  intros H.
  specialize (H (Examples.snapshot_of "s1" [Examples.compA; Examples.compA])
                (Examples.snapshot_of "s2" [Examples.compA; Examples.compB])).
  discriminate H.
Qed.

Lemma compareApplicationSnapshots_order_and_symmetry_witness :
  let s1 := Examples.snapshot_of "s1" [Examples.compA; Examples.compB; Examples.compC] in
  let s1' := Examples.snapshot_of "s1" [Examples.compB; Examples.compA; Examples.compC] in
  let s2 := Examples.snapshot_of "s2" [Examples.compC; Examples.compB; Examples.compA] in
  let s2' := Examples.snapshot_of "s2" [Examples.compC; Examples.compA; Examples.compB] in
  compareApplicationSnapshots s1 s2 = compareApplicationSnapshots s1' s2'
  ∧ compareApplicationSnapshots s1 s2 = compareApplicationSnapshots s2 s1.
Proof.
  intros s1 s1' s2 s2'.
  destruct (compareApplicationSnapshots_order_and_symmetry s1 s2 s1' s2') as [H1 H2].
  - apply perm_swap.
  - apply perm_skip, perm_swap.
  - split; [exact H1|]. apply H2; apply (bool_decide_unpack _); vm_compute; reflexivity.
Defined.

(** *** getImagePullSpecFromPipelineRun *)

Lemma string_app_cons (c : ascii) (s t : string) : String c s +:+ t = String c (s +:+ t).
Proof. reflexivity. Qed.

Lemma string_app_empty_r (s : string) : s +:+ "" = s.
Proof. induction s as [|c s IH]; [done|]. by rewrite string_app_cons, IH. Qed.

Lemma string_app_snoc (s t : string) (c : ascii) :
  (s +:+ String c "") +:+ t = s +:+ String c t.
Proof. induction s as [|x s IH]; [done|]. by rewrite !string_app_cons, IH. Qed.

Lemma Split_from_nonempty (sep : string) (skip : nat) (cur s : string) :
  Split_from sep skip cur s ≠ [].
Proof.
  revert skip cur. induction s as [|c s IH]; intros skip cur; simpl; [done|].
  destruct skip; [|apply IH].
  destruct (has_prefix sep (String c s)); [done|apply IH].
Qed.

Lemma Split_from_colon_head (cur s : string) :
  nth 0 (Split_from (String colon "") 0 cur s) "" = cur +:+ truncate_at colon s.
Proof.
  revert cur. induction s as [|c s IH]; intros cur;
    cbn [Split_from truncate_at has_prefix String.length Nat.sub].
  - by rewrite string_app_empty_r.
  - rewrite (Ascii.eqb_sym c colon).
    destruct (Ascii.eqb colon c); cbn [has_prefix nth].
    + by rewrite string_app_empty_r.
    + by rewrite IH, string_app_snoc.
Qed.

Lemma truncate_at_app (c : ascii) (pre post : string) :
  occurs c pre = false → truncate_at c (pre +:+ String c post) = pre.
Proof.
  induction pre as [|x pre IH]; simpl.
  - intros _. change ("" +:+ String c post) with (String c post). simpl.
    by rewrite Ascii.eqb_refl.
  - intros [Hx Hpre]%orb_false_iff. rewrite Hx. by rewrite IH.
Qed.

(** C10. The pull spec is the output image cut off at its first colon,
    then [@], then the digest; so of an image [pre:post] whose [pre] holds
    no colon only [pre] is kept, whatever [post] is. *)
Theorem getImagePullSpecFromPipelineRun_truncates `{!Tekton}
    (pipelineRun : PipelineRun.t) (outputImage imageDigest : string) :
  GetOutputImage pipelineRun = Ok outputImage →
  GetOutputImageDigest pipelineRun = Ok imageDigest →
  getImagePullSpecFromPipelineRun pipelineRun
  = Ok (truncate_at colon outputImage +:+ "@" +:+ imageDigest)
  ∧ (∀ pre post : string,
       occurs colon pre = false →
       outputImage = pre +:+ String colon post →
       getImagePullSpecFromPipelineRun pipelineRun = Ok (pre +:+ "@" +:+ imageDigest)).
Proof.
  intros Himage Hdigest.
  assert (getImagePullSpecFromPipelineRun pipelineRun
          = Ok (truncate_at colon outputImage +:+ "@" +:+ imageDigest)) as Hspec.
  { unfold getImagePullSpecFromPipelineRun. rewrite Himage, Hdigest.
    change (Split outputImage ":") with (Split_from (String colon "") 0 "" outputImage).
    by rewrite Split_from_colon_head. }
  split; [exact Hspec|].
  intros pre post Hpre ->. rewrite Hspec. by rewrite truncate_at_app.
Qed.

Lemma getImagePullSpecFromPipelineRun_truncates_witness :
  @getImagePullSpecFromPipelineRun tekton_helpers Examples.buildRun
  = Ok "localhost@sha256:0a1b".
Proof.
  destruct (@getImagePullSpecFromPipelineRun_truncates tekton_helpers Examples.buildRun
              "localhost:5000/app/a:latest" "sha256:0a1b") as [_ H].
  - reflexivity.
  - reflexivity.
  - apply (H "localhost" "5000/app/a:latest"); reflexivity.
Defined.

(** *** calculateIntegrationPipelineRunOutcome *)

Lemma iface_neq_string_spec (m : gmap string jvalue) (k s : string) :
  iface_neq_string (index_iface m k) s = true ↔ m !! k ≠ Some (JString s).
Proof.
  unfold index_iface. destruct (m !! k) as [[| | |s'| |]|]; simpl; try done.
  rewrite negb_true_iff, bool_decide_eq_false. split; intros H; congruence.
Qed.

Section Outcome.
Context {decoder : JsonDecoder}.

Lemma checkTaskRunResult_None (r : TaskRunResult.t) :
  checkTaskRunResult r = None ↔
  (TaskRunResult.Name r = "HACBS_TEST_OUTPUT" →
   ∃ m, Unmarshal (TaskRunResult.Value r) = Ok m ∧ ¬ not_success_or_skipped m).
Proof.
  unfold checkTaskRunResult, not_success_or_skipped. case_bool_decide as Hname.
  - destruct (Unmarshal (TaskRunResult.Value r)) as [m|e].
    + destruct (_ && _) eqn:Hb.
      * split; [done|]. intros H. destruct (H Hname) as (m' & [= <-] & Hm).
        exfalso. apply Hm. apply andb_true_iff in Hb.
        by rewrite !iface_neq_string_spec in Hb.
      * split; [|done]. intros _ _. exists m. split; [done|].
        rewrite <- !iface_neq_string_spec, <- andb_true_iff. by rewrite Hb.
    + split; [done|]. intros H. by destruct (H Hname) as (m' & [=] & _).
  - split; [|done]. by intros _ ?.
Qed.

Lemma checkTaskRunResult_Some (r : TaskRunResult.t) (ret : bool * option error) :
  checkTaskRunResult r = Some ret →
  TaskRunResult.Name r = "HACBS_TEST_OUTPUT"
  ∧ fst ret = false
  ∧ match snd ret with
    | Some e => Unmarshal (TaskRunResult.Value r) = Err e
    | None => ∃ m, Unmarshal (TaskRunResult.Value r) = Ok m ∧ not_success_or_skipped m
    end.
Proof.
  unfold checkTaskRunResult, not_success_or_skipped. case_bool_decide as Hname; [|done].
  destruct (Unmarshal (TaskRunResult.Value r)) as [m|e].
  - destruct (_ && _) eqn:Hb; [|done]. intros [= <-]. simpl. split_and!; [done..|].
    exists m. split; [done|]. apply andb_true_iff in Hb.
    by rewrite !iface_neq_string_spec in Hb.
  - by intros [= <-].
Qed.

Lemma calculateIntegrationPipelineRunOutcome_scan (p : PipelineRun.t) :
  calculateIntegrationPipelineRunOutcome p =
  match range_until checkTaskRunResult (taskRunResults p) with
  | Some ret => ret
  | None => (true, None)
  end.
Proof.
  unfold calculateIntegrationPipelineRunOutcome, taskRunResults.
  by rewrite range_until_flat_map.
Qed.

(** C2, amended. When every HACBS_TEST_OUTPUT task result of a run decodes,
    the outcome computation returns no error, and it fails the run exactly
    when the decoded object of one of them holds neither the string SUCCESS
    nor the string SKIPPED under [result]; a run without such task results
    passes. *)
Theorem calculateIntegrationPipelineRunOutcome_decoded (p : PipelineRun.t) :
  (∀ r, r ∈ testOutputs p → ∃ m, Unmarshal (TaskRunResult.Value r) = Ok m) →
  snd (calculateIntegrationPipelineRunOutcome p) = None
  ∧ (fst (calculateIntegrationPipelineRunOutcome p) = false ↔
     ∃ r m, r ∈ testOutputs p
            ∧ Unmarshal (TaskRunResult.Value r) = Ok m ∧ not_success_or_skipped m)
  ∧ (testOutputs p = [] → calculateIntegrationPipelineRunOutcome p = (true, None)).
Proof.
  intros Hdec. rewrite calculateIntegrationPipelineRunOutcome_scan.
  destruct (range_until checkTaskRunResult (taskRunResults p)) as [ret|] eqn:Hscan.
  - apply range_until_Some in Hscan as (l1 & r & l2 & Hl & Hr & _).
    apply checkTaskRunResult_Some in Hr as (Hname & Hfst & Hsnd).
    assert (r ∈ testOutputs p) as Hin.
    { unfold testOutputs. apply list_elem_of_filter. split; [done|].
      rewrite Hl. apply elem_of_app. right. apply list_elem_of_here. }
    destruct ret as [b [e|]]; simpl in *.
    + destruct (Hdec r Hin) as [m Hm]. congruence.
    + split_and!; [done| |].
      * split; [|done]. intros _. destruct Hsnd as (m & Hm & Hbad). by exists r, m.
      * intros Hnil. rewrite Hnil in Hin. by apply elem_of_nil in Hin.
  - simpl. split_and!; [done| |done].
    split; [done|]. intros (r & m & Hin & Hm & Hbad).
    apply list_elem_of_filter in Hin as [Hname Hin].
    pose proof (proj1 (range_until_None _ _) Hscan r Hin) as Hr.
    destruct (proj1 (checkTaskRunResult_None r) Hr Hname) as (m' & Hm' & Hgood).
    congruence.
Qed.

End Outcome.

(** C2, as stated, fails on a task result that does not decode: the
    computation returns [(false, err)] although no task result has a
    [result] to object to, and it does so as well when a failing task
    result follows, which it never reads. *)
Lemma calculateIntegrationPipelineRunOutcome_malformed :
  let outcome := @calculateIntegrationPipelineRunOutcome json_Unmarshal in
  let failing p :=
    ∃ r m, r ∈ testOutputs p
           ∧ json.Unmarshal (TaskRunResult.Value r) = Ok m ∧ not_success_or_skipped m in
  ¬ (fst (outcome Examples.malformed) = false ↔ failing Examples.malformed)
  ∧ ¬ (outcome Examples.malformed_then_failure = (false, None)
       ↔ failing Examples.malformed_then_failure).
Proof.
  split.
  - intros [H _]. destruct (H eq_refl) as (r & m & Hin & Hm & _).
    apply list_elem_of_filter in Hin as [_ Hin].
    apply list_elem_of_In in Hin. simpl in Hin. destruct Hin as [<-|[]].
    vm_compute in Hm. discriminate Hm.
  - intros [_ H]. enough (@calculateIntegrationPipelineRunOutcome json_Unmarshal
                            Examples.malformed_then_failure = (false, None)) as E.
    { vm_compute in E. discriminate E. }
    apply H. exists (Examples.testOutput "{'result':'FAILURE'}"), {[ "result" := JString "FAILURE" ]}.
    split_and!.
    + apply list_elem_of_filter. split; [done|].
      apply list_elem_of_In. simpl. auto.
    + vm_compute. reflexivity.
    + split; vm_compute; discriminate.
Qed.

Lemma calculateIntegrationPipelineRunOutcome_decoded_witness :
  @calculateIntegrationPipelineRunOutcome json_Unmarshal Examples.success_and_skipped
  = (true, None).
Proof.
  pose proof (@calculateIntegrationPipelineRunOutcome_decoded json_Unmarshal
                Examples.success_and_skipped) as H.
  destruct H as (Herr & Hfail & _).
  - intros r Hin. apply list_elem_of_filter in Hin as [Hname Hin].
    apply list_elem_of_In in Hin. simpl in Hin.
    destruct Hin as [<-|[<-|[<-|[]]]]; try discriminate Hname;
      eexists; vm_compute; reflexivity.
  - destruct (@calculateIntegrationPipelineRunOutcome json_Unmarshal
                Examples.success_and_skipped) as [[] o]; simpl in *; subst; [done|].
    exfalso. destruct (proj1 Hfail eq_refl) as (r & m & Hin & Hm & Hbad1 & Hbad2).
    apply list_elem_of_filter in Hin as [Hname Hin].
    apply list_elem_of_In in Hin. simpl in Hin.
    destruct Hin as [<-|[<-|[<-|[]]]]; vm_compute in Hm;
      try discriminate Hname; injection Hm as <-;
      [apply Hbad1|apply Hbad2]; vm_compute; reflexivity.
Defined.

(** *** The client *)

Ltac unfold_M :=
  unfold mbind, M_bind, mret, M_ret, read, fail, apply_write, draw_suffix in *.

Lemma api_call_quiet : quiet api_call.
Proof.
  intros w r w'. unfold api_call.
  destruct (faults w) as [|[e|] fs]; intros [= <- <-]; done.
Qed.

Lemma api_call_answers (w : World) :
  answers w →
  api_call w = (Ok tt, mkWorld (cluster w) (tail (faults w)) (suffixes w) (writes w))
  ∨ (faults w = [] ∧ api_call w = (Ok tt, w)).
Proof.
  unfold answers, api_call. destruct (faults w) as [|[e|] fs]; intros Ha; [|done|].
  - by right.
  - by left.
Qed.

Lemma api_call_answers_quiet (w : World) :
  answers w → ∃ w', api_call w = (Ok tt, w') ∧ cluster w' = cluster w ∧ writes w' = writes w.
Proof.
  intros [H|[_ H]]%api_call_answers; rewrite H; eauto.
Qed.

Lemma quiet_ret {A} (x : A) : quiet (mret x).
Proof. intros w r w'. unfold_M. by intros [= <- <-]. Qed.

Lemma quiet_fail {A} (e : error) : quiet (@fail A e).
Proof. intros w r w'. unfold_M. by intros [= <- <-]. Qed.

Lemma quiet_read {A} (f : Cluster → A) : quiet (read f).
Proof. intros w r w'. unfold_M. by intros [= <- <-]. Qed.

Lemma quiet_bind {A B} (m : M A) (k : A → M B) :
  quiet m → (∀ x, quiet (k x)) → quiet (m ≫= k).
Proof.
  intros Hm Hk w r w'. unfold_M.
  destruct (m w) as [[x|e] w1] eqn:E; intros H.
  - destruct (Hm _ _ _ E) as [Hc Hw]. destruct (Hk x _ _ _ H) as [Hc' Hw'].
    split; congruence.
  - injection H as <- <-. by apply Hm in E.
Qed.

Create HintDb quiet.
#[local] Hint Resolve api_call_quiet quiet_ret quiet_fail quiet_read : quiet.
#[local] Hint Extern 2 (quiet (_ ≫= _)) => (apply quiet_bind; [|intros ?]) : quiet.

Lemma List_Components_quiet ns app : quiet (client.List_Components ns app).
Proof. unfold client.List_Components. auto with quiet. Qed.

Lemma List_ApplicationSnapshots_quiet ns app : quiet (client.List_ApplicationSnapshots ns app).
Proof. unfold client.List_ApplicationSnapshots. auto with quiet. Qed.

Lemma List_IntegrationTestScenarios_quiet ns app sel :
  quiet (client.List_IntegrationTestScenarios ns app sel).
Proof. unfold client.List_IntegrationTestScenarios. auto with quiet. Qed.

Lemma List_PipelineRuns_quiet ns ls : quiet (client.List_PipelineRuns ns ls).
Proof. unfold client.List_PipelineRuns. auto with quiet. Qed.

Lemma Get_ApplicationSnapshot_quiet ns name : quiet (client.Get_ApplicationSnapshot ns name).
Proof.
  unfold client.Get_ApplicationSnapshot.
  apply quiet_bind; [auto with quiet|intros _].
  apply quiet_bind; [auto with quiet|intros [s|]]; auto with quiet.
Qed.

#[local] Hint Resolve List_Components_quiet List_ApplicationSnapshots_quiet
  List_IntegrationTestScenarios_quiet List_PipelineRuns_quiet
  Get_ApplicationSnapshot_quiet : quiet.

(** *** getLatestPipelineRunForApplicationSnapshotAndScenario *)

Lemma latest_of_step (l : list PipelineRun.t) (r : option PipelineRun.t) (x : PipelineRun.t) :
  latest_of l r → latest_of (l ++ [x]) (latest_step r x).
Proof.
  intros [Hnone Hsome]. unfold latest_step. fold (succeeded x).
  destruct (succeeded x) eqn:Hx.
  - destruct r as [latest|].
    + destruct (Hsome latest eq_refl) as (Hin & Hs & Hmax).
      unfold After. destruct (Z.ltb_spec (PipelineRun.Status_CompletionTime latest)
                                (PipelineRun.Status_CompletionTime x)) as [Hlt|Hge].
      * split.
        { split; [done|]. intros H. rewrite H in Hx; [done|].
          apply elem_of_app. right. apply list_elem_of_here. }
        intros p [= <-]. split_and!; [|done|].
        { apply elem_of_app. right. apply list_elem_of_here. }
        intros q [Hq|Hq%list_elem_of_singleton]%elem_of_app Hqs.
        -- specialize (Hmax q Hq Hqs). lia.
        -- subst q. lia.
      * split.
        { split; [done|]. intros H. rewrite H in Hs; [done|].
          apply elem_of_app. by left. }
        intros p [= <-]. split_and!; [|done|].
        { apply elem_of_app. by left. }
        intros q [Hq|Hq%list_elem_of_singleton]%elem_of_app Hqs.
        -- by apply Hmax.
        -- by subst q.
    + split.
      { split; [done|]. intros H. rewrite H in Hx; [done|].
        apply elem_of_app. right. apply list_elem_of_here. }
      intros p [= <-]. split_and!; [|done|].
      { apply elem_of_app. right. apply list_elem_of_here. }
      intros q [Hq|Hq%list_elem_of_singleton]%elem_of_app Hqs.
      * rewrite (proj1 Hnone eq_refl q Hq) in Hqs. done.
      * subst q. lia.
  - split.
    + rewrite Hnone. split.
      * intros H p [Hp|Hp%list_elem_of_singleton]%elem_of_app; [by apply H|by subst p].
      * intros H p Hp. apply H. apply elem_of_app. by left.
    + intros p Hp. destruct (Hsome p Hp) as (Hin & Hs & Hmax). split_and!; [|done|].
      * apply elem_of_app. by left.
      * intros q [Hq|Hq%list_elem_of_singleton]%elem_of_app Hqs; [by apply Hmax|].
        subst q. congruence.
Qed.

Lemma latest_of_fold (items pre : list PipelineRun.t) (r : option PipelineRun.t) :
  latest_of pre r → latest_of (pre ++ items) (fold_left latest_step items r).
Proof.
  revert pre r. induction items as [|x items IH]; intros pre r H; simpl.
  - by rewrite app_nil_r.
  - rewrite (cons_middle x pre items), app_assoc. apply IH. by apply latest_of_step.
Qed.

Lemma latest_of_nil : latest_of [] None.
Proof.
  split; [|done]. split; [|done]. intros _ p Hp. by apply elem_of_nil in Hp.
Qed.

Lemma matching_test_labels (ls : gmap string string) (snapshot scenario : string) :
  map_Forall (λ k v, ls !! k = Some v)
    (<[ "pipelines.appstudio.openshift.io/type" := "test" ]>
     (<[ "test.appstudio.openshift.io/snapshot" := snapshot ]>
      (<[ "test.appstudio.openshift.io/scenario" := scenario ]> (∅ : gmap string string))))
  ↔ ls !! "pipelines.appstudio.openshift.io/type" = Some "test"
    ∧ ls !! "test.appstudio.openshift.io/snapshot" = Some snapshot
    ∧ ls !! "test.appstudio.openshift.io/scenario" = Some scenario.
Proof.
  rewrite !map_Forall_insert by (by simplify_map_eq).
  split.
  - intros (? & ? & ? & _). done.
  - intros (? & ? & ?). split_and!; [done..|]. apply map_Forall_empty.
Qed.

Lemma filter_ext_iff {A} (P Q : A → Prop) `{∀ x, Decision (P x)} `{∀ x, Decision (Q x)}
    (l : list A) :
  (∀ x, P x ↔ Q x) → filter P l = filter Q l.
Proof.
  intros HPQ. induction l as [|x l IH]; [done|].
  rewrite !filter_cons. rewrite IH.
  destruct (decide (P x)) as [HP|HP], (decide (Q x)) as [HQ|HQ]; try done.
  - by apply HPQ in HP.
  - by apply HPQ in HQ.
Qed.

(** C4. When the list call is answered, the run that
    getLatestPipelineRunForApplicationSnapshotAndScenario returns is one of
    the listed test runs of the snapshot and the scenario, it has succeeded,
    and no succeeded listed run completed later; it returns nil, and no
    error, exactly when no listed run has succeeded. *)
Theorem getLatestPipelineRun_is_latest_succeeded
    (a : Adapter.t) (applicationSnapshot : ApplicationSnapshot.t)
    (integrationTestScenario : IntegrationTestScenario.t) (w : World) :
  answers w →
  ∃ latest w',
    getLatestPipelineRunForApplicationSnapshotAndScenario a
      applicationSnapshot integrationTestScenario w = (Ok latest, w')
    ∧ latest_of
        (listedTestRuns (cluster w) (Application.Namespace (Adapter.application a))
           (ApplicationSnapshot.Name applicationSnapshot)
           (IntegrationTestScenario.Name integrationTestScenario))
        latest.
Proof.
  intros Ha. destruct (api_call_answers_quiet w Ha) as (w' & Hcall & Hc & _).
  unfold getLatestPipelineRunForApplicationSnapshotAndScenario, client.List_PipelineRuns.
  unfold_M. rewrite Hcall. eexists _, w'. split; [reflexivity|].
  rewrite Hc. unfold listedTestRuns.
  erewrite filter_ext_iff.
  - apply (latest_of_fold _ [] None latest_of_nil).
  - intros p. simpl. by rewrite matching_test_labels.
Qed.

Lemma getLatestPipelineRun_is_latest_succeeded_witness :
  let w := Examples.world
             (Examples.tested [Examples.s1Early; Examples.s2Failure; Examples.s1Late;
                               Examples.s1Broken] [Examples.S1; Examples.S2]) in
  ∃ latest w',
    getLatestPipelineRunForApplicationSnapshotAndScenario
      (Examples.adapter Examples.s2Failure) Examples.snapshotXyz Examples.S1 w
    = (Ok latest, w')
    ∧ latest_of [Examples.s1Early; Examples.s1Late; Examples.s1Broken] latest.
Proof.
  intros w.
  apply (getLatestPipelineRun_is_latest_succeeded
           (Examples.adapter Examples.s2Failure) Examples.snapshotXyz Examples.S1 w).
  vm_compute. exact I.
Defined.

(** *** getRequiredIntegrationTestScenariosForApplication *)

Lemma optional_selector_matches (ls : gmap string string) :
  labels.SelectorMatches
    (labels.Add labels.NewSelector
       (labels.mkRequirement optionalLabel selection.NotIn ["false"])) ls = true
  ↔ ls !! optionalLabel ≠ Some "false".
Proof.
  unfold labels.SelectorMatches, labels.Add, labels.NewSelector, labels.Matches,
    labels.hasValue. cbn [app forallb labels.operator labels.key labels.strValues].
  rewrite andb_true_r. destruct (ls !! optionalLabel) as [v|]; [|done].
  rewrite negb_true_iff, bool_decide_eq_false, list_elem_of_singleton.
  split; intros H; congruence.
Qed.

(** C5. When the list call is answered, the required scenarios are those
    of the Application whose optional label is not [false]: a scenario
    without the label is required, and so is one labelled [true]. *)
Theorem getRequiredIntegrationTestScenarios_not_false
    (a : Adapter.t) (app : Application.t) (w : World) :
  answers w →
  ∃ required w',
    getRequiredIntegrationTestScenariosForApplication a app w = (Ok required, w')
    ∧ (∀ sc, sc ∈ required →
         sc ∈ IntegrationTestScenarios (cluster w)
         ∧ IntegrationTestScenario.Namespace sc = Application.Namespace app
         ∧ IntegrationTestScenario.Spec_Application sc = Application.Name app)
    ∧ (∀ sc, sc ∈ IntegrationTestScenarios (cluster w) →
         IntegrationTestScenario.Namespace sc = Application.Namespace app →
         IntegrationTestScenario.Spec_Application sc = Application.Name app →
         (sc ∈ required ↔ IntegrationTestScenario.Labels sc !! optionalLabel ≠ Some "false")
         ∧ (IntegrationTestScenario.Labels sc !! optionalLabel = None → sc ∈ required)
         ∧ (IntegrationTestScenario.Labels sc !! optionalLabel = Some "true" → sc ∈ required)).
Proof.
  intros Ha. destruct (api_call_answers_quiet w Ha) as (w' & Hcall & Hc & _).
  unfold getRequiredIntegrationTestScenariosForApplication.
  change (labels.NewRequirement "test.appstudio.openshift.io/optional"
            selection.NotIn ["false"])
    with (Ok (labels.mkRequirement optionalLabel selection.NotIn ["false"])).
  cbv iota beta.
  unfold client.List_IntegrationTestScenarios. unfold_M. rewrite Hcall.
  eexists _, w'. split; [reflexivity|]. rewrite Hc.
  assert (∀ sc, sc ∈ IntegrationTestScenarios (cluster w) →
            IntegrationTestScenario.Namespace sc = Application.Namespace app →
            IntegrationTestScenario.Spec_Application sc = Application.Name app →
            IntegrationTestScenario.Labels sc !! optionalLabel ≠ Some "false" →
            sc ∈ filter
                   (λ x, IntegrationTestScenario.Namespace x = Application.Namespace app
                         ∧ IntegrationTestScenario.Spec_Application x = Application.Name app
                         ∧ labels.SelectorMatches
                             (labels.Add labels.NewSelector
                                (labels.mkRequirement optionalLabel
                                   selection.NotIn ["false"]))
                             (IntegrationTestScenario.Labels x) = true)
                   (IntegrationTestScenarios (cluster w))) as Hin.
  { intros sc Hsc Hns Happ Hlabel. apply list_elem_of_filter. split; [|done].
    split_and!; [done..|]. by apply optional_selector_matches. }
  split.
  - intros sc (( ? & ? & ?) & ?)%list_elem_of_filter. done.
  - intros sc Hsc Hns Happ. split_and!.
    + split; [|by apply Hin].
      intros ((_ & _ & Hsel) & _)%list_elem_of_filter.
      by apply optional_selector_matches.
    + intros Hnone. apply Hin; [done..|]. by rewrite Hnone.
    + intros Htrue. apply Hin; [done..|]. by rewrite Htrue.
Qed.

Lemma getRequiredIntegrationTestScenarios_not_false_witness :
  ∃ w', getRequiredIntegrationTestScenariosForApplication
          (Examples.adapter Examples.s1Late) Examples.app1 (Examples.world Examples.fresh)
        = (Ok [Examples.S1; Examples.S2], w').
Proof.
  destruct (getRequiredIntegrationTestScenarios_not_false
              (Examples.adapter Examples.s1Late) Examples.app1 (Examples.world Examples.fresh))
    as (required & w' & Hrun & _).
  - vm_compute. exact I.
  - exists w'. rewrite Hrun. revert Hrun. vm_compute. intros [= <- _]. reflexivity.
Defined.

(** *** prepareApplicationSnapshotForPipelineRun *)

Section Prepare.
Context {helpers : Tekton}.

Lemma prepare_loop_derived (p : PipelineRun.t) (comp : Component.t) (derived : string)
    (comps : list Component.t) (acc : list ApplicationSnapshotComponent.t) :
  getImagePullSpecFromPipelineRun p = Ok derived →
  prepare_loop p comp comps acc
  = Ok (acc ++ desiredComponents comps (Component.Name comp) derived).
Proof.
  intros Hspec. revert acc. induction comps as [|c comps IH]; intros acc; simpl.
  - by rewrite app_nil_r.
  - rewrite Hspec. case_bool_decide; rewrite IH, <- app_assoc; done.
Qed.

Lemma prepare_loop_underived (p : PipelineRun.t) (comp : Component.t) (e : error)
    (comps : list Component.t) (acc cs : list ApplicationSnapshotComponent.t) :
  getImagePullSpecFromPipelineRun p = Err e →
  prepare_loop p comp comps acc = Ok cs →
  (Component.Name comp ∉ map Component.Name comps)
  ∧ ∀ derived, cs = acc ++ desiredComponents comps (Component.Name comp) derived.
Proof.
  intros Hspec. revert acc. induction comps as [|c comps IH]; intros acc; simpl.
  - intros [= <-]. split; [apply not_elem_of_nil|]. intros _. by rewrite app_nil_r.
  - rewrite Hspec. case_bool_decide as Hname; [done|].
    intros [Hnot Hcs]%IH. split.
    + rewrite not_elem_of_cons. split; [congruence|done].
    + intros derived. by rewrite (Hcs derived), <- app_assoc.
Qed.

Lemma desiredComponents_names (comps : list Component.t) (triggering derived : string) :
  map ApplicationSnapshotComponent.Name (desiredComponents comps triggering derived)
  = map Component.Name comps.
Proof. unfold desiredComponents. rewrite map_map. done. Qed.

Lemma getAllApplicationComponents_answers (a : Adapter.t) (app : Application.t) (w : World) :
  answers w →
  ∃ w', getAllApplicationComponents a app w = (Ok (applicationComponents (cluster w) app), w')
        ∧ cluster w' = cluster w ∧ writes w' = writes w
        ∧ faults w' = tail (faults w) ∧ suffixes w' = suffixes w.
Proof.
  intros Ha. unfold getAllApplicationComponents, client.List_Components. unfold_M.
  destruct (api_call_answers w Ha) as [->|[Hnil ->]].
  - eexists. split; [reflexivity|]. done.
  - exists w. split; [reflexivity|]. by rewrite Hnil.
Qed.

(** C8. When the list of the Application's Components is answered, the
    snapshot that prepareApplicationSnapshotForPipelineRun returns has one
    entry per Component, in their order and under their names; every entry
    carries the image recorded for its Component, except the entry of the
    triggering Component, which carries the pull spec derived from the
    PipelineRun; and with a derivable pull spec the snapshot is returned. *)
Theorem prepareApplicationSnapshot_overlays
    (a : Adapter.t) (p : PipelineRun.t) (comp : Component.t) (app : Application.t)
    (w : World) :
  answers w →
  (∀ derived, getImagePullSpecFromPipelineRun p = Ok derived →
     ∃ s w', prepareApplicationSnapshotForPipelineRun a p comp app w = (Ok s, w')
             ∧ ApplicationSnapshot.Spec_Components s
               = desiredComponents (applicationComponents (cluster w) app)
                   (Component.Name comp) derived)
  ∧ (∀ s w', prepareApplicationSnapshotForPipelineRun a p comp app w = (Ok s, w') →
       map ApplicationSnapshotComponent.Name (ApplicationSnapshot.Spec_Components s)
       = map Component.Name (applicationComponents (cluster w) app)
       ∧ ∃ derived,
           ApplicationSnapshot.Spec_Components s
           = desiredComponents (applicationComponents (cluster w) app)
               (Component.Name comp) derived
           ∧ (Component.Name comp ∈ map Component.Name (applicationComponents (cluster w) app) →
              getImagePullSpecFromPipelineRun p = Ok derived)).
Proof.
  intros Ha. destruct (getAllApplicationComponents_answers a app w Ha) as (w1 & Hlist & _).
  unfold prepareApplicationSnapshotForPipelineRun. rewrite Hlist. split.
  - intros derived Hspec. rewrite (prepare_loop_derived _ _ derived) by done.
    eexists _, w1. split; [reflexivity|]. done.
  - intros s w'.
    destruct (getImagePullSpecFromPipelineRun p) as [derived|e] eqn:Hspec.
    + rewrite (prepare_loop_derived _ _ derived) by done. intros [= <- <-]. simpl.
      split; [apply desiredComponents_names|]. by exists derived.
    + destruct (prepare_loop p comp (applicationComponents (cluster w) app) [])
        as [cs|e'] eqn:Hloop; [|done].
      intros [= <- <-]. simpl.
      destruct (prepare_loop_underived _ _ _ _ _ _ Hspec Hloop) as [Hnot Hcs].
      split.
      * rewrite (Hcs ""). apply desiredComponents_names.
      * exists "". split; [apply (Hcs "")|]. done.
Qed.

End Prepare.

Lemma prepareApplicationSnapshot_overlays_witness :
  ∃ s w',
    @prepareApplicationSnapshotForPipelineRun tekton_helpers
      (Examples.adapter Examples.buildRun) Examples.buildRun Examples.componentA Examples.app1
      (Examples.world Examples.fresh) = (Ok s, w')
    ∧ ApplicationSnapshot.Spec_Components s
      = [ApplicationSnapshotComponent.mk "A" "localhost@sha256:0a1b";
         ApplicationSnapshotComponent.mk "B" "r/b@sha2"].
Proof.
  destruct (@prepareApplicationSnapshot_overlays tekton_helpers
              (Examples.adapter Examples.buildRun) Examples.buildRun Examples.componentA
              Examples.app1 (Examples.world Examples.fresh)) as [H _].
  - vm_compute. exact I.
  - apply (H "localhost@sha256:0a1b"). vm_compute. reflexivity.
Defined.

(** *** The operations that only read *)

Lemma getApplicationSnapshotFromPipelineRun_quiet (a : Adapter.t) (p : PipelineRun.t)
    (pipelineType : string) :
  quiet (getApplicationSnapshotFromPipelineRun a p pipelineType).
Proof.
  unfold getApplicationSnapshotFromPipelineRun.
  destruct (PipelineRun.Labels p !! _); auto with quiet.
Qed.

Lemma find_is_snapshot (namespace name : string) (l : list ApplicationSnapshot.t)
    (s : ApplicationSnapshot.t) :
  find (client.is_snapshot namespace name) l = Some s →
  find (client.is_snapshot (ApplicationSnapshot.Namespace s) (ApplicationSnapshot.Name s)) l
  = Some s.
Proof.
  intros H. destruct (find_some _ _ H) as [_ Hs].
  unfold client.is_snapshot in Hs. apply bool_decide_eq_true in Hs as [-> ->]. done.
Qed.

Lemma getApplicationSnapshotFromPipelineRun_found (a : Adapter.t) (p : PipelineRun.t)
    (pipelineType : string) (w w1 : World) (snapshot : ApplicationSnapshot.t) :
  getApplicationSnapshotFromPipelineRun a p pipelineType w = (Ok snapshot, w1) →
  find (client.is_snapshot (ApplicationSnapshot.Namespace snapshot)
          (ApplicationSnapshot.Name snapshot)) (ApplicationSnapshots (cluster w))
  = Some snapshot.
Proof.
  unfold getApplicationSnapshotFromPipelineRun.
  destruct (PipelineRun.Labels p !! _) as [name|]; [|done].
  unfold client.Get_ApplicationSnapshot. unfold_M.
  destruct (api_call w) as [[[]|e] w0] eqn:Hcall; [|done].
  destruct (api_call_quiet _ _ _ Hcall) as [Hc _]. rewrite Hc.
  destruct (find _ _) as [s|] eqn:Hfind; [|done].
  intros [= <- <-]. by apply find_is_snapshot in Hfind.
Qed.

Lemma getRequiredIntegrationTestScenarios_quiet (a : Adapter.t) (app : Application.t) :
  quiet (getRequiredIntegrationTestScenariosForApplication a app).
Proof.
  unfold getRequiredIntegrationTestScenariosForApplication.
  destruct (labels.NewRequirement _ _ _); auto with quiet.
Qed.

Lemma getLatestPipelineRun_quiet (a : Adapter.t) (s : ApplicationSnapshot.t)
    (sc : IntegrationTestScenario.t) :
  quiet (getLatestPipelineRunForApplicationSnapshotAndScenario a s sc).
Proof.
  unfold getLatestPipelineRunForApplicationSnapshotAndScenario. auto with quiet.
Qed.

Lemma getAll_loop_quiet (a : Adapter.t) (s : ApplicationSnapshot.t)
    (scs : list IntegrationTestScenario.t) (acc : list PipelineRun.t) :
  quiet (getAll_loop a s scs acc).
Proof.
  revert acc. induction scs as [|sc scs IH]; intros acc; simpl; [auto with quiet|].
  destruct (negb _); [|apply IH].
  apply quiet_bind; [apply getLatestPipelineRun_quiet|].
  intros [p|]; apply IH.
Qed.

Lemma getAllPipelineRuns_quiet (a : Adapter.t) (s : ApplicationSnapshot.t)
    (scs : list IntegrationTestScenario.t) :
  quiet (getAllPipelineRunsForApplicationSnapshot a s scs).
Proof. apply getAll_loop_quiet. Qed.

(** *** The status writes *)

Lemma cons_neq_self {A} (x : A) (l : list A) : l ≠ x :: l.
Proof.
  intros H. apply (f_equal length) in H. simpl in H. lia.
Qed.

Lemma Status_Update_PipelineRun_writes (p : PipelineRun.t) (w : World) r (w' : World) :
  client.Status_Update_PipelineRun p w = (r, w') →
  writes w' = writes w ∨ ∃ updated, writes w' = UpdatePipelineRunStatus updated :: writes w.
Proof.
  unfold client.Status_Update_PipelineRun. unfold_M.
  destruct (api_call w) as [[[]|e] w0] eqn:Hcall;
    destruct (api_call_quiet _ _ _ Hcall) as [Hc Hw].
  - destruct (find _ _) as [stored|].
    + intros [= <- <-]. right. simpl. rewrite Hw. eauto.
    + intros [= <- <-]. by left.
  - intros [= <- <-]. by left.
Qed.

Lemma requeueOnErrorOrStop_updateStatus_writes (a : Adapter.t) (w : World)
    (r : results.OperationResult) (w' : World) :
  requeueOnErrorOrStop_updateStatus a w = (r, w') →
  (∃ err, r = results.RequeueOnErrorOrStop err)
  ∧ (writes w' = writes w ∨ ∃ updated, writes w' = UpdatePipelineRunStatus updated :: writes w).
Proof.
  unfold requeueOnErrorOrStop_updateStatus, updateStatus.
  destruct (client.Status_Update_PipelineRun _ w) as [[[]|e] w0] eqn:Hup;
    intros [= <- <-]; (split; [eauto|]);
    by apply Status_Update_PipelineRun_writes in Hup.
Qed.

Lemma requeueOnErrorOrStop_updateStatus_no_patch (a : Adapter.t) (w : World)
    (s : ApplicationSnapshot.t) :
  PatchSnapshotStatus s ∈ writes (snd (requeueOnErrorOrStop_updateStatus a w)) →
  PatchSnapshotStatus s ∈ writes w.
Proof.
  destruct (requeueOnErrorOrStop_updateStatus a w) as [r w'] eqn:E.
  apply requeueOnErrorOrStop_updateStatus_writes in E as [_ [Hw| [u Hw]]];
    simpl; rewrite Hw; [done|].
  intros [Hs|Hs]%elem_of_cons; [done|done].
Qed.

Lemma replace_first_elem {A} (p : A → bool) (new : A) (l : list A) (x : A) :
  find p l = Some x → new ∈ client.replace_first p new l.
Proof.
  induction l as [|y l IH]; simpl; [done|].
  destruct (p y); [intros _; apply list_elem_of_here|].
  intros H. apply list_elem_of_further. by apply IH.
Qed.

Lemma find_replace_first {A} (p : A → bool) (new : A) (l : list A) (x : A) :
  find p l = Some x → p new = true → find p (client.replace_first p new l) = Some new.
Proof.
  intros Hfind Hnew. induction l as [|y l IH]; simpl in *; [done|].
  destruct (p y) eqn:Hy; simpl.
  - by rewrite Hnew.
  - rewrite Hy. by apply IH.
Qed.

Lemma FindStatusCondition_SetStatusCondition (l : list metav1.Condition.t)
    (c : metav1.Condition.t) :
  ∃ c', meta.FindStatusCondition (meta.SetStatusCondition l c) (metav1.Condition.Type_ c)
        = Some c'
        ∧ metav1.Condition.Status c' = metav1.Condition.Status c
        ∧ metav1.Condition.Reason c' = metav1.Condition.Reason c.
Proof.
  unfold meta.FindStatusCondition.
  induction l as [|x l IH]; simpl.
  - rewrite bool_decide_eq_true_2 by done. by exists c.
  - case_bool_decide as Hx; simpl.
    + rewrite bool_decide_eq_true_2 by done. eexists. split; [reflexivity|]. done.
    + rewrite bool_decide_eq_false_2 by done. apply IH.
Qed.

Lemma Status_Patch_sets (snapshot : ApplicationSnapshot.t) (c : metav1.Condition.t)
    (w : World) :
  find (client.is_snapshot (ApplicationSnapshot.Namespace snapshot)
          (ApplicationSnapshot.Name snapshot)) (ApplicationSnapshots (cluster w))
  = Some snapshot →
  (∃ e w', client.Status_Patch_ApplicationSnapshot
             (client.with_conditions snapshot
                (meta.SetStatusCondition (ApplicationSnapshot.Status_Conditions snapshot) c))
             snapshot w = (Err e, w')
           ∧ writes w' = writes w ∧ ¬ answers w)
  ∨ (∃ s w', client.Status_Patch_ApplicationSnapshot
               (client.with_conditions snapshot
                  (meta.SetStatusCondition (ApplicationSnapshot.Status_Conditions snapshot) c))
               snapshot w = (Ok s, w')
             ∧ writes w' = PatchSnapshotStatus s :: writes w
             ∧ s = client.with_conditions snapshot
                     (meta.SetStatusCondition (ApplicationSnapshot.Status_Conditions snapshot) c)
             ∧ find (client.is_snapshot (ApplicationSnapshot.Namespace snapshot)
                       (ApplicationSnapshot.Name snapshot)) (ApplicationSnapshots (cluster w'))
               = Some s
             ∧ s ∈ ApplicationSnapshots (cluster w')).
Proof.
  intros Hfind. unfold client.Status_Patch_ApplicationSnapshot. unfold_M.
  destruct (api_call w) as [[[]|e] w0] eqn:Hcall;
    destruct (api_call_quiet _ _ _ Hcall) as [Hc Hw].
  - right. cbn [client.with_conditions ApplicationSnapshot.Namespace ApplicationSnapshot.Name
                ApplicationSnapshot.Status_Conditions].
    rewrite Hc, Hfind. eexists _, _. split; [reflexivity|]. simpl. split_and!.
    + by rewrite Hw.
    + case_bool_decide as Heq; [|done]. rewrite Heq. by destruct snapshot.
    + rewrite Hc. eapply find_replace_first; [done|].
      unfold client.is_snapshot. apply bool_decide_eq_true.
      by case_bool_decide.
    + rewrite Hc. by eapply replace_first_elem.
  - left. eexists _, _. split; [reflexivity|]. split; [done|].
    unfold answers, api_call in *. destruct (faults w) as [|[?|] ?]; simplify_eq; auto.
Qed.

Lemma verdict_of_conditions (s : ApplicationSnapshot.t) (l : list metav1.Condition.t)
    (c : metav1.Condition.t) :
  metav1.Condition.Type_ c = "HACBSTestSucceeded" →
  ApplicationSnapshot.Status_Conditions s = meta.SetStatusCondition l c →
  verdict s = Some (metav1.Condition.Status c, metav1.Condition.Reason c).
Proof.
  intros Htype Hconds. unfold verdict. rewrite Hconds, <- Htype.
  destruct (FindStatusCondition_SetStatusCondition l c) as (c' & -> & -> & ->). done.
Qed.

(** *** EnsureApplicationSnapshotPassedAllTests *)

Section Tests.
Context {decoder : JsonDecoder} {helpers : Tekton}.

Lemma determine_loop_spec (prs : list PipelineRun.t) (b : bool) :
  match determine_loop prs b with
  | (r, None) =>
      (r = true ↔ b = true ∧ ∀ p, p ∈ prs → calculateIntegrationPipelineRunOutcome p = (true, None))
      ∧ ∀ p, p ∈ prs → snd (calculateIntegrationPipelineRunOutcome p) = None
  | (r, Some e) => ∃ p, p ∈ prs ∧ snd (calculateIntegrationPipelineRunOutcome p) = Some e
  end.
Proof.
  revert b. induction prs as [|p prs IH]; intros b; simpl.
  - split.
    + split; [intros ->; split; [done|]|by intros [-> _]].
      intros p Hp. by apply elem_of_nil in Hp.
    + intros p Hp. by apply elem_of_nil in Hp.
  - destruct (calculateIntegrationPipelineRunOutcome p) as [outcome [e|]] eqn:Hp.
    + exists p. split; [apply list_elem_of_here|]. by rewrite Hp.
    + specialize (IH (if negb outcome then false else b)).
      destruct (determine_loop prs _) as [r [e|]].
      * destruct IH as (q & Hq & He). exists q. split; [by apply list_elem_of_further|done].
      * destruct IH as [Hr Hnone]. split.
        -- rewrite Hr. split.
           ++ intros [Hb Hall]. destruct outcome; [|done]. split; [done|].
              intros q [->|Hq]%elem_of_cons; [done|by apply Hall].
           ++ intros [-> Hall]. pose proof (Hall p (list_elem_of_here _ _)) as Hp'.
              rewrite Hp in Hp'. injection Hp' as ->. split; [done|].
              intros q Hq. apply Hall. by apply list_elem_of_further.
        -- intros q [->|Hq]%elem_of_cons; [by rewrite Hp|by apply Hnone].
Qed.

(** The part of EnsureApplicationSnapshotPassedAllTests after its reads. *)
Lemma EnsureApplicationSnapshotPassedAllTests_after_reads
    (a : Adapter.t) (w w1 w2 w3 : World) (pipelineType : string)
    (snapshot : ApplicationSnapshot.t) (scs : list IntegrationTestScenario.t)
    (prs : list PipelineRun.t) :
  IsIntegrationPipelineRun (Adapter.pipelineRun a) = true →
  GetTypeFromPipelineRun (Adapter.pipelineRun a) = Ok pipelineType →
  getApplicationSnapshotFromPipelineRun a (Adapter.pipelineRun a) pipelineType w
  = (Ok snapshot, w1) →
  getRequiredIntegrationTestScenariosForApplication a (Adapter.application a) w1
  = (Ok scs, w2) →
  getAllPipelineRunsForApplicationSnapshot a snapshot scs w2 = (Ok prs, w3) →
  (cluster w3 = cluster w ∧ writes w3 = writes w)
  ∧ EnsureApplicationSnapshotPassedAllTests a w =
    if negb (bool_decide (length scs = length prs)) then (results.ContinueProcessing, w3)
    else
      match determineIfAllIntegrationPipelinesPassed prs with
      | (_, Some err) => requeueOnErrorOrStop_updateStatus a w3
      | (allPassed, None) =>
          if allPassed then
            match markSnapshotAsPassed a snapshot "All Integration Pipeline tests passed" w3 with
            | (Err err, w4) => requeueOnErrorOrStop_updateStatus a w4
            | (Ok _, w4) => (results.ContinueProcessing, w4)
            end
          else
            match markSnapshotAsFailed a snapshot "Some Integration pipeline tests failed" w3 with
            | (Err err, w4) => requeueOnErrorOrStop_updateStatus a w4
            | (Ok _, w4) => (results.ContinueProcessing, w4)
            end
      end.
Proof.
  intros Hkind Htype Hsnap Hscs Hprs. split.
  - destruct (getApplicationSnapshotFromPipelineRun_quiet _ _ _ _ _ _ Hsnap) as [C1 W1].
    destruct (getRequiredIntegrationTestScenarios_quiet _ _ _ _ _ Hscs) as [C2 W2].
    destruct (getAllPipelineRuns_quiet _ _ _ _ _ _ Hprs) as [C3 W3].
    split; congruence.
  - unfold EnsureApplicationSnapshotPassedAllTests.
    rewrite Hkind, Htype. cbn [negb]. by rewrite Hsnap, Hscs, Hprs.
Qed.

(** What a mark operation leaves behind, for either verdict. *)
Lemma mark_writes (snapshot : ApplicationSnapshot.t) (c : metav1.Condition.t) (w : World)
    (a : Adapter.t) :
  metav1.Condition.Type_ c = "HACBSTestSucceeded" →
  find (client.is_snapshot (ApplicationSnapshot.Namespace snapshot)
          (ApplicationSnapshot.Name snapshot)) (ApplicationSnapshots (cluster w))
  = Some snapshot →
  let run :=
    match client.Status_Patch_ApplicationSnapshot
            (client.with_conditions snapshot
               (meta.SetStatusCondition (ApplicationSnapshot.Status_Conditions snapshot) c))
            snapshot w with
    | (Err err, w4) => requeueOnErrorOrStop_updateStatus a w4
    | (Ok _, w4) => (results.ContinueProcessing, w4)
    end in
  (∀ s, PatchSnapshotStatus s ∈ writes (snd run) → PatchSnapshotStatus s ∉ writes w →
     s = client.with_conditions snapshot (ApplicationSnapshot.Status_Conditions s)
     ∧ verdict s = Some (metav1.Condition.Status c, metav1.Condition.Reason c))
  ∧ (answers w →
     ∃ s w', run = (results.ContinueProcessing, w')
             ∧ writes w' = PatchSnapshotStatus s :: writes w
             ∧ find (client.is_snapshot (ApplicationSnapshot.Namespace snapshot)
                       (ApplicationSnapshot.Name snapshot)) (ApplicationSnapshots (cluster w'))
               = Some s
             ∧ s ∈ ApplicationSnapshots (cluster w')).
Proof.
  intros Htype Hfind run. subst run.
  destruct (Status_Patch_sets snapshot c w Hfind)
    as [(e & w' & -> & Hw & Hna)|(s & w' & -> & Hw & Hs & Hstored & Hin)].
  - split; [|done]. intros s Hs Hnot.
    apply requeueOnErrorOrStop_updateStatus_no_patch in Hs. rewrite Hw in Hs. done.
  - split.
    + intros s' Hs' Hnot. simpl in Hs'. rewrite Hw in Hs'.
      apply elem_of_cons in Hs' as [[= ->]|Hs']; [|done].
      split; [by rewrite Hs|].
      eapply verdict_of_conditions; [done|]. by rewrite Hs.
    + intros _. by exists s, w'.
Qed.

(** C1. Whatever verdict EnsureApplicationSnapshotPassedAllTests writes
    for the runs it resolved, it writes to the Snapshot that it found for
    the PipelineRun: the patched object has that Snapshot's namespace and
    name and differs from it in its conditions only. The verdict is status
    True with reason Passed exactly when the outcome of every resolved run
    is [(true, nil)], and status False with reason Failed otherwise; and
    one is written, and is then what the cluster stores under that
    Snapshot's namespace and name, when no outcome computation returns an
    error and the patch is answered. *)
Theorem verdict_is_reduction_of_outcomes
    (a : Adapter.t) (w w1 w2 w3 : World) (pipelineType : string)
    (snapshot : ApplicationSnapshot.t) (scs : list IntegrationTestScenario.t)
    (prs : list PipelineRun.t) :
  IsIntegrationPipelineRun (Adapter.pipelineRun a) = true →
  GetTypeFromPipelineRun (Adapter.pipelineRun a) = Ok pipelineType →
  getApplicationSnapshotFromPipelineRun a (Adapter.pipelineRun a) pipelineType w
  = (Ok snapshot, w1) →
  getRequiredIntegrationTestScenariosForApplication a (Adapter.application a) w1
  = (Ok scs, w2) →
  getAllPipelineRunsForApplicationSnapshot a snapshot scs w2 = (Ok prs, w3) →
  length scs = length prs →
  (∀ s, PatchSnapshotStatus s ∈ writes (snd (EnsureApplicationSnapshotPassedAllTests a w)) →
        PatchSnapshotStatus s ∉ writes w →
        ApplicationSnapshot.Namespace s = ApplicationSnapshot.Namespace snapshot
        ∧ ApplicationSnapshot.Name s = ApplicationSnapshot.Name snapshot
        ∧ s = client.with_conditions snapshot (ApplicationSnapshot.Status_Conditions s)
        ∧ (verdict s = Some ("True", "Passed")
           ↔ ∀ p, p ∈ prs → calculateIntegrationPipelineRunOutcome p = (true, None))
        ∧ (¬ (∀ p, p ∈ prs → calculateIntegrationPipelineRunOutcome p = (true, None)) →
           verdict s = Some ("False", "Failed")))
  ∧ ((∀ p, p ∈ prs → snd (calculateIntegrationPipelineRunOutcome p) = None) →
     answers w3 →
     ∃ s w', EnsureApplicationSnapshotPassedAllTests a w = (results.ContinueProcessing, w')
             ∧ writes w' = PatchSnapshotStatus s :: writes w
             ∧ find (client.is_snapshot (ApplicationSnapshot.Namespace snapshot)
                       (ApplicationSnapshot.Name snapshot)) (ApplicationSnapshots (cluster w'))
               = Some s
             ∧ s ∈ ApplicationSnapshots (cluster w')).
Proof.
  intros Hkind Htype Hsnap Hscs Hprs Hlen.
  destruct (EnsureApplicationSnapshotPassedAllTests_after_reads
              a w w1 w2 w3 pipelineType snapshot scs prs Hkind Htype Hsnap Hscs Hprs)
    as [[Hc Hw] ->].
  rewrite (bool_decide_eq_true_2 _ Hlen). cbn [negb].
  pose proof (getApplicationSnapshotFromPipelineRun_found _ _ _ _ _ _ Hsnap) as Hfind.
  rewrite <- Hc in Hfind. rewrite <- Hw.
  pose proof (determine_loop_spec prs true) as Hdet.
  unfold determineIfAllIntegrationPipelinesPassed.
  destruct (determine_loop prs true) as [allPassed [e|]].
  - destruct Hdet as (q & Hq & He). split.
    + intros s Hs Hnot. by apply requeueOnErrorOrStop_updateStatus_no_patch in Hs.
    + intros Hnone. rewrite (Hnone q Hq) in He. done.
  - destruct Hdet as [Hall _]. destruct allPassed.
    + destruct (proj1 Hall eq_refl) as [_ Hpassed].
      destruct (mark_writes snapshot
                  (passedCondition "All Integration Pipeline tests passed") w3
                  a eq_refl Hfind)
        as [Hverdict Hwritten].
      unfold markSnapshotAsPassed. split.
      * intros s Hs Hnot. destruct (Hverdict s Hs Hnot) as [Hsame ->].
        split_and!; [by rewrite Hsame..|done| |by intros []]. done.
      * intros _ Ha. by apply Hwritten.
    + assert (¬ (∀ p, p ∈ prs → calculateIntegrationPipelineRunOutcome p = (true, None)))
        as Hnot_passed.
      { intros Hpassed. discriminate (proj2 Hall (conj eq_refl Hpassed)). }
      destruct (mark_writes snapshot
                  (failedCondition "Some Integration pipeline tests failed") w3
                  a eq_refl Hfind)
        as [Hverdict Hwritten].
      unfold markSnapshotAsFailed. split.
      * intros s Hs Hnot. destruct (Hverdict s Hs Hnot) as [Hsame ->].
        split_and!; [by rewrite Hsame..|done| |done].
        split; [done|]. intros Hpassed. by destruct Hnot_passed.
      * intros _ Ha. by apply Hwritten.
Qed.

(** C3. A verdict is written only when as many PipelineRuns were resolved
    as scenarios are required; with different counts the operation returns
    Continue and the cluster and the history of writes are as before. *)
Theorem verdict_only_when_complete (a : Adapter.t) (w : World) :
  (∀ s, PatchSnapshotStatus s ∈ writes (snd (EnsureApplicationSnapshotPassedAllTests a w)) →
        PatchSnapshotStatus s ∉ writes w →
        ∃ pipelineType snapshot scs prs w1 w2 w3,
          GetTypeFromPipelineRun (Adapter.pipelineRun a) = Ok pipelineType
          ∧ getApplicationSnapshotFromPipelineRun a (Adapter.pipelineRun a) pipelineType w
            = (Ok snapshot, w1)
          ∧ getRequiredIntegrationTestScenariosForApplication a (Adapter.application a) w1
            = (Ok scs, w2)
          ∧ getAllPipelineRunsForApplicationSnapshot a snapshot scs w2 = (Ok prs, w3)
          ∧ length prs = length scs)
  ∧ (∀ pipelineType snapshot scs prs w1 w2 w3,
       IsIntegrationPipelineRun (Adapter.pipelineRun a) = true →
       GetTypeFromPipelineRun (Adapter.pipelineRun a) = Ok pipelineType →
       getApplicationSnapshotFromPipelineRun a (Adapter.pipelineRun a) pipelineType w
       = (Ok snapshot, w1) →
       getRequiredIntegrationTestScenariosForApplication a (Adapter.application a) w1
       = (Ok scs, w2) →
       getAllPipelineRunsForApplicationSnapshot a snapshot scs w2 = (Ok prs, w3) →
       length prs ≠ length scs →
       EnsureApplicationSnapshotPassedAllTests a w = (results.ContinueProcessing, w3)
       ∧ cluster w3 = cluster w ∧ writes w3 = writes w).
Proof.
  split.
  - intros s Hs Hnot.
    destruct (IsIntegrationPipelineRun (Adapter.pipelineRun a)) eqn:Hkind; cycle 1.
    { unfold EnsureApplicationSnapshotPassedAllTests in Hs. by rewrite Hkind in Hs. }
    destruct (GetTypeFromPipelineRun (Adapter.pipelineRun a)) as [pipelineType|e] eqn:Htype;
      cycle 1.
    { unfold EnsureApplicationSnapshotPassedAllTests in Hs. by rewrite Hkind, Htype in Hs. }
    destruct (getApplicationSnapshotFromPipelineRun a (Adapter.pipelineRun a) pipelineType w)
      as [[snapshot|e] w1] eqn:Hsnap; cycle 1.
    { unfold EnsureApplicationSnapshotPassedAllTests in Hs.
      rewrite Hkind, Htype, Hsnap in Hs. simpl in Hs.
      destruct (getApplicationSnapshotFromPipelineRun_quiet _ _ _ _ _ _ Hsnap) as [_ W1].
      by rewrite W1 in Hs. }
    destruct (getRequiredIntegrationTestScenariosForApplication a (Adapter.application a) w1)
      as [[scs|e] w2] eqn:Hscs; cycle 1.
    { unfold EnsureApplicationSnapshotPassedAllTests in Hs.
      rewrite Hkind, Htype, Hsnap, Hscs in Hs. simpl in Hs.
      destruct (getApplicationSnapshotFromPipelineRun_quiet _ _ _ _ _ _ Hsnap) as [_ W1].
      destruct (getRequiredIntegrationTestScenarios_quiet _ _ _ _ _ Hscs) as [_ W2].
      rewrite W2, W1 in Hs. done. }
    destruct (getAllPipelineRunsForApplicationSnapshot a snapshot scs w2)
      as [[prs|e] w3] eqn:Hprs; cycle 1.
    { unfold EnsureApplicationSnapshotPassedAllTests in Hs.
      rewrite Hkind, Htype, Hsnap, Hscs, Hprs in Hs. cbn [negb] in Hs.
      apply requeueOnErrorOrStop_updateStatus_no_patch in Hs.
      destruct (getApplicationSnapshotFromPipelineRun_quiet _ _ _ _ _ _ Hsnap) as [_ W1].
      destruct (getRequiredIntegrationTestScenarios_quiet _ _ _ _ _ Hscs) as [_ W2].
      destruct (getAllPipelineRuns_quiet _ _ _ _ _ _ Hprs) as [_ W3].
      rewrite W3, W2, W1 in Hs. done. }
    exists pipelineType, snapshot, scs, prs, w1, w2, w3. split_and!; [done..|].
    destruct (EnsureApplicationSnapshotPassedAllTests_after_reads
                a w w1 w2 w3 pipelineType snapshot scs prs Hkind Htype Hsnap Hscs Hprs)
      as [[Hc Hw] Hrun].
    rewrite Hrun in Hs.
    destruct (decide (length scs = length prs)) as [Hlen|Hlen]; [done|].
    rewrite (bool_decide_eq_false_2 _ Hlen) in Hs. simpl in Hs. by rewrite Hw in Hs.
  - intros pipelineType snapshot scs prs w1 w2 w3 Hkind Htype Hsnap Hscs Hprs Hlen.
    destruct (EnsureApplicationSnapshotPassedAllTests_after_reads
                a w w1 w2 w3 pipelineType snapshot scs prs Hkind Htype Hsnap Hscs Hprs)
      as [[Hc Hw] ->].
    rewrite bool_decide_eq_false_2 by congruence. done.
Qed.

(** C9, amended. For a test PipelineRun without the snapshot label
    EnsureApplicationSnapshotPassedAllTests returns RequeueWithError with the
    error of the missing snapshot; it calls the API server not once and so
    writes no status. *)
Theorem missing_snapshot_label_is_requeued (a : Adapter.t) (w : World) (pipelineType : string) :
  IsIntegrationPipelineRun (Adapter.pipelineRun a) = true →
  GetTypeFromPipelineRun (Adapter.pipelineRun a) = Ok pipelineType →
  PipelineRun.Labels (Adapter.pipelineRun a)
    !! (pipelineType +:+ ".appstudio.openshift.io/snapshot") = None →
  EnsureApplicationSnapshotPassedAllTests a w
  = (results.RequeueWithError "the pipeline has no snapshot associated with it", w).
Proof.
  intros Hkind Htype Hlabel. unfold EnsureApplicationSnapshotPassedAllTests.
  rewrite Hkind, Htype. cbn [negb].
  unfold getApplicationSnapshotFromPipelineRun. by rewrite Hlabel.
Qed.

End Tests.

(** *** EnsureApplicationSnapshotExists *)

Section Exists.
Context {helpers : Tekton}.

Lemma api_call_reliable (w : World) : faults w = [] → api_call w = (Ok tt, w).
Proof. unfold api_call. by intros ->. Qed.

Lemma prepareApplicationSnapshot_result (a : Adapter.t) (p : PipelineRun.t)
    (comp : Component.t) (app : Application.t) (w : World) r (w' : World) :
  prepareApplicationSnapshotForPipelineRun a p comp app w = (r, w') →
  cluster w' = cluster w ∧ writes w' = writes w
  ∧ ∀ s, r = Ok s →
      ∃ cs, prepare_loop p comp (applicationComponents (cluster w) app) [] = Ok cs
            ∧ s = preparedSnapshot a app cs.
Proof.
  unfold prepareApplicationSnapshotForPipelineRun, getAllApplicationComponents,
    client.List_Components. unfold_M.
  destruct (api_call w) as [[[]|e] w0] eqn:Hcall;
    destruct (api_call_quiet _ _ _ Hcall) as [Hc Hw].
  - rewrite Hc. fold (applicationComponents (cluster w) app).
    destruct (prepare_loop _ _ _ _) as [cs|e]; intros [= <- <-]; split_and!; try done.
    intros s [= <-]. by exists cs.
  - intros [= <- <-]. done.
Qed.

Lemma prepareApplicationSnapshot_reliable (a : Adapter.t) (p : PipelineRun.t)
    (comp : Component.t) (app : Application.t) (w : World) :
  faults w = [] →
  prepareApplicationSnapshotForPipelineRun a p comp app w =
  (match prepare_loop p comp (applicationComponents (cluster w) app) [] with
   | Ok cs => Ok (preparedSnapshot a app cs)
   | Err e => Err e
   end, w).
Proof.
  intros Hf.
  unfold prepareApplicationSnapshotForPipelineRun, getAllApplicationComponents,
    client.List_Components. unfold_M.
  rewrite (api_call_reliable w Hf). fold (applicationComponents (cluster w) app).
  by destruct (prepare_loop _ _ _ _).
Qed.

Lemma findMatchingApplicationSnapshot_result (a : Adapter.t) (w : World) r (w' : World) :
  findMatchingApplicationSnapshot a w = (r, w') →
  cluster w' = cluster w ∧ writes w' = writes w
  ∧ ∀ found, r = Ok found →
      ∃ cs, prepare_loop (Adapter.pipelineRun a) (Adapter.component a)
              (applicationComponents (cluster w) (Adapter.application a)) [] = Ok cs
            ∧ found = range_until (matches (preparedSnapshot a (Adapter.application a) cs))
                        (applicationSnapshots (cluster w) (Adapter.application a)).
Proof.
  unfold findMatchingApplicationSnapshot. unfold mbind, M_bind at 1.
  destruct (prepareApplicationSnapshotForPipelineRun a _ _ _ w) as [[expected|e] w0] eqn:Hprep;
    destruct (prepareApplicationSnapshot_result _ _ _ _ _ _ _ Hprep) as (Hc0 & Hw0 & Hexp).
  - destruct (Hexp expected eq_refl) as (cs & Hcs & ->).
    unfold getAllApplicationSnapshots, client.List_ApplicationSnapshots. unfold_M.
    destruct (api_call w0) as [[[]|e] w1] eqn:Hcall;
      destruct (api_call_quiet _ _ _ Hcall) as [Hc Hw].
    + intros [= <- <-]. split_and!; [congruence..|].
      intros found [= <-]. exists cs. split; [done|]. by rewrite Hc, Hc0.
    + intros [= <- <-]. split_and!; [congruence..|done].
  - intros [= <- <-]. done.
Qed.

Lemma findMatchingApplicationSnapshot_reliable (a : Adapter.t) (w : World) :
  faults w = [] →
  findMatchingApplicationSnapshot a w =
  (match prepare_loop (Adapter.pipelineRun a) (Adapter.component a)
           (applicationComponents (cluster w) (Adapter.application a)) [] with
   | Ok cs => Ok (range_until (matches (preparedSnapshot a (Adapter.application a) cs))
                    (applicationSnapshots (cluster w) (Adapter.application a)))
   | Err e => Err e
   end, w).
Proof.
  intros Hf. unfold findMatchingApplicationSnapshot. unfold mbind, M_bind at 1.
  rewrite (prepareApplicationSnapshot_reliable _ _ _ _ _ Hf).
  destruct (prepare_loop _ _ _ _) as [cs|e]; [|done].
  unfold getAllApplicationSnapshots, client.List_ApplicationSnapshots. unfold_M.
  by rewrite (api_call_reliable w Hf).
Qed.

Lemma Create_ApplicationSnapshot_result (obj : ApplicationSnapshot.t) (w : World) r
    (w' : World) :
  client.Create_ApplicationSnapshot obj w = (r, w') →
  (∃ e, r = Err e ∧ writes w' = writes w ∧ cluster w' = cluster w)
  ∨ (∃ s, r = Ok s
          ∧ writes w' = CreateSnapshot s :: writes w
          ∧ ApplicationSnapshots (cluster w') = ApplicationSnapshots (cluster w) ++ [s]
          ∧ Components (cluster w') = Components (cluster w)
          ∧ ApplicationSnapshot.Spec_Components s = ApplicationSnapshot.Spec_Components obj
          ∧ ApplicationSnapshot.Namespace s = ApplicationSnapshot.Namespace obj
          ∧ ApplicationSnapshot.Spec_Application s = ApplicationSnapshot.Spec_Application obj).
Proof.
  unfold client.Create_ApplicationSnapshot. unfold_M.
  destruct (api_call w) as [[[]|e] w0] eqn:Hcall;
    destruct (api_call_quiet _ _ _ Hcall) as [Hc Hw]; cycle 1.
  { intros [= <- <-]. left. eauto. }
  destruct (suffixes w0) as [|suffix rest]; simpl;
    (destruct (find _ _) as [taken|];
     [intros [= <- <-]; left; eauto
     |intros [= <- <-]; right; eexists; split; [reflexivity|]; simpl;
      rewrite ?Hc, ?Hw; done]).
Qed.

(** What a run that created a snapshot went through. *)
Lemma EnsureApplicationSnapshotExists_created (a : Adapter.t) (w : World)
    (s : ApplicationSnapshot.t) :
  writes (snd (EnsureApplicationSnapshotExists a w)) = CreateSnapshot s :: writes w →
  IsBuildPipelineRun (Adapter.pipelineRun a) = true
  ∧ ∃ cs, prepare_loop (Adapter.pipelineRun a) (Adapter.component a)
            (applicationComponents (cluster w) (Adapter.application a)) [] = Ok cs
          ∧ range_until (matches (preparedSnapshot a (Adapter.application a) cs))
              (applicationSnapshots (cluster w) (Adapter.application a)) = None
          ∧ ApplicationSnapshot.Spec_Components s = cs
          ∧ ApplicationSnapshot.Namespace s = Application.Namespace (Adapter.application a)
          ∧ ApplicationSnapshot.Spec_Application s = Application.Name (Adapter.application a)
          ∧ ApplicationSnapshots (cluster (snd (EnsureApplicationSnapshotExists a w)))
            = ApplicationSnapshots (cluster w) ++ [s]
          ∧ Components (cluster (snd (EnsureApplicationSnapshotExists a w)))
            = Components (cluster w).
Proof.
  unfold EnsureApplicationSnapshotExists.
  destruct (IsBuildPipelineRun (Adapter.pipelineRun a)); cbn [negb]; cycle 1.
  { simpl. intros H. by apply cons_neq_self in H. }
  destruct (findMatchingApplicationSnapshot a w) as [[[found|]|e] w1] eqn:Hfind;
    destruct (findMatchingApplicationSnapshot_result _ _ _ _ Hfind) as (Hc1 & Hw1 & Hfound).
  - simpl. rewrite Hw1. intros H. by apply cons_neq_self in H.
  - destruct (Hfound None eq_refl) as (cs & Hcs & Hnone).
    unfold createApplicationSnapshotForPipelineRun. unfold mbind, M_bind.
    destruct (prepareApplicationSnapshotForPipelineRun a _ _ _ w1)
      as [[expected|e] w2] eqn:Hprep;
      destruct (prepareApplicationSnapshot_result _ _ _ _ _ _ _ Hprep) as (Hc2 & Hw2 & Hexp).
    + destruct (Hexp expected eq_refl) as (cs' & Hcs' & ->).
      rewrite Hc1, Hcs in Hcs'. injection Hcs' as <-.
      destruct (client.Create_ApplicationSnapshot _ w2) as [r w3] eqn:Hcreate.
      destruct (Create_ApplicationSnapshot_result _ _ _ _ Hcreate)
        as [(e & -> & Hw3 & Hc3)|(s' & -> & Hw3 & Hs3 & Hcomp3 & Hcs3 & Hns3 & Happ3)].
      * destruct (requeueOnErrorOrStop_updateStatus a w3) as [r4 w4] eqn:Hup.
        apply requeueOnErrorOrStop_updateStatus_writes in Hup as [_ [Hw4|[u Hw4]]];
          simpl; rewrite Hw4, Hw3, Hw2, Hw1; intros H; [by apply cons_neq_self in H|done].
      * simpl. rewrite Hw3, Hw2, Hw1. intros [= <-]. split; [done|].
        exists cs. rewrite Hs3, Hcomp3, Hc2, Hc1. done.
    + destruct (requeueOnErrorOrStop_updateStatus a w2) as [r4 w4] eqn:Hup.
      apply requeueOnErrorOrStop_updateStatus_writes in Hup as [_ [Hw4|[u Hw4]]];
        simpl; rewrite Hw4, Hw2, Hw1; intros H; [by apply cons_neq_self in H|done].
  - simpl. rewrite Hw1. intros H. by apply cons_neq_self in H.
Qed.

Lemma range_until_matches_last (expected s : ApplicationSnapshot.t)
    (l : list ApplicationSnapshot.t) :
  range_until (matches expected) l = None →
  ApplicationSnapshot.Spec_Components s = ApplicationSnapshot.Spec_Components expected →
  range_until (matches expected) (l ++ [s]) = Some s
  ∧ filter (λ f, compareApplicationSnapshots expected f = true) (l ++ [s]) = [s].
Proof.
  intros Hnone Hcs.
  assert (compareApplicationSnapshots expected s = true) as Hs.
  { by apply compareApplicationSnapshots_same_components. }
  split.
  - rewrite range_until_app, Hnone. simpl. unfold matches. by rewrite Hs.
  - rewrite filter_app, filter_cons_True, filter_nil by done.
    assert (filter (λ f, compareApplicationSnapshots expected f = true) l = []) as ->; [|done].
    induction l as [|x l IH]; [done|].
    simpl in Hnone. unfold matches in Hnone at 1.
    destruct (compareApplicationSnapshots expected x) eqn:Hx; [done|].
    rewrite filter_cons_False by (by rewrite Hx). by apply IH.
Qed.

(** C7. After a run of EnsureApplicationSnapshotExists that created a
    Snapshot, a second run for the same PipelineRun on the state the first
    one left changes nothing in the cluster and writes nothing, whatever
    the API server answers; when the API server answers, the second run
    finds the created Snapshot as the match and returns Continue, and that
    Snapshot is the only one of the Application that compares equal to the
    desired one. *)
Theorem EnsureApplicationSnapshotExists_twice (a : Adapter.t) (w : World)
    (s : ApplicationSnapshot.t) :
  writes (snd (EnsureApplicationSnapshotExists a w)) = CreateSnapshot s :: writes w →
  let w1 := snd (EnsureApplicationSnapshotExists a w) in
  (cluster (snd (EnsureApplicationSnapshotExists a w1)) = cluster w1
   ∧ writes (snd (EnsureApplicationSnapshotExists a w1)) = writes w1)
  ∧ (faults w1 = [] →
     findMatchingApplicationSnapshot a w1 = (Ok (Some s), w1)
     ∧ EnsureApplicationSnapshotExists a w1 = (results.ContinueProcessing, w1)
     ∧ ∃ expected,
         prepareApplicationSnapshotForPipelineRun a (Adapter.pipelineRun a)
           (Adapter.component a) (Adapter.application a) w1 = (Ok expected, w1)
         ∧ filter (λ f, compareApplicationSnapshots expected f = true)
             (applicationSnapshots (cluster w1) (Adapter.application a)) = [s]).
Proof.
  intros Hcreated w1.
  destruct (EnsureApplicationSnapshotExists_created a w s Hcreated)
    as (Hbuild & cs & Hcs & Hnone & Hscs & Hns & Happ & Hsnaps & Hcomps).
  fold w1 in Hsnaps, Hcomps.
  assert (applicationComponents (cluster w1) (Adapter.application a)
          = applicationComponents (cluster w) (Adapter.application a)) as Hcomps1.
  { unfold applicationComponents. by rewrite Hcomps. }
  assert (applicationSnapshots (cluster w1) (Adapter.application a)
          = applicationSnapshots (cluster w) (Adapter.application a) ++ [s]) as Hsnaps1.
  { unfold applicationSnapshots. rewrite Hsnaps, filter_app.
    by rewrite filter_cons_True, filter_nil. }
  destruct (range_until_matches_last (preparedSnapshot a (Adapter.application a) cs) s
              _ Hnone Hscs) as [Hlast Hone].
  split.
  - unfold EnsureApplicationSnapshotExists. rewrite Hbuild. cbn [negb].
    destruct (findMatchingApplicationSnapshot a w1) as [[found|e] w2] eqn:Hfind;
      destruct (findMatchingApplicationSnapshot_result _ _ _ _ Hfind) as (Hc2 & Hw2 & Hfound).
    + destruct (Hfound found eq_refl) as (cs' & Hcs' & ->).
      rewrite Hcomps1, Hcs in Hcs'. injection Hcs' as <-.
      rewrite Hsnaps1, Hlast. done.
    + done.
  - intros Hf.
    assert (findMatchingApplicationSnapshot a w1 = (Ok (Some s), w1)) as Hfind.
    { rewrite (findMatchingApplicationSnapshot_reliable a w1 Hf).
      by rewrite Hcomps1, Hcs, Hsnaps1, Hlast. }
    split_and!; [done| |].
    + unfold EnsureApplicationSnapshotExists. rewrite Hbuild. cbn [negb]. by rewrite Hfind.
    + exists (preparedSnapshot a (Adapter.application a) cs). split.
      * rewrite (prepareApplicationSnapshot_reliable _ _ _ _ _ Hf). by rewrite Hcomps1, Hcs.
      * by rewrite Hsnaps1.
Qed.

End Exists.

(** *** The theorems at work on the example cluster *)

Lemma verdict_is_reduction_of_outcomes_witness :
  let a := Examples.adapter Examples.s2Failure in
  let w := Examples.world
             (Examples.tested [Examples.s1Early; Examples.s2Failure; Examples.s1Late;
                               Examples.s1Broken] [Examples.S1; Examples.S2; Examples.S3]) in
  ∃ s w',
    @EnsureApplicationSnapshotPassedAllTests json_Unmarshal tekton_helpers a w
    = (results.ContinueProcessing, w')
    ∧ writes w' = [PatchSnapshotStatus s]
    ∧ ApplicationSnapshot.Namespace s = "ns"
    ∧ ApplicationSnapshot.Name s = "app1-xyz"
    ∧ find (client.is_snapshot "ns" "app1-xyz") (ApplicationSnapshots (cluster w'))
      = Some s
    ∧ verdict s = Some ("False", "Failed").
Proof.
  intros a w.
  destruct (@verdict_is_reduction_of_outcomes json_Unmarshal tekton_helpers a w w w w "test"
              Examples.snapshotXyz [Examples.S1; Examples.S2]
              [Examples.s1Late; Examples.s2Failure]) as [Hverdict Hwritten];
    try (vm_compute; reflexivity).
  destruct Hwritten as (s & w' & Hrun & Hwrites & Hstored & _).
  - intros p Hp. apply list_elem_of_In in Hp. simpl in Hp.
    destruct Hp as [<-|[<-|[]]]; vm_compute; reflexivity.
  - vm_compute. exact I.
  - destruct (Hverdict s) as (Hns & Hname & _ & _ & Hfailed).
    { rewrite Hrun. simpl. rewrite Hwrites. apply list_elem_of_here. }
    { apply not_elem_of_nil. }
    exists s, w'.
    split; [exact Hrun|]. split; [exact Hwrites|]. split; [exact Hns|].
    split; [exact Hname|]. split; [exact Hstored|].
    apply Hfailed.
    + intros Hpassed.
      specialize (Hpassed Examples.s2Failure).
      assert (Examples.s2Failure ∈ [Examples.s1Late; Examples.s2Failure]) as Hin.
      { apply list_elem_of_further, list_elem_of_here. }
      apply Hpassed in Hin. vm_compute in Hin. discriminate Hin.
Defined.

Lemma verdict_only_when_complete_witness :
  let a := Examples.adapter Examples.s1Late in
  let w := Examples.world
             (Examples.tested [Examples.s1Early; Examples.s1Late]
                [Examples.S1; Examples.S2]) in
  @EnsureApplicationSnapshotPassedAllTests json_Unmarshal tekton_helpers a w
  = (results.ContinueProcessing, w).
Proof.
  intros a w.
  apply (proj2 (@verdict_only_when_complete json_Unmarshal tekton_helpers a w)
           "test" Examples.snapshotXyz [Examples.S1; Examples.S2] [Examples.s1Late] w w w);
    try (vm_compute; reflexivity).
  vm_compute. discriminate.
Defined.

Lemma missing_snapshot_label_is_requeued_witness :
  @EnsureApplicationSnapshotPassedAllTests json_Unmarshal tekton_helpers
    (Examples.adapter Examples.orphan) (Examples.world Examples.fresh)
  = (results.RequeueWithError "the pipeline has no snapshot associated with it",
     Examples.world Examples.fresh).
Proof.
  apply (@missing_snapshot_label_is_requeued json_Unmarshal tekton_helpers
           (Examples.adapter Examples.orphan) (Examples.world Examples.fresh) "test");
    vm_compute; reflexivity.
Defined.

(** C9, as stated, fails: for the test run [orphan], which names no
    snapshot, the operation does return RequeueWithError, and no status
    write is applied. *)
Lemma missing_snapshot_label_not_permanent :
  let run := @EnsureApplicationSnapshotPassedAllTests json_Unmarshal tekton_helpers
               (Examples.adapter Examples.orphan) (Examples.world Examples.fresh) in
  tekton.IsIntegrationPipelineRun Examples.orphan = true
  ∧ PipelineRun.Labels Examples.orphan !! "test.appstudio.openshift.io/snapshot" = None
  ∧ fst run = results.RequeueWithError "the pipeline has no snapshot associated with it"
  ∧ writes (snd run) = []
  ∧ ¬ ((∀ err, fst run ≠ results.RequeueWithError err)
       ∧ ∃ p, UpdatePipelineRunStatus p ∈ writes (snd run)).
Proof.
  split_and!; try (vm_compute; reflexivity).
  intros [H _]. apply (H "the pipeline has no snapshot associated with it").
  vm_compute. reflexivity.
Qed.

Lemma EnsureApplicationSnapshotExists_twice_witness :
  let a := Examples.adapter Examples.buildRun in
  let w1 := snd (@EnsureApplicationSnapshotExists tekton_helpers a
                   (Examples.world Examples.fresh)) in
  ApplicationSnapshots (cluster w1) = [Examples.snapshotXyz]
  ∧ @EnsureApplicationSnapshotExists tekton_helpers a w1 = (results.ContinueProcessing, w1).
Proof.
  intros a w1. split; [vm_compute; reflexivity|].
  destruct (@EnsureApplicationSnapshotExists_twice tekton_helpers a
              (Examples.world Examples.fresh) Examples.snapshotXyz) as [_ H].
  - vm_compute. reflexivity.
  - apply H. vm_compute. reflexivity.
Defined.

(** *** The testable properties of the specification, run *)

(** Order-independent matching. *)
Example matching_ignores_order :
  compareApplicationSnapshots
    (Examples.snapshot_of "s1" [Examples.compA; Examples.compB])
    (Examples.snapshot_of "s2" [Examples.compB; Examples.compA]) = true.
Proof. reflexivity. Qed.

(** Latest-wins selection: of the two succeeded runs of [S1] the one that
    completed at 9 is taken, and the run that did not succeed at 20 is not. *)
Example latest_wins :
  fst (getLatestPipelineRunForApplicationSnapshotAndScenario
         (Examples.adapter Examples.s2Failure) Examples.snapshotXyz Examples.S1
         (Examples.world
            (Examples.tested [Examples.s1Early; Examples.s2Failure; Examples.s1Late;
                              Examples.s1Broken] [Examples.S1; Examples.S2])))
  = Ok (Some Examples.s1Late).
Proof. vm_compute. reflexivity. Qed.

(** Reduction correctness: all task results SUCCESS or SKIPPED. *)
Example reduction_passed :
  let run := @EnsureApplicationSnapshotPassedAllTests json_Unmarshal tekton_helpers
               (Examples.adapter Examples.s2Success)
               (Examples.world
                  (Examples.tested [Examples.s1Late; Examples.s2Success]
                     [Examples.S1; Examples.S2; Examples.S3])) in
  fst run = results.ContinueProcessing
  ∧ verdict <$> ApplicationSnapshots (cluster (snd run)) = [Some ("True", "Passed")].
Proof. vm_compute. split; reflexivity. Qed.

(** Reduction correctness: one task result FAILURE. *)
Example reduction_failed :
  let run := @EnsureApplicationSnapshotPassedAllTests json_Unmarshal tekton_helpers
               (Examples.adapter Examples.s1Late)
               (Examples.world
                  (Examples.tested [Examples.s1Late; Examples.s2Failure]
                     [Examples.S1; Examples.S2; Examples.S3])) in
  fst run = results.ContinueProcessing
  ∧ verdict <$> ApplicationSnapshots (cluster (snd run)) = [Some ("False", "Failed")].
Proof. vm_compute. split; reflexivity. Qed.

(** A payload that does not decode: no verdict, and the status of the run
    is written instead. *)
Example malformed_output_writes_no_verdict :
  let run := @EnsureApplicationSnapshotPassedAllTests json_Unmarshal tekton_helpers
               (Examples.adapter
                  (Examples.testRun "s1-late" (Examples.testLabels "S1") "True" 9
                     [Examples.testOutput "oops"]))
               (Examples.world (Examples.tested [Examples.s1Late] [Examples.S1])) in
  fst run = results.RequeueOnErrorOrStop None
  ∧ verdict <$> ApplicationSnapshots (cluster (snd run)) = [None].
Proof. vm_compute. split; reflexivity. Qed.

(** Idempotent creation, end to end: the build of [A] creates the snapshot
    [app1-xyz]; the same event again leaves the one snapshot. *)
Example build_event_twice :
  let a := Examples.adapter Examples.buildRun in
  let first := @EnsureApplicationSnapshotExists tekton_helpers a
                 (Examples.world Examples.fresh) in
  let second := @EnsureApplicationSnapshotExists tekton_helpers a (snd first) in
  fst first = results.ContinueProcessing
  ∧ writes (snd first) = [CreateSnapshot Examples.snapshotXyz]
  ∧ fst second = results.ContinueProcessing
  ∧ ApplicationSnapshots (cluster (snd second)) = [Examples.snapshotXyz].
Proof. vm_compute. split_and!; reflexivity. Qed.

(** ** Further properties of the adapter *)

(** *** compareApplicationSnapshots *)

(** X1. When the expected snapshot lists no entry twice,
    compareApplicationSnapshots accepts exactly the snapshots whose
    component list is a rearrangement of the expected one. *)
Theorem compareApplicationSnapshots_exact (e f : ApplicationSnapshot.t) :
  NoDup (ApplicationSnapshot.Spec_Components e) →
  (compareApplicationSnapshots e f = true
   ↔ ApplicationSnapshot.Spec_Components e ≡ₚ ApplicationSnapshot.Spec_Components f).
Proof.
  intros Hnd. split.
  - by apply compareApplicationSnapshots_NoDup.
  - intros P. apply compareApplicationSnapshots_spec. split.
    + by apply Permutation_length.
    + intros x Hx. by rewrite <- P.
Qed.

Lemma compareApplicationSnapshots_exact_witness :
  compareApplicationSnapshots
    (Examples.snapshot_of "s1" [Examples.compA; Examples.compB; Examples.compC])
    (Examples.snapshot_of "s2" [Examples.compC; Examples.compA; Examples.compB]) = true.
Proof.
  apply compareApplicationSnapshots_exact.
  - apply (bool_decide_unpack _). vm_compute. reflexivity.
  - simpl. apply Permutation_sym, (Permutation_cons_append [_; _]).
Defined.

(** X2. compareApplicationSnapshots accepts every snapshot against itself,
    and what it accepts chains: if [f] is accepted for [e] and [g] for [f],
    then [g] is accepted for [e]. *)
Theorem compareApplicationSnapshots_preorder (e f g : ApplicationSnapshot.t) :
  compareApplicationSnapshots e e = true
  ∧ (compareApplicationSnapshots e f = true →
     compareApplicationSnapshots f g = true →
     compareApplicationSnapshots e g = true).
Proof.
  split; [by apply compareApplicationSnapshots_same_components|].
  rewrite !compareApplicationSnapshots_spec. intros [L1 S1] [L2 S2]. split.
  - congruence.
  - intros x Hx. apply S2, S1, Hx.
Qed.

Lemma compareApplicationSnapshots_preorder_witness :
  compareApplicationSnapshots
    (Examples.snapshot_of "s1" [Examples.compA; Examples.compB])
    (Examples.snapshot_of "s3" [Examples.compA; Examples.compB]) = true.
Proof.
  apply (proj2 (compareApplicationSnapshots_preorder
                  (Examples.snapshot_of "s1" [Examples.compA; Examples.compB])
                  (Examples.snapshot_of "s2" [Examples.compB; Examples.compA])
                  (Examples.snapshot_of "s3" [Examples.compA; Examples.compB])));
    vm_compute; reflexivity.
Defined.

(** *** The outcome of a run, for every run *)

Lemma range_until_filter {A R} (P : A → Prop) `{∀ x, Decision (P x)}
    (body : A → option R) (l : list A) :
  (∀ x, ¬ P x → body x = None) →
  range_until body (filter P l) = range_until body l.
Proof.
  intros Hskip. induction l as [|x l IH]; [done|].
  rewrite filter_cons. destruct (decide (P x)) as [HP|HP]; simpl.
  - by rewrite IH.
  - by rewrite (Hskip x HP).
Qed.

Lemma range_until_split {A R} (body : A → option R) (l1 l2 : list A) (x : A) (r : R) :
  (∀ y, y ∈ l1 → body y = None) → body x = Some r →
  range_until body (l1 ++ x :: l2) = Some r.
Proof.
  intros Hl1 Hx. rewrite range_until_app.
  rewrite (proj2 (range_until_None body l1) Hl1). simpl. by rewrite Hx.
Qed.

Section OutcomeOfEveryRun.
Context {decoder : JsonDecoder}.

Lemma calculateIntegrationPipelineRunOutcome_testOutputs (p : PipelineRun.t) :
  calculateIntegrationPipelineRunOutcome p =
  match range_until checkTaskRunResult (testOutputs p) with
  | Some ret => ret
  | None => (true, None)
  end.
Proof.
  rewrite calculateIntegrationPipelineRunOutcome_scan. unfold testOutputs.
  rewrite range_until_filter; [done|].
  intros r Hname. unfold checkTaskRunResult. by rewrite bool_decide_eq_false_2.
Qed.

Lemma testOutputs_name (p : PipelineRun.t) (r : TaskRunResult.t) :
  r ∈ testOutputs p → TaskRunResult.Name r = "HACBS_TEST_OUTPUT".
Proof. unfold testOutputs. by intros [? _]%list_elem_of_filter. Qed.

Lemma checkTaskRunResult_passes (r : TaskRunResult.t) :
  TaskRunResult.Name r = "HACBS_TEST_OUTPUT" →
  (checkTaskRunResult r = None ↔ passes r).
Proof.
  intros Hname. rewrite checkTaskRunResult_None. unfold passes. split; [|done].
  intros H. by apply H.
Qed.

(** X3. Task results under other names play no part in the outcome of a
    run, whatever their value: two runs with the same HACBS_TEST_OUTPUT
    task results, in the same order, have the same outcome. *)
Theorem calculateIntegrationPipelineRunOutcome_only_test_outputs (p q : PipelineRun.t) :
  testOutputs p = testOutputs q →
  calculateIntegrationPipelineRunOutcome p = calculateIntegrationPipelineRunOutcome q.
Proof.
  intros H. rewrite !calculateIntegrationPipelineRunOutcome_testOutputs. by rewrite H.
Qed.

(** X4. The outcome of a run is decided by its first HACBS_TEST_OUTPUT
    task result that is not a decoded SUCCESS or SKIPPED: without one the
    run passes; when that one does not decode the outcome is its decoding
    error; when it decodes the run fails without error. What comes after it
    is not read. *)
Theorem calculateIntegrationPipelineRunOutcome_first_objection (p : PipelineRun.t) :
  (calculateIntegrationPipelineRunOutcome p = (true, None)
   ↔ ∀ r, r ∈ testOutputs p → passes r)
  ∧ (∀ e, calculateIntegrationPipelineRunOutcome p = (false, Some e)
          ↔ ∃ l1 r l2, testOutputs p = l1 ++ r :: l2
                       ∧ (∀ x, x ∈ l1 → passes x)
                       ∧ Unmarshal (TaskRunResult.Value r) = Err e)
  ∧ (calculateIntegrationPipelineRunOutcome p = (false, None)
     ↔ ∃ l1 r l2 m, testOutputs p = l1 ++ r :: l2
                    ∧ (∀ x, x ∈ l1 → passes x)
                    ∧ Unmarshal (TaskRunResult.Value r) = Ok m
                    ∧ not_success_or_skipped m).
Proof.
  rewrite calculateIntegrationPipelineRunOutcome_testOutputs.
  assert (∀ l1 r l2, testOutputs p = l1 ++ r :: l2 →
            (∀ x, x ∈ l1 → checkTaskRunResult x = None ↔ passes x)
            ∧ TaskRunResult.Name r = "HACBS_TEST_OUTPUT") as Hsplit.
  { intros l1 r l2 Hl. split.
    - intros x Hx. apply checkTaskRunResult_passes, (testOutputs_name p).
      rewrite Hl. apply elem_of_app. by left.
    - apply (testOutputs_name p). rewrite Hl. apply elem_of_app. right.
      apply list_elem_of_here. }
  destruct (range_until checkTaskRunResult (testOutputs p)) as [ret|] eqn:Hscan.
  - destruct (range_until_Some _ _ _ Hscan) as (l1 & r & l2 & Hl & Hr & Hl1).
    destruct (Hsplit _ _ _ Hl) as [Hpass Hname].
    destruct (checkTaskRunResult_Some _ _ Hr) as (_ & Hfst & Hsnd).
    assert (¬ passes r) as Hnot.
    { intros Hp. apply checkTaskRunResult_passes in Hp; [|done]. congruence. }
    assert (∀ l1' r' l2', testOutputs p = l1' ++ r' :: l2' →
              (∀ x, x ∈ l1' → passes x) → ¬ passes r' →
              checkTaskRunResult r' = Some ret) as Huniq.
    { intros l1' r' l2' Hl' Hl1' Hr'.
      destruct (Hsplit _ _ _ Hl') as [Hpass' Hname'].
      destruct (checkTaskRunResult r') as [ret'|] eqn:Hc;
        [|by apply checkTaskRunResult_passes in Hc].
      assert (range_until checkTaskRunResult (testOutputs p) = Some ret') as Hscan'.
      { rewrite Hl'. apply range_until_split; [|done].
        intros y Hy. apply Hpass'; auto. }
      congruence. }
    destruct ret as [b [e|]]; simpl in Hfst, Hsnd; subst b.
    + split_and!.
      * split; [done|]. intros Hall. destruct Hnot. apply Hall.
        rewrite Hl. apply elem_of_app. right. apply list_elem_of_here.
      * intros e'. split.
        -- intros [= <-]. exists l1, r, l2. split_and!; [done| |done].
           intros x Hx. apply Hpass; auto.
        -- intros (l1' & r' & l2' & Hl' & Hl1' & He').
           assert (checkTaskRunResult r' = Some (false, Some e)) as Hc.
           { apply (Huniq l1' r' l2'); [done..|]. intros (m & Hm & _). congruence. }
           apply checkTaskRunResult_Some in Hc as (_ & _ & Hc). simpl in Hc. congruence.
      * split; [done|]. intros (l1' & r' & l2' & m & Hl' & Hl1' & Hm & Hbad).
        assert (checkTaskRunResult r' = Some (false, Some e)) as Hc.
        { apply (Huniq l1' r' l2'); [done..|]. intros (m' & Hm' & Hgood). congruence. }
        apply checkTaskRunResult_Some in Hc as (_ & _ & Hc). simpl in Hc. congruence.
    + destruct Hsnd as (m & Hm & Hbad). split_and!.
      * split; [done|]. intros Hall. destruct Hnot. apply Hall.
        rewrite Hl. apply elem_of_app. right. apply list_elem_of_here.
      * intros e'. split; [done|]. intros (l1' & r' & l2' & Hl' & Hl1' & He').
        assert (checkTaskRunResult r' = Some (false, None)) as Hc.
        { apply (Huniq l1' r' l2'); [done..|]. intros (m' & Hm' & _). congruence. }
        apply checkTaskRunResult_Some in Hc as (_ & _ & (m' & Hm' & _)). congruence.
      * split; [|done]. intros _. exists l1, r, l2, m. split_and!; [done| |done|done].
        intros x Hx. apply Hpass; auto.
  - pose proof (proj1 (range_until_None _ _) Hscan) as Hnone.
    assert (∀ r, r ∈ testOutputs p → passes r) as Hall.
    { intros r Hr. apply checkTaskRunResult_passes; [by apply (testOutputs_name p)|].
      by apply Hnone. }
    split_and!.
    + done.
    + intros e. split; [done|]. intros (l1 & r & l2 & Hl & _ & He).
      destruct (Hall r) as (m & Hm & _); [|congruence].
      rewrite Hl. apply elem_of_app. right. apply list_elem_of_here.
    + split; [done|]. intros (l1 & r & l2 & m & Hl & _ & Hm & Hbad).
      destruct (Hall r) as (m' & Hm' & Hgood); [|congruence].
      rewrite Hl. apply elem_of_app. right. apply list_elem_of_here.
Qed.

(** X5. determineIfAllIntegrationPipelinesPassed computes the outcome of
    every run up to the first one whose computation returns an error, and
    returns [(false, err)] with that error even when a run before it failed;
    without such a run it returns no error, and [true] exactly when every
    run passed. *)
Theorem determineIfAllIntegrationPipelinesPassed_first_error (prs : list PipelineRun.t) :
  (∀ e, determineIfAllIntegrationPipelinesPassed prs = (false, Some e)
        ↔ ∃ l1 p l2, prs = l1 ++ p :: l2
                     ∧ (∀ q, q ∈ l1 → snd (calculateIntegrationPipelineRunOutcome q) = None)
                     ∧ snd (calculateIntegrationPipelineRunOutcome p) = Some e)
  ∧ (snd (determineIfAllIntegrationPipelinesPassed prs) = None
     ↔ ∀ p, p ∈ prs → snd (calculateIntegrationPipelineRunOutcome p) = None)
  ∧ (determineIfAllIntegrationPipelinesPassed prs = (true, None)
     ↔ ∀ p, p ∈ prs → calculateIntegrationPipelineRunOutcome p = (true, None))
  ∧ (∀ e, determineIfAllIntegrationPipelinesPassed prs ≠ (true, Some e)).
Proof.
  unfold determineIfAllIntegrationPipelinesPassed.
  assert (∀ b e, determine_loop prs b = (false, Some e)
                 ↔ ∃ l1 p l2, prs = l1 ++ p :: l2
                     ∧ (∀ q, q ∈ l1 → snd (calculateIntegrationPipelineRunOutcome q) = None)
                     ∧ snd (calculateIntegrationPipelineRunOutcome p) = Some e) as Herr.
  { induction prs as [|p prs IH]; intros b e; simpl.
    - split; [done|]. intros (l1 & p & l2 & Hl & _). by destruct l1.
    - destruct (calculateIntegrationPipelineRunOutcome p) as [o [e'|]] eqn:Hp.
      + split.
        * intros [= <-]. exists [], p, prs. split_and!; [done| |by rewrite Hp].
          intros q Hq. by apply elem_of_nil in Hq.
        * intros (l1 & p' & l2 & Hl & Hl1 & He). destruct l1 as [|x l1].
          -- injection Hl as <- <-. rewrite Hp in He. simpl in He. congruence.
          -- injection Hl as <- ->. specialize (Hl1 p (list_elem_of_here _ _)).
             by rewrite Hp in Hl1.
      + rewrite IH. split.
        * intros (l1 & p' & l2 & -> & Hl1 & He). exists (p :: l1), p', l2.
          split_and!; [done| |done].
          intros q [->|Hq]%elem_of_cons; [by rewrite Hp|by apply Hl1].
        * intros (l1 & p' & l2 & Hl & Hl1 & He). destruct l1 as [|x l1].
          -- injection Hl as <- <-. rewrite Hp in He. done.
          -- injection Hl as <- ->. exists l1, p', l2. split_and!; [done| |done].
             intros q Hq. apply Hl1. by apply list_elem_of_further. }
  pose proof (determine_loop_spec prs true) as Hspec.
  split_and!.
  - apply Herr.
  - destruct (determine_loop prs true) as [r [e|]]; simpl.
    + split; [done|]. destruct Hspec as (q & Hq & He). intros H.
      rewrite (H q Hq) in He. done.
    + split; [|done]. intros _. apply Hspec.
  - destruct (determine_loop prs true) as [r [e|]].
    + split; [done|]. destruct Hspec as (q & Hq & He). intros H.
      rewrite (H q Hq) in He. done.
    + destruct Hspec as [Hr _]. split.
      * intros [= ->]. by apply Hr.
      * intros H. f_equal. by apply Hr.
  - intros e He. destruct (determine_loop prs true) as [r [e'|]] eqn:Hd; [|done].
    injection He as -> ->.
    assert (∀ l b, fst (determine_loop l b) = true → snd (determine_loop l b) = None) as Hno.
    { clear. induction l as [|p l IH]; intros b; simpl; [done|].
      destruct (calculateIntegrationPipelineRunOutcome p) as [o [e|]]; [done|]. apply IH. }
    specialize (Hno prs true). rewrite Hd in Hno. by specialize (Hno eq_refl).
Qed.

End OutcomeOfEveryRun.

(** *** The runs resolved for a snapshot *)

Lemma first_latest_step (l : list PipelineRun.t) (r : option PipelineRun.t)
    (x : PipelineRun.t) :
  first_latest l r → first_latest (l ++ [x]) (latest_step r x).
Proof.
  unfold latest_step. fold (succeeded x). destruct (succeeded x) eqn:Hx.
  - destruct r as [p|]; simpl.
    + intros (l1 & l2 & -> & Hp & Hbefore & Hafter). unfold After.
      destruct (Z.ltb_spec (PipelineRun.Status_CompletionTime p)
                  (PipelineRun.Status_CompletionTime x)) as [Hlt|Hge]; simpl.
      * exists (l1 ++ p :: l2), []. split_and!; [done|done| |].
        -- intros q [Hq|[->|Hq]%elem_of_cons]%elem_of_app Hs.
           ++ specialize (Hbefore q Hq Hs). lia.
           ++ done.
           ++ specialize (Hafter q Hq Hs). lia.
        -- intros q Hq. by apply elem_of_nil in Hq.
      * exists l1, (l2 ++ [x]). split_and!; [by rewrite <- app_assoc|done|done|].
        intros q [Hq|Hq%list_elem_of_singleton]%elem_of_app Hs; [by apply Hafter|by subst q].
    + intros Hnone. exists l, []. split_and!; [done|done| |].
      * intros q Hq Hs. rewrite (Hnone q Hq) in Hs. done.
      * intros q Hq. by apply elem_of_nil in Hq.
  - destruct r as [p|]; simpl.
    + intros (l1 & l2 & -> & Hp & Hbefore & Hafter).
      exists l1, (l2 ++ [x]). split_and!; [by rewrite <- app_assoc|done|done|].
      intros q [Hq|Hq%list_elem_of_singleton]%elem_of_app Hs; [by apply Hafter|subst q; congruence].
    + intros Hnone q [Hq|Hq%list_elem_of_singleton]%elem_of_app; [by apply Hnone|by subst q].
Qed.

Lemma first_latest_fold (items pre : list PipelineRun.t) (r : option PipelineRun.t) :
  first_latest pre r → first_latest (pre ++ items) (fold_left latest_step items r).
Proof.
  revert pre r. induction items as [|x items IH]; intros pre r H; simpl.
  - by rewrite app_nil_r.
  - rewrite (cons_middle x pre items), app_assoc. apply IH. by apply first_latest_step.
Qed.

Lemma getLatestPipelineRun_result (a : Adapter.t) (snapshot : ApplicationSnapshot.t)
    (sc : IntegrationTestScenario.t) (w : World) (latest : option PipelineRun.t)
    (w' : World) :
  getLatestPipelineRunForApplicationSnapshotAndScenario a snapshot sc w = (Ok latest, w') →
  cluster w' = cluster w
  ∧ latest = fold_left latest_step
               (listedTestRuns (cluster w) (Application.Namespace (Adapter.application a))
                  (ApplicationSnapshot.Name snapshot) (IntegrationTestScenario.Name sc))
               None.
Proof.
  unfold getLatestPipelineRunForApplicationSnapshotAndScenario, client.List_PipelineRuns.
  unfold_M. destruct (api_call w) as [[[]|e] w0] eqn:Hcall; [|done].
  destruct (api_call_quiet _ _ _ Hcall) as [Hc _].
  intros [= <- <-]. split; [done|]. rewrite Hc. unfold listedTestRuns. f_equal.
  apply filter_ext_iff. intros p. simpl. by rewrite matching_test_labels.
Qed.

Lemma getLatestPipelineRun_reliable (a : Adapter.t) (snapshot : ApplicationSnapshot.t)
    (sc : IntegrationTestScenario.t) (w : World) :
  faults w = [] →
  getLatestPipelineRunForApplicationSnapshotAndScenario a snapshot sc w =
  (Ok (fold_left latest_step
         (listedTestRuns (cluster w) (Application.Namespace (Adapter.application a))
            (ApplicationSnapshot.Name snapshot) (IntegrationTestScenario.Name sc))
         None), w).
Proof.
  intros Hf.
  unfold getLatestPipelineRunForApplicationSnapshotAndScenario, client.List_PipelineRuns.
  unfold_M. unfold api_call. rewrite Hf. unfold listedTestRuns. do 3 f_equal.
  apply filter_ext_iff. intros p. simpl. by rewrite matching_test_labels.
Qed.

(** X6. Of the listed runs of a snapshot and a scenario,
    getLatestPipelineRunForApplicationSnapshotAndScenario returns the first
    listed among the succeeded ones that completed last: every succeeded
    run listed before the returned one completed strictly earlier, so of two
    succeeded runs with one completion time the earlier listed stays. *)
Theorem getLatestPipelineRun_first_of_latest
    (a : Adapter.t) (snapshot : ApplicationSnapshot.t) (sc : IntegrationTestScenario.t)
    (w w' : World) (latest : option PipelineRun.t) :
  getLatestPipelineRunForApplicationSnapshotAndScenario a snapshot sc w = (Ok latest, w') →
  first_latest
    (listedTestRuns (cluster w) (Application.Namespace (Adapter.application a))
       (ApplicationSnapshot.Name snapshot) (IntegrationTestScenario.Name sc))
    latest.
Proof.
  intros [_ ->]%getLatestPipelineRun_result.
  apply (first_latest_fold _ [] None). simpl. intros q Hq. by apply elem_of_nil in Hq.
Qed.

Lemma getAll_loop_result (a : Adapter.t) (snapshot : ApplicationSnapshot.t)
    (scs : list IntegrationTestScenario.t) (acc prs : list PipelineRun.t) (w w' : World) :
  getAll_loop a snapshot scs acc w = (Ok prs, w') →
  prs = acc ++ omap (resolved a (cluster w) snapshot) scs.
Proof.
  revert acc w. induction scs as [|sc scs IH]; intros acc w; simpl.
  - unfold_M. intros [= <- <-]. by rewrite app_nil_r.
  - unfold resolved at 1. fold (scenarioLabel a).
    case_bool_decide as Hlabel; cbn [negb].
    + intros ->%IH. by rewrite <- app_assoc.
    + unfold mbind, M_bind.
      destruct (getLatestPipelineRunForApplicationSnapshotAndScenario a snapshot sc w)
        as [[latest|e] w1] eqn:Hlatest; [|done].
      destruct (getLatestPipelineRun_result _ _ _ _ _ _ Hlatest) as [Hc <-].
      destruct latest as [p|]; intros ->%IH; rewrite Hc; [|done].
      by rewrite <- app_assoc.
Qed.

Lemma getAll_loop_reliable (a : Adapter.t) (snapshot : ApplicationSnapshot.t)
    (scs : list IntegrationTestScenario.t) (acc : list PipelineRun.t) (w : World) :
  faults w = [] →
  getAll_loop a snapshot scs acc w
  = (Ok (acc ++ omap (resolved a (cluster w) snapshot) scs), w).
Proof.
  intros Hf. revert acc. induction scs as [|sc scs IH]; intros acc; simpl.
  - unfold_M. by rewrite app_nil_r.
  - unfold resolved at 1. fold (scenarioLabel a).
    case_bool_decide as Hlabel; cbn [negb].
    + by rewrite IH, <- app_assoc.
    + unfold mbind, M_bind. rewrite (getLatestPipelineRun_reliable _ _ _ _ Hf).
      destruct (fold_left latest_step _ None) as [p|]; rewrite IH; [|done].
      by rewrite <- app_assoc.
Qed.

(** X7. The runs that getAllPipelineRunsForApplicationSnapshot returns are,
    in the order of the scenarios, the run being processed for every
    scenario that its scenario label names, and for every other scenario
    the run selected among the listed ones, a scenario without one being
    left out; an API server that answers every call gets exactly that
    list. *)
Theorem getAllPipelineRuns_resolves_in_order
    (a : Adapter.t) (snapshot : ApplicationSnapshot.t)
    (scs : list IntegrationTestScenario.t) (w : World) :
  (∀ prs w', getAllPipelineRunsForApplicationSnapshot a snapshot scs w = (Ok prs, w') →
             prs = omap (resolved a (cluster w) snapshot) scs)
  ∧ (faults w = [] →
     getAllPipelineRunsForApplicationSnapshot a snapshot scs w
     = (Ok (omap (resolved a (cluster w) snapshot) scs), w)).
Proof.
  unfold getAllPipelineRunsForApplicationSnapshot. split.
  - intros prs w' H. by apply getAll_loop_result in H.
  - intros Hf. by rewrite getAll_loop_reliable.
Qed.

Lemma omap_length_le {A B} (f : A → option B) (l : list A) :
  length (omap f l) ≤ length l.
Proof.
  induction l as [|x l IH]; csimpl; [done|]. destruct (f x); csimpl; lia.
Qed.

Lemma omap_length_eq {A B} (f : A → option B) (l : list A) :
  length (omap f l) = length l ↔ ∀ x, x ∈ l → is_Some (f x).
Proof.
  induction l as [|x l IH]; csimpl.
  - split; [|done]. intros _ y Hy. by apply elem_of_nil in Hy.
  - pose proof (omap_length_le f l) as Hle. destruct (f x) as [y|] eqn:Hx; csimpl.
    + split.
      * intros Hlen z [->|Hz]%elem_of_cons; [by rewrite Hx|].
        apply IH; [lia|done].
      * intros H. f_equal. apply IH. intros z Hz. apply H. by apply list_elem_of_further.
    + split; [lia|]. intros H. specialize (H x (list_elem_of_here _ _)).
      rewrite Hx in H. by destruct H.
Qed.

(** X8. getAllPipelineRunsForApplicationSnapshot never returns more runs
    than there are scenarios, and it returns as many exactly when every
    scenario has a run standing for it: so the comparison of the two counts
    in EnsureApplicationSnapshotPassedAllTests tells whether a scenario is
    still without a run. *)
Theorem getAllPipelineRuns_count
    (a : Adapter.t) (snapshot : ApplicationSnapshot.t)
    (scs : list IntegrationTestScenario.t) (w w' : World) (prs : list PipelineRun.t) :
  getAllPipelineRunsForApplicationSnapshot a snapshot scs w = (Ok prs, w') →
  length prs ≤ length scs
  ∧ (length scs = length prs
     ↔ ∀ sc, sc ∈ scs → is_Some (resolved a (cluster w) snapshot sc)).
Proof.
  intros ->%getAll_loop_result. simpl. split; [apply omap_length_le|].
  rewrite <- omap_length_eq. split; intros H; by symmetry.
Qed.

(** X9. Every run that getAllPipelineRunsForApplicationSnapshot returns is
    the run being processed or a listed test run of the snapshot and of one
    of the scenarios that has succeeded; and the run being processed is
    returned whenever its scenario label names one of the scenarios,
    whether it has succeeded or not. *)
Theorem getAllPipelineRuns_members
    (a : Adapter.t) (snapshot : ApplicationSnapshot.t)
    (scs : list IntegrationTestScenario.t) (w w' : World) (prs : list PipelineRun.t) :
  getAllPipelineRunsForApplicationSnapshot a snapshot scs w = (Ok prs, w') →
  (∀ p, p ∈ prs →
     p = Adapter.pipelineRun a
     ∨ (succeeded p = true
        ∧ ∃ sc, sc ∈ scs
                ∧ p ∈ listedTestRuns (cluster w)
                        (Application.Namespace (Adapter.application a))
                        (ApplicationSnapshot.Name snapshot)
                        (IntegrationTestScenario.Name sc)))
  ∧ (∀ sc, sc ∈ scs → scenarioLabel a = IntegrationTestScenario.Name sc →
           Adapter.pipelineRun a ∈ prs).
Proof.
  intros ->%getAll_loop_result. simpl. split.
  - intros p (sc & Hsc & Hp)%list_elem_of_omap. unfold resolved in Hp.
    case_bool_decide; [left; congruence|]. right.
    pose proof (latest_of_fold
                  (listedTestRuns (cluster w) (Application.Namespace (Adapter.application a))
                     (ApplicationSnapshot.Name snapshot) (IntegrationTestScenario.Name sc))
                  [] None latest_of_nil) as [_ Hsome].
    destruct (Hsome p Hp) as (Hin & Hs & _). split; [done|]. by exists sc.
  - intros sc Hsc Hlabel. apply list_elem_of_omap. exists sc. split; [done|].
    unfold resolved. by rewrite bool_decide_eq_true_2.
Qed.

(** *** The snapshot of a build *)

Section Matcher.
Context {helpers : Tekton}.

Lemma prepare_loop_desired (p : PipelineRun.t) (comp : Component.t)
    (comps : list Component.t) (cs : list ApplicationSnapshotComponent.t) :
  prepare_loop p comp comps [] = Ok cs →
  ∃ derived, cs = desiredComponents comps (Component.Name comp) derived
             ∧ (Component.Name comp ∈ map Component.Name comps →
                getImagePullSpecFromPipelineRun p = Ok derived).
Proof.
  destruct (getImagePullSpecFromPipelineRun p) as [derived|e] eqn:Hspec.
  - rewrite (prepare_loop_derived _ _ derived) by done. intros [= <-]. by exists derived.
  - intros [Hnot Hcs]%(prepare_loop_underived _ _ e); [|done].
    exists "". split; [apply (Hcs "")|done].
Qed.

Lemma desiredComponents_absent (comps : list Component.t) (triggering derived : string) :
  triggering ∉ map Component.Name comps →
  desiredComponents comps triggering derived = currentComponents comps.
Proof.
  unfold desiredComponents, currentComponents. induction comps as [|c comps IH]; [done|].
  simpl. intros [Hc Hrest]%not_elem_of_cons.
  rewrite bool_decide_eq_false_2 by congruence. f_equal. by apply IH.
Qed.

Lemma prepare_loop_err (p : PipelineRun.t) (comp : Component.t) (e : error)
    (comps : list Component.t) (acc : list ApplicationSnapshotComponent.t) :
  prepare_loop p comp comps acc = Err e ↔
  Component.Name comp ∈ map Component.Name comps ∧ getImagePullSpecFromPipelineRun p = Err e.
Proof.
  revert acc. induction comps as [|c comps IH]; intros acc; simpl.
  - split; [done|]. intros [H _]. by apply elem_of_nil in H.
  - case_bool_decide as Hname.
    + destruct (getImagePullSpecFromPipelineRun p) as [derived|e'] eqn:Hspec.
      * rewrite IH. split; intros [_ H]; done.
      * split.
        -- intros [= ->]. split; [|done]. rewrite Hname. apply list_elem_of_here.
        -- intros [_ [= ->]]. done.
    + rewrite IH. split; intros [Hin Hspec]; (split; [|done]).
      * by apply list_elem_of_further.
      * apply elem_of_cons in Hin as [Hin|Hin]; [congruence|done].
Qed.

(** X10. prepareApplicationSnapshotForPipelineRun fails in two ways. When
    the list of Components is not answered, the error of the API server is
    replaced by the message that names the Application of the adapter. When
    it is answered, the preparation fails exactly when the Application has
    a Component with the name of the triggering one and no pull spec can be
    derived from the PipelineRun, and the error is the one of the
    derivation. *)
Theorem prepareApplicationSnapshot_errors
    (a : Adapter.t) (p : PipelineRun.t) (comp : Component.t) (app : Application.t)
    (w : World) :
  (¬ answers w →
   ∃ w', prepareApplicationSnapshotForPipelineRun a p comp app w
         = (Err ("failed to get all Application Components for Application "
                 +:+ Application.Name (Adapter.application a)), w'))
  ∧ (answers w →
     ∀ e, (∃ w', prepareApplicationSnapshotForPipelineRun a p comp app w = (Err e, w'))
          ↔ (Component.Name comp ∈ map Component.Name (applicationComponents (cluster w) app)
             ∧ getImagePullSpecFromPipelineRun p = Err e)).
Proof.
  split.
  - intros Hna.
    unfold prepareApplicationSnapshotForPipelineRun, getAllApplicationComponents,
      client.List_Components. unfold_M.
    unfold answers in Hna. unfold api_call.
    destruct (faults w) as [|[e|] fs]; [by destruct Hna| |by destruct Hna].
    eexists. reflexivity.
  - intros Ha e.
    destruct (getAllApplicationComponents_answers a app w Ha) as (w1 & Hlist & _).
    unfold prepareApplicationSnapshotForPipelineRun. rewrite Hlist.
    rewrite <- (prepare_loop_err p comp e _ []).
    destruct (prepare_loop p comp _ []) as [cs|e'].
    + split; [by intros [w' [=]]|done].
    + split; [by intros [w' [= ->]]|]. intros [= ->]. by exists w1.
Qed.

(** X11. When the Application has no Component with the name of the
    triggering one, prepareApplicationSnapshotForPipelineRun never looks at
    the PipelineRun: the snapshot it returns holds the images recorded for
    the Components, without the image that was built, and that also when no
    pull spec could be derived. *)
Theorem prepareApplicationSnapshot_without_triggering_component
    (a : Adapter.t) (p : PipelineRun.t) (comp : Component.t) (app : Application.t)
    (w : World) :
  answers w →
  Component.Name comp ∉ map Component.Name (applicationComponents (cluster w) app) →
  ∃ w', prepareApplicationSnapshotForPipelineRun a p comp app w
        = (Ok (preparedSnapshot a app
                 (currentComponents (applicationComponents (cluster w) app))), w').
Proof.
  intros Ha Hnot.
  destruct (getAllApplicationComponents_answers a app w Ha) as (w1 & Hlist & _).
  unfold prepareApplicationSnapshotForPipelineRun. rewrite Hlist.
  destruct (prepare_loop p comp _ []) as [cs|e] eqn:Hloop.
  - destruct (prepare_loop_desired _ _ _ _ Hloop) as (derived & -> & _).
    rewrite desiredComponents_absent by done. by exists w1.
  - apply prepare_loop_err in Hloop as [Hin _]. done.
Qed.

Lemma range_until_matches_Some (expected s : ApplicationSnapshot.t)
    (l : list ApplicationSnapshot.t) :
  range_until (matches expected) l = Some s →
  ∃ l1 l2, l = l1 ++ s :: l2
           ∧ compareApplicationSnapshots expected s = true
           ∧ ∀ x, x ∈ l1 → compareApplicationSnapshots expected x = false.
Proof.
  intros (l1 & x & l2 & -> & Hx & Hl1)%range_until_Some.
  unfold matches in Hx. destruct (compareApplicationSnapshots expected x) eqn:Hc; [|done].
  injection Hx as ->. exists l1, l2. split_and!; [done..|].
  intros y Hy. specialize (Hl1 y Hy). unfold matches in Hl1.
  by destruct (compareApplicationSnapshots expected y).
Qed.

Lemma range_until_matches_None (expected : ApplicationSnapshot.t)
    (l : list ApplicationSnapshot.t) :
  range_until (matches expected) l = None ↔
  ∀ x, x ∈ l → compareApplicationSnapshots expected x = false.
Proof.
  rewrite range_until_None. unfold matches.
  split; intros H x Hx; specialize (H x Hx);
    by destruct (compareApplicationSnapshots expected x).
Qed.

(** X12. What findMatchingApplicationSnapshot returns is the first of the
    Application's snapshots, in the order the list call gives them, that
    compareApplicationSnapshots accepts for the desired combination; it
    returns nil, and no error, exactly when it accepts none. *)
Theorem findMatchingApplicationSnapshot_first_match
    (a : Adapter.t) (w w' : World) (found : option ApplicationSnapshot.t) :
  findMatchingApplicationSnapshot a w = (Ok found, w') →
  ∃ derived,
    let expected :=
      preparedSnapshot a (Adapter.application a)
        (desiredComponents (applicationComponents (cluster w) (Adapter.application a))
           (Component.Name (Adapter.component a)) derived) in
    (Component.Name (Adapter.component a)
       ∈ map Component.Name (applicationComponents (cluster w) (Adapter.application a)) →
     getImagePullSpecFromPipelineRun (Adapter.pipelineRun a) = Ok derived)
    ∧ match found with
      | Some s =>
          ∃ l1 l2, applicationSnapshots (cluster w) (Adapter.application a) = l1 ++ s :: l2
                   ∧ compareApplicationSnapshots expected s = true
                   ∧ ∀ x, x ∈ l1 → compareApplicationSnapshots expected x = false
      | None =>
          ∀ x, x ∈ applicationSnapshots (cluster w) (Adapter.application a) →
               compareApplicationSnapshots expected x = false
      end.
Proof.
  intros Hfind.
  destruct (findMatchingApplicationSnapshot_result _ _ _ _ Hfind) as (_ & _ & Hfound).
  destruct (Hfound found eq_refl) as (cs & Hcs & ->).
  destruct (prepare_loop_desired _ _ _ _ Hcs) as (derived & -> & Hderived).
  exists derived. split; [done|].
  destruct (range_until _ _) as [s|] eqn:Hscan.
  - by apply range_until_matches_Some.
  - by apply range_until_matches_None.
Qed.

Lemma desiredComponents_NoDup (comps : list Component.t) (triggering derived : string) :
  NoDup (map Component.Name comps) → NoDup (desiredComponents comps triggering derived).
Proof.
  intros Hnd. apply (NoDup_fmap_1 ApplicationSnapshotComponent.Name).
  change (NoDup (map ApplicationSnapshotComponent.Name
                   (desiredComponents comps triggering derived))).
  by rewrite desiredComponents_names.
Qed.

(** X13. When the Components of the Application have different names, a
    snapshot that findMatchingApplicationSnapshot returns holds exactly the
    desired combination: its component list is a rearrangement of the
    Components with their recorded images and the derived pull spec for
    the triggering one. *)
Theorem findMatchingApplicationSnapshot_exact
    (a : Adapter.t) (w w' : World) (s : ApplicationSnapshot.t) :
  NoDup (map Component.Name (applicationComponents (cluster w) (Adapter.application a))) →
  findMatchingApplicationSnapshot a w = (Ok (Some s), w') →
  ∃ derived,
    ApplicationSnapshot.Spec_Components s
    ≡ₚ desiredComponents (applicationComponents (cluster w) (Adapter.application a))
         (Component.Name (Adapter.component a)) derived
    ∧ (Component.Name (Adapter.component a)
         ∈ map Component.Name (applicationComponents (cluster w) (Adapter.application a)) →
       getImagePullSpecFromPipelineRun (Adapter.pipelineRun a) = Ok derived).
Proof.
  intros Hnd Hfind.
  destruct (findMatchingApplicationSnapshot_result _ _ _ _ Hfind) as (_ & _ & Hfound).
  destruct (Hfound (Some s) eq_refl) as (cs & Hcs & Hs).
  destruct (prepare_loop_desired _ _ _ _ Hcs) as (derived & -> & Hderived).
  exists derived. split; [|done].
  symmetry in Hs. apply range_until_matches_Some in Hs as (_ & _ & _ & Hc & _).
  symmetry.
  apply (compareApplicationSnapshots_NoDup (preparedSnapshot a (Adapter.application a) _) s);
    [|exact Hc].
  simpl. by apply desiredComponents_NoDup.
Qed.

Lemma Status_Update_PipelineRun_effect (p : PipelineRun.t) (w : World) r (w' : World) :
  client.Status_Update_PipelineRun p w = (r, w') →
  Components (cluster w') = Components (cluster w)
  ∧ ApplicationSnapshots (cluster w') = ApplicationSnapshots (cluster w)
  ∧ IntegrationTestScenarios (cluster w') = IntegrationTestScenarios (cluster w)
  ∧ ((∃ e, r = Err e ∧ cluster w' = cluster w ∧ writes w' = writes w)
     ∨ (r = Ok tt ∧ ∃ updated, writes w' = UpdatePipelineRunStatus updated :: writes w)).
Proof.
  unfold client.Status_Update_PipelineRun. unfold_M.
  destruct (api_call w) as [[[]|e] w0] eqn:Hcall;
    destruct (api_call_quiet _ _ _ Hcall) as [Hc Hw].
  - destruct (find _ _) as [stored|].
    + intros [= <- <-]. simpl. rewrite Hc, Hw. split_and!; [done..|]. right. eauto.
    + intros [= <- <-]. rewrite Hc. split_and!; [done..|]. left. eauto.
  - intros [= <- <-]. rewrite Hc. split_and!; [done..|]. left. eauto.
Qed.

Lemma requeueOnErrorOrStop_updateStatus_effect (a : Adapter.t) (w : World)
    (r : results.OperationResult) (w' : World) :
  requeueOnErrorOrStop_updateStatus a w = (r, w') →
  Components (cluster w') = Components (cluster w)
  ∧ ApplicationSnapshots (cluster w') = ApplicationSnapshots (cluster w)
  ∧ IntegrationTestScenarios (cluster w') = IntegrationTestScenarios (cluster w)
  ∧ ((∃ e, r = results.RequeueOnErrorOrStop (Some e)
           ∧ cluster w' = cluster w ∧ writes w' = writes w)
     ∨ (r = results.RequeueOnErrorOrStop None
        ∧ ∃ updated, writes w' = UpdatePipelineRunStatus updated :: writes w)).
Proof.
  unfold requeueOnErrorOrStop_updateStatus, updateStatus.
  destruct (client.Status_Update_PipelineRun _ w) as [[[]|e] w0] eqn:Hup;
    intros [= <- <-];
    destruct (Status_Update_PipelineRun_effect _ _ _ _ Hup)
      as (H1 & H2 & H3 & [(e' & He & Hc & Hw)|(Hr & u & Hw)]);
    simplify_eq; split_and!; try done; [right|left]; eauto.
Qed.

Lemma Create_ApplicationSnapshot_effect (obj : ApplicationSnapshot.t) (w : World) r
    (w' : World) :
  client.Create_ApplicationSnapshot obj w = (r, w') →
  Components (cluster w') = Components (cluster w)
  ∧ IntegrationTestScenarios (cluster w') = IntegrationTestScenarios (cluster w)
  ∧ PipelineRuns (cluster w') = PipelineRuns (cluster w)
  ∧ ((∃ e, r = Err e ∧ cluster w' = cluster w ∧ writes w' = writes w)
     ∨ (∃ s, r = Ok s ∧ writes w' = CreateSnapshot s :: writes w
             ∧ ApplicationSnapshots (cluster w') = ApplicationSnapshots (cluster w) ++ [s])).
Proof.
  unfold client.Create_ApplicationSnapshot. unfold_M.
  destruct (api_call w) as [[[]|e] w0] eqn:Hcall;
    destruct (api_call_quiet _ _ _ Hcall) as [Hc Hw]; cycle 1.
  { intros [= <- <-]. rewrite Hc. split_and!; [done..|]. left. eauto. }
  destruct (suffixes w0) as [|suffix rest]; simpl;
    (destruct (find _ _) as [taken|];
     [intros [= <- <-]; simpl; rewrite Hc; split_and!; [done..|]; left; eauto
     |intros [= <- <-]; simpl; rewrite Hc, Hw; split_and!; [done..|]; right; eauto]).
Qed.

(** X14. One run of EnsureApplicationSnapshotExists applies at most one
    write, and its result tells which: a Snapshot appended to the existing
    ones with the result Continue, or the status of the PipelineRun with
    the result RequeueOnErrorOrStop without error; with every other result
    the cluster is as before. It never changes or removes a Snapshot, a
    Component or a scenario. *)
Theorem EnsureApplicationSnapshotExists_effects (a : Adapter.t) (w : World) :
  Components (cluster (snd (EnsureApplicationSnapshotExists a w))) = Components (cluster w)
  ∧ IntegrationTestScenarios (cluster (snd (EnsureApplicationSnapshotExists a w)))
    = IntegrationTestScenarios (cluster w)
  ∧ ((cluster (snd (EnsureApplicationSnapshotExists a w)) = cluster w
      ∧ writes (snd (EnsureApplicationSnapshotExists a w)) = writes w
      ∧ fst (EnsureApplicationSnapshotExists a w) ≠ results.RequeueOnErrorOrStop None)
     ∨ (fst (EnsureApplicationSnapshotExists a w) = results.ContinueProcessing
        ∧ PipelineRuns (cluster (snd (EnsureApplicationSnapshotExists a w)))
          = PipelineRuns (cluster w)
        ∧ ∃ s, writes (snd (EnsureApplicationSnapshotExists a w))
               = CreateSnapshot s :: writes w
               ∧ ApplicationSnapshots (cluster (snd (EnsureApplicationSnapshotExists a w)))
                 = ApplicationSnapshots (cluster w) ++ [s])
     ∨ (fst (EnsureApplicationSnapshotExists a w) = results.RequeueOnErrorOrStop None
        ∧ ApplicationSnapshots (cluster (snd (EnsureApplicationSnapshotExists a w)))
          = ApplicationSnapshots (cluster w)
        ∧ ∃ updated, writes (snd (EnsureApplicationSnapshotExists a w))
                     = UpdatePipelineRunStatus updated :: writes w)).
Proof.
  unfold EnsureApplicationSnapshotExists.
  destruct (IsBuildPipelineRun (Adapter.pipelineRun a)); cbn [negb]; cycle 1.
  { simpl. split_and!; [done..|]. left. done. }
  destruct (findMatchingApplicationSnapshot a w) as [[[found|]|e] w1] eqn:Hfind;
    destruct (findMatchingApplicationSnapshot_result _ _ _ _ Hfind) as (Hc1 & Hw1 & _);
    simpl.
  - rewrite Hc1, Hw1. split_and!; [done..|]. left. done.
  - unfold createApplicationSnapshotForPipelineRun. unfold mbind, M_bind.
    destruct (prepareApplicationSnapshotForPipelineRun a _ _ _ w1)
      as [[expected|e] w2] eqn:Hprep;
      destruct (prepareApplicationSnapshot_result _ _ _ _ _ _ _ Hprep) as (Hc2 & Hw2 & _).
    + destruct (client.Create_ApplicationSnapshot expected w2) as [[s|e] w3] eqn:Hcreate;
        destruct (Create_ApplicationSnapshot_effect _ _ _ _ Hcreate)
          as (Hcomp3 & Hsc3 & Hpr3 & [(e' & He & Hc3 & Hw3)|(s' & Hs & Hw3 & Hsn3)]);
        simplify_eq.
      * simpl. rewrite Hcomp3, Hsc3, Hpr3, Hw3, Hsn3, Hc2, Hc1, Hw2, Hw1.
        split_and!; [done..|]. right. left. eauto.
      * destruct (requeueOnErrorOrStop_updateStatus a w3) as [r4 w4] eqn:Hup.
        destruct (requeueOnErrorOrStop_updateStatus_effect _ _ _ _ Hup)
          as (H1 & H2 & H3 & [(e4 & -> & Hc4 & Hw4)|(-> & u & Hw4)]); simpl;
          rewrite H1, H3, ?H2, ?Hc4, Hw4, Hc3, Hw3, Hc2, Hc1, Hw2, Hw1;
          (split_and!; [done..|]); [left; done|right; right; eauto].
    + destruct (requeueOnErrorOrStop_updateStatus a w2) as [r4 w4] eqn:Hup.
      destruct (requeueOnErrorOrStop_updateStatus_effect _ _ _ _ Hup)
        as (H1 & H2 & H3 & [(e4 & -> & Hc4 & Hw4)|(-> & u & Hw4)]); simpl;
        rewrite H1, H3, ?H2, ?Hc4, Hw4, Hc2, Hc1, Hw2, Hw1;
        (split_and!; [done..|]); [left; done|right; right; eauto].
  - rewrite Hc1, Hw1. split_and!; [done..|]. left. done.
Qed.

(** X15. When one of the Application's snapshots is accepted for the
    desired combination, EnsureApplicationSnapshotExists creates nothing
    and writes nothing, however the API server behaves; when the API server
    answers, it returns Continue. *)
Theorem EnsureApplicationSnapshotExists_existing_match
    (a : Adapter.t) (w : World) (derived : string) (f : ApplicationSnapshot.t) :
  getImagePullSpecFromPipelineRun (Adapter.pipelineRun a) = Ok derived →
  f ∈ applicationSnapshots (cluster w) (Adapter.application a) →
  compareApplicationSnapshots
    (preparedSnapshot a (Adapter.application a)
       (desiredComponents (applicationComponents (cluster w) (Adapter.application a))
          (Component.Name (Adapter.component a)) derived)) f = true →
  (cluster (snd (EnsureApplicationSnapshotExists a w)) = cluster w
   ∧ writes (snd (EnsureApplicationSnapshotExists a w)) = writes w)
  ∧ (faults w = [] → EnsureApplicationSnapshotExists a w = (results.ContinueProcessing, w)).
Proof.
  intros Hspec Hf Hc.
  assert (∃ s, range_until
                 (matches (preparedSnapshot a (Adapter.application a)
                    (desiredComponents
                       (applicationComponents (cluster w) (Adapter.application a))
                       (Component.Name (Adapter.component a)) derived)))
                 (applicationSnapshots (cluster w) (Adapter.application a)) = Some s)
    as [s Hs].
  { destruct (range_until _ _) as [s|] eqn:Hscan; [by exists s|].
    rewrite range_until_matches_None in Hscan. rewrite (Hscan f Hf) in Hc. done. }
  pose proof (prepare_loop_derived (Adapter.pipelineRun a) (Adapter.component a) derived
                (applicationComponents (cluster w) (Adapter.application a)) [] Hspec) as Hloop.
  simpl in Hloop. split.
  - unfold EnsureApplicationSnapshotExists.
    destruct (IsBuildPipelineRun (Adapter.pipelineRun a)); cbn [negb]; [|done].
    destruct (findMatchingApplicationSnapshot a w) as [[found|e] w1] eqn:Hfind;
      destruct (findMatchingApplicationSnapshot_result _ _ _ _ Hfind) as (Hc1 & Hw1 & Hfound).
    + destruct (Hfound found eq_refl) as (cs & Hcs & ->).
      rewrite Hloop in Hcs. injection Hcs as <-. rewrite Hs. done.
    + done.
  - intros Hfaults. unfold EnsureApplicationSnapshotExists.
    destruct (IsBuildPipelineRun (Adapter.pipelineRun a)); cbn [negb]; [|done].
    rewrite (findMatchingApplicationSnapshot_reliable a w Hfaults), Hloop, Hs. done.
Qed.

(** X16. With an API server that answers, a build PipelineRun, a derivable
    pull spec, no snapshot of the Application accepted for the desired
    combination and a free name, EnsureApplicationSnapshotExists returns
    Continue after one write: the creation of a Snapshot of the Application
    in its namespace, named by the generate-name of the Application, that
    carries the desired combination, the label of the adapter's Component,
    and no condition. *)
Theorem EnsureApplicationSnapshotExists_creates
    (a : Adapter.t) (w : World) (derived : string) :
  faults w = [] →
  IsBuildPipelineRun (Adapter.pipelineRun a) = true →
  getImagePullSpecFromPipelineRun (Adapter.pipelineRun a) = Ok derived →
  (∀ f, f ∈ applicationSnapshots (cluster w) (Adapter.application a) →
        compareApplicationSnapshots
          (preparedSnapshot a (Adapter.application a)
             (desiredComponents (applicationComponents (cluster w) (Adapter.application a))
                (Component.Name (Adapter.component a)) derived)) f = false) →
  find (client.is_snapshot (Application.Namespace (Adapter.application a))
          (nextName w (Application.Name (Adapter.application a) +:+ "-")))
    (ApplicationSnapshots (cluster w)) = None →
  let created :=
    ApplicationSnapshot.mk
      (nextName w (Application.Name (Adapter.application a) +:+ "-"))
      (Application.Name (Adapter.application a) +:+ "-")
      (Application.Namespace (Adapter.application a))
      {[ "component" := Component.Name (Adapter.component a) ]}
      (Application.Name (Adapter.application a))
      (desiredComponents (applicationComponents (cluster w) (Adapter.application a))
         (Component.Name (Adapter.component a)) derived)
      [] in
  fst (EnsureApplicationSnapshotExists a w) = results.ContinueProcessing
  ∧ writes (snd (EnsureApplicationSnapshotExists a w)) = CreateSnapshot created :: writes w
  ∧ ApplicationSnapshots (cluster (snd (EnsureApplicationSnapshotExists a w)))
    = ApplicationSnapshots (cluster w) ++ [created].
Proof.
  intros Hfaults Hbuild Hspec Hnone Hfree created.
  pose proof (prepare_loop_derived (Adapter.pipelineRun a) (Adapter.component a) derived
                (applicationComponents (cluster w) (Adapter.application a)) [] Hspec) as Hloop.
  simpl in Hloop.
  assert (∃ w', EnsureApplicationSnapshotExists a w = (results.ContinueProcessing, w')
                ∧ writes w' = CreateSnapshot created :: writes w
                ∧ ApplicationSnapshots (cluster w') = ApplicationSnapshots (cluster w) ++ [created])
    as (w' & -> & Hw & Hs); [|done].
  unfold EnsureApplicationSnapshotExists. rewrite Hbuild. cbn [negb].
  rewrite (findMatchingApplicationSnapshot_reliable a w Hfaults), Hloop.
  rewrite (proj2 (range_until_matches_None _ _) Hnone).
  unfold createApplicationSnapshotForPipelineRun. unfold mbind, M_bind at 1.
  rewrite (prepareApplicationSnapshot_reliable _ _ _ _ _ Hfaults), Hloop.
  unfold client.Create_ApplicationSnapshot. unfold_M.
  rewrite (api_call_reliable w Hfaults).
  unfold nextName in Hfree, created.
  destruct (suffixes w) as [|suffix rest]; simpl; simpl in Hfree; rewrite Hfree;
    eexists; (split; [reflexivity|]); done.
Qed.

End Matcher.

(** *** The verdict and the cluster *)

Lemma SetStatusCondition_twice (l : list metav1.Condition.t) (c : metav1.Condition.t) :
  meta.SetStatusCondition (meta.SetStatusCondition l c) c = meta.SetStatusCondition l c.
Proof.
  induction l as [|x l IH]; simpl.
  - rewrite bool_decide_eq_true_2 by done. by destruct c.
  - case_bool_decide as Hx; simpl.
    + by rewrite bool_decide_eq_true_2.
    + rewrite bool_decide_eq_false_2 by done. by rewrite IH.
Qed.

Lemma with_conditions_same (s : ApplicationSnapshot.t) :
  client.with_conditions s (ApplicationSnapshot.Status_Conditions s) = s.
Proof. by destruct s. Qed.

Lemma replace_first_found {A} (p : A → bool) (l : list A) (x : A) :
  find p l = Some x → client.replace_first p x l = l.
Proof.
  induction l as [|y l IH]; simpl; [done|].
  destruct (p y); [by intros [= ->]|]. intros H. by rewrite IH.
Qed.

Lemma replace_first_map {A B} (f : A → B) (p : A → bool) (new : A) (l : list A) (x : A) :
  find p l = Some x → f new = f x → map f (client.replace_first p new l) = map f l.
Proof.
  intros Hfind Hf. induction l as [|y l IH]; simpl in *; [done|].
  destruct (p y); simpl.
  - injection Hfind as ->. by rewrite Hf.
  - by rewrite IH.
Qed.

Lemma Status_Patch_effect (obj base : ApplicationSnapshot.t) (w : World) r (w' : World) :
  client.Status_Patch_ApplicationSnapshot obj base w = (r, w') →
  Components (cluster w') = Components (cluster w)
  ∧ IntegrationTestScenarios (cluster w') = IntegrationTestScenarios (cluster w)
  ∧ PipelineRuns (cluster w') = PipelineRuns (cluster w)
  ∧ map withoutStatus (ApplicationSnapshots (cluster w'))
    = map withoutStatus (ApplicationSnapshots (cluster w))
  ∧ ((∃ e, r = Err e ∧ cluster w' = cluster w ∧ writes w' = writes w)
     ∨ (∃ s, r = Ok s ∧ writes w' = PatchSnapshotStatus s :: writes w
             ∧ s ∈ ApplicationSnapshots (cluster w'))).
Proof.
  unfold client.Status_Patch_ApplicationSnapshot. unfold_M.
  destruct (api_call w) as [[[]|e] w0] eqn:Hcall;
    destruct (api_call_quiet _ _ _ Hcall) as [Hc Hw]; cycle 1.
  { intros [= <- <-]. rewrite Hc. split_and!; [done..|]. left. eauto. }
  destruct (find _ (ApplicationSnapshots (cluster w0))) as [stored|] eqn:Hfind; cycle 1.
  { intros [= <- <-]. rewrite Hc. split_and!; [done..|]. left. eauto. }
  intros [= <- <-]. simpl. rewrite Hc, Hw. rewrite Hc in Hfind. split_and!; [done..| |].
  - eapply replace_first_map; [done|]. by case_bool_decide.
  - right. eexists. split_and!; [done..|]. by eapply replace_first_elem.
Qed.

Section Aggregator.
Context {decoder : JsonDecoder} {helpers : Tekton}.

(** X17. For an object that is stored under its namespace and name, a
    second markSnapshotAsPassed with the same message, on the object the
    first one returned, changes nothing in the cluster; and so for
    markSnapshotAsFailed. *)
Theorem markSnapshot_again_changes_nothing
    (a : Adapter.t) (snapshot : ApplicationSnapshot.t) (message : string) (w : World) :
  find (client.is_snapshot (ApplicationSnapshot.Namespace snapshot)
          (ApplicationSnapshot.Name snapshot)) (ApplicationSnapshots (cluster w))
  = Some snapshot →
  (∀ s1 w1, markSnapshotAsPassed a snapshot message w = (Ok s1, w1) →
            cluster (snd (markSnapshotAsPassed a s1 message w1)) = cluster w1)
  ∧ (∀ s1 w1, markSnapshotAsFailed a snapshot message w = (Ok s1, w1) →
              cluster (snd (markSnapshotAsFailed a s1 message w1)) = cluster w1).
Proof.
  intros Hfind.
  assert (∀ c s1 w1,
            client.Status_Patch_ApplicationSnapshot
              (client.with_conditions snapshot
                 (meta.SetStatusCondition (ApplicationSnapshot.Status_Conditions snapshot) c))
              snapshot w = (Ok s1, w1) →
            cluster (snd (client.Status_Patch_ApplicationSnapshot
                            (client.with_conditions s1
                               (meta.SetStatusCondition
                                  (ApplicationSnapshot.Status_Conditions s1) c))
                            s1 w1)) = cluster w1) as Hboth.
  { intros c s1 w1. unfold client.Status_Patch_ApplicationSnapshot at 1. unfold_M.
    destruct (api_call w) as [[[]|e] w0] eqn:Hcall; [|done].
    destruct (api_call_quiet _ _ _ Hcall) as [Hc Hw].
    cbn [client.with_conditions ApplicationSnapshot.Namespace ApplicationSnapshot.Name
           ApplicationSnapshot.Status_Conditions].
    rewrite <- Hc in Hfind. rewrite Hfind. intros [= <- <-].
    set (K := meta.SetStatusCondition (ApplicationSnapshot.Status_Conditions snapshot) c).
    assert ((if bool_decide (K = ApplicationSnapshot.Status_Conditions snapshot)
             then snapshot else client.with_conditions snapshot K)
            = client.with_conditions snapshot K) as ->.
    { case_bool_decide as HK; [|done]. by rewrite HK, with_conditions_same. }
    cbn [client.with_conditions ApplicationSnapshot.Status_Conditions].
    assert (meta.SetStatusCondition K c = K) as -> by apply SetStatusCondition_twice.
    unfold client.Status_Patch_ApplicationSnapshot. unfold_M.
    match goal with |- context [api_call ?v] =>
      destruct (api_call v) as [[[]|e] w2] eqn:Hcall2;
        destruct (api_call_quiet _ _ _ Hcall2) as [Hc2 Hw2] end; [|done].
    cbn [client.with_conditions ApplicationSnapshot.Namespace ApplicationSnapshot.Name
           ApplicationSnapshot.Status_Conditions].
    rewrite Hc2. cbn [cluster ApplicationSnapshots].
    rewrite (find_replace_first _ (client.with_conditions snapshot K) _ _ Hfind); cycle 1.
    { unfold client.is_snapshot. by apply bool_decide_eq_true_2. }
    rewrite bool_decide_eq_true_2 by done. cbn [snd cluster]. unfold id.
    rewrite Hc2. cbn [cluster Components ApplicationSnapshots IntegrationTestScenarios
                      PipelineRuns].
    f_equal. apply replace_first_found.
    apply (find_replace_first _ _ _ _ Hfind).
    unfold client.is_snapshot. by apply bool_decide_eq_true_2. }
  split; intros s1 w1; [unfold markSnapshotAsPassed|unfold markSnapshotAsFailed]; apply Hboth.
Qed.

(** X18. One run of EnsureApplicationSnapshotPassedAllTests applies at most
    one write, and its result tells which: the patch of the status of a
    snapshot with the result Continue, or the status of the PipelineRun
    with the result RequeueOnErrorOrStop without error; with every other
    result the cluster is as before. Whatever it does, the snapshots of the
    cluster are the same but for their conditions, and no Component or
    scenario changes. *)
Theorem EnsureApplicationSnapshotPassedAllTests_effects (a : Adapter.t) (w : World) :
  Components (cluster (snd (EnsureApplicationSnapshotPassedAllTests a w)))
  = Components (cluster w)
  ∧ IntegrationTestScenarios (cluster (snd (EnsureApplicationSnapshotPassedAllTests a w)))
    = IntegrationTestScenarios (cluster w)
  ∧ map withoutStatus
      (ApplicationSnapshots (cluster (snd (EnsureApplicationSnapshotPassedAllTests a w))))
    = map withoutStatus (ApplicationSnapshots (cluster w))
  ∧ ((cluster (snd (EnsureApplicationSnapshotPassedAllTests a w)) = cluster w
      ∧ writes (snd (EnsureApplicationSnapshotPassedAllTests a w)) = writes w
      ∧ fst (EnsureApplicationSnapshotPassedAllTests a w) ≠ results.RequeueOnErrorOrStop None)
     ∨ (fst (EnsureApplicationSnapshotPassedAllTests a w) = results.ContinueProcessing
        ∧ PipelineRuns (cluster (snd (EnsureApplicationSnapshotPassedAllTests a w)))
          = PipelineRuns (cluster w)
        ∧ ∃ s, writes (snd (EnsureApplicationSnapshotPassedAllTests a w))
               = PatchSnapshotStatus s :: writes w
               ∧ s ∈ ApplicationSnapshots
                       (cluster (snd (EnsureApplicationSnapshotPassedAllTests a w))))
     ∨ (fst (EnsureApplicationSnapshotPassedAllTests a w) = results.RequeueOnErrorOrStop None
        ∧ ApplicationSnapshots (cluster (snd (EnsureApplicationSnapshotPassedAllTests a w)))
          = ApplicationSnapshots (cluster w)
        ∧ ∃ updated, writes (snd (EnsureApplicationSnapshotPassedAllTests a w))
                     = UpdatePipelineRunStatus updated :: writes w)).
Proof.
  assert (∀ (run : results.OperationResult * World) (v : World),
            cluster v = cluster w → writes v = writes w →
            run = requeueOnErrorOrStop_updateStatus a v →
            Components (cluster (snd run)) = Components (cluster w)
            ∧ IntegrationTestScenarios (cluster (snd run)) = IntegrationTestScenarios (cluster w)
            ∧ map withoutStatus (ApplicationSnapshots (cluster (snd run)))
              = map withoutStatus (ApplicationSnapshots (cluster w))
            ∧ ((cluster (snd run) = cluster w ∧ writes (snd run) = writes w
                ∧ fst run ≠ results.RequeueOnErrorOrStop None)
               ∨ (fst run = results.ContinueProcessing
                  ∧ PipelineRuns (cluster (snd run)) = PipelineRuns (cluster w)
                  ∧ ∃ s, writes (snd run) = PatchSnapshotStatus s :: writes w
                         ∧ s ∈ ApplicationSnapshots (cluster (snd run)))
               ∨ (fst run = results.RequeueOnErrorOrStop None
                  ∧ ApplicationSnapshots (cluster (snd run)) = ApplicationSnapshots (cluster w)
                  ∧ ∃ updated, writes (snd run) = UpdatePipelineRunStatus updated :: writes w)))
    as Hrequeue.
  { intros [r v'] v Hc Hw Hrun. symmetry in Hrun.
    destruct (requeueOnErrorOrStop_updateStatus_effect _ _ _ _ Hrun)
      as (H1 & H2 & H3 & [(e & -> & Hc' & Hw')|(-> & u & Hw')]); simpl;
      rewrite H1, H2, H3, Hw', Hc, Hw; (split_and!; [done..|]).
    - left. rewrite Hc', Hc. done.
    - right. right. eauto. }
  assert (∀ (v : World) obj base,
            cluster v = cluster w → writes v = writes w →
            let run :=
              match client.Status_Patch_ApplicationSnapshot obj base v with
              | (Err err, w4) => requeueOnErrorOrStop_updateStatus a w4
              | (Ok _, w4) => (results.ContinueProcessing, w4)
              end in
            Components (cluster (snd run)) = Components (cluster w)
            ∧ IntegrationTestScenarios (cluster (snd run)) = IntegrationTestScenarios (cluster w)
            ∧ map withoutStatus (ApplicationSnapshots (cluster (snd run)))
              = map withoutStatus (ApplicationSnapshots (cluster w))
            ∧ ((cluster (snd run) = cluster w ∧ writes (snd run) = writes w
                ∧ fst run ≠ results.RequeueOnErrorOrStop None)
               ∨ (fst run = results.ContinueProcessing
                  ∧ PipelineRuns (cluster (snd run)) = PipelineRuns (cluster w)
                  ∧ ∃ s, writes (snd run) = PatchSnapshotStatus s :: writes w
                         ∧ s ∈ ApplicationSnapshots (cluster (snd run)))
               ∨ (fst run = results.RequeueOnErrorOrStop None
                  ∧ ApplicationSnapshots (cluster (snd run)) = ApplicationSnapshots (cluster w)
                  ∧ ∃ updated, writes (snd run) = UpdatePipelineRunStatus updated :: writes w)))
    as Hmark.
  { intros v obj base Hc Hw run. subst run.
    destruct (client.Status_Patch_ApplicationSnapshot obj base v) as [r w4] eqn:Hpatch.
    destruct (Status_Patch_effect _ _ _ _ _ Hpatch)
      as (H1 & H2 & H3 & H4 & [(e & -> & Hc4 & Hw4)|(s & -> & Hw4 & Hin)]).
    - apply (Hrequeue _ w4); [congruence..|done].
    - simpl. rewrite H1, H2, H3, H4, Hw4, Hc, Hw. split_and!; [done..|].
      right. left. eauto. }
  unfold EnsureApplicationSnapshotPassedAllTests.
  destruct (IsIntegrationPipelineRun (Adapter.pipelineRun a)); cbn [negb]; cycle 1.
  { simpl. split_and!; [done..|]. by left. }
  destruct (GetTypeFromPipelineRun (Adapter.pipelineRun a)) as [pipelineType|e].
  2: { simpl. split_and!; [done..|]. by left. }
  destruct (getApplicationSnapshotFromPipelineRun a _ pipelineType w)
    as [[snapshot|e] w1] eqn:Hsnap;
    destruct (getApplicationSnapshotFromPipelineRun_quiet _ _ _ _ _ _ Hsnap) as [C1 W1].
  2: { simpl. rewrite C1, W1. split_and!; [done..|]. by left. }
  destruct (getRequiredIntegrationTestScenariosForApplication a _ w1)
    as [[scs|e] w2] eqn:Hscs;
    destruct (getRequiredIntegrationTestScenarios_quiet _ _ _ _ _ Hscs) as [C2 W2].
  2: { simpl. rewrite C2, W2, C1, W1. split_and!; [done..|]. by left. }
  destruct (getAllPipelineRunsForApplicationSnapshot a snapshot scs w2)
    as [[prs|e] w3] eqn:Hprs;
    destruct (getAllPipelineRuns_quiet _ _ _ _ _ _ Hprs) as [C3 W3].
  2: { apply (Hrequeue _ w3); [congruence..|done]. }
  destruct (negb _).
  { simpl. rewrite C3, W3, C2, W2, C1, W1. split_and!; [done..|]. by left. }
  destruct (determineIfAllIntegrationPipelinesPassed prs) as [allPassed [e|]].
  { apply (Hrequeue _ w3); [congruence..|done]. }
  destruct allPassed; [unfold markSnapshotAsPassed|unfold markSnapshotAsFailed];
    apply Hmark; congruence.
Qed.

(** X19. When no scenario is required for the Application, a test
    PipelineRun whose snapshot is found makes
    EnsureApplicationSnapshotPassedAllTests mark that snapshot as passed:
    no run is resolved, none is looked at, and the counts agree at zero.
    The patched object is the found snapshot with the passed condition set
    and nothing else changed, and it is what the cluster then stores under
    the found snapshot's namespace and name. *)
Theorem no_required_scenario_passes
    (a : Adapter.t) (w w1 w2 : World) (pipelineType : string)
    (snapshot : ApplicationSnapshot.t) :
  IsIntegrationPipelineRun (Adapter.pipelineRun a) = true →
  GetTypeFromPipelineRun (Adapter.pipelineRun a) = Ok pipelineType →
  getApplicationSnapshotFromPipelineRun a (Adapter.pipelineRun a) pipelineType w
  = (Ok snapshot, w1) →
  getRequiredIntegrationTestScenariosForApplication a (Adapter.application a) w1
  = (Ok [], w2) →
  answers w2 →
  ∃ s w', EnsureApplicationSnapshotPassedAllTests a w = (results.ContinueProcessing, w')
          ∧ writes w' = PatchSnapshotStatus s :: writes w
          ∧ ApplicationSnapshot.Namespace s = ApplicationSnapshot.Namespace snapshot
          ∧ ApplicationSnapshot.Name s = ApplicationSnapshot.Name snapshot
          ∧ s = client.with_conditions snapshot
                  (meta.SetStatusCondition (ApplicationSnapshot.Status_Conditions snapshot)
                     (passedCondition "All Integration Pipeline tests passed"))
          ∧ find (client.is_snapshot (ApplicationSnapshot.Namespace snapshot)
                    (ApplicationSnapshot.Name snapshot)) (ApplicationSnapshots (cluster w'))
            = Some s
          ∧ s ∈ ApplicationSnapshots (cluster w')
          ∧ verdict s = Some ("True", "Passed").
Proof.
  intros Hkind Htype Hsnap Hscs Ha.
  destruct (EnsureApplicationSnapshotPassedAllTests_after_reads
              a w w1 w2 w2 pipelineType snapshot [] [] Hkind Htype Hsnap Hscs eq_refl)
    as [[Hc Hw] ->].
  cbn [length negb]. rewrite bool_decide_eq_true_2 by done. cbn [negb].
  unfold determineIfAllIntegrationPipelinesPassed. cbn [determine_loop].
  pose proof (getApplicationSnapshotFromPipelineRun_found _ _ _ _ _ _ Hsnap) as Hfind.
  rewrite <- Hc in Hfind. rewrite <- Hw.
  destruct (Status_Patch_sets snapshot
              (passedCondition "All Integration Pipeline tests passed") w2 Hfind)
    as [(e & w' & _ & _ & Hna)|(s & w' & Hpatch & Hwrites & Hs & Hstored & Hin)];
    [by destruct Hna|].
  unfold markSnapshotAsPassed. rewrite Hpatch. exists s, w'.
  split_and!; [done|done|by rewrite Hs|by rewrite Hs|done|done|done|].
  apply (verdict_of_conditions s (ApplicationSnapshot.Status_Conditions snapshot)
           (passedCondition "All Integration Pipeline tests passed")); [done|].
  by rewrite Hs.
Qed.

End Aggregator.

Section Aggregator2.
Context {decoder : JsonDecoder} {helpers : Tekton}.

(** X20. The snapshot that getApplicationSnapshotFromPipelineRun returns
    is a stored one, of the namespace of the PipelineRun and with the name
    that the snapshot label of the PipelineRun's type gives; the call
    writes nothing. *)
Theorem getApplicationSnapshotFromPipelineRun_by_label
    (a : Adapter.t) (p : PipelineRun.t) (pipelineType : string) (w w' : World)
    (s : ApplicationSnapshot.t) :
  getApplicationSnapshotFromPipelineRun a p pipelineType w = (Ok s, w') →
  PipelineRun.Labels p !! (pipelineType +:+ ".appstudio.openshift.io/snapshot")
  = Some (ApplicationSnapshot.Name s)
  ∧ ApplicationSnapshot.Namespace s = PipelineRun.Namespace p
  ∧ s ∈ ApplicationSnapshots (cluster w)
  ∧ cluster w' = cluster w ∧ writes w' = writes w.
Proof.
  intros Hget.
  destruct (getApplicationSnapshotFromPipelineRun_quiet _ _ _ _ _ _ Hget) as [Hc Hw].
  revert Hget. unfold getApplicationSnapshotFromPipelineRun.
  destruct (PipelineRun.Labels p !! _) as [name|]; [|done].
  unfold client.Get_ApplicationSnapshot. unfold_M.
  destruct (api_call w) as [[[]|e] w0] eqn:Hcall; [|done].
  destruct (api_call_quiet _ _ _ Hcall) as [Hc0 _]. rewrite Hc0.
  destruct (find _ _) as [s'|] eqn:Hfind; [|done].
  intros [= -> <-]. destruct (find_some _ _ Hfind) as [Hin Hs].
  unfold client.is_snapshot in Hs. apply bool_decide_eq_true in Hs as [Hns Hname].
  split_and!; [by rewrite Hname|done|by apply list_elem_of_In|done|done].
Qed.

(** X21. EnsureApplicationSnapshotPassedAllTests writes a verdict only
    when every required scenario has a run standing for it: the run being
    processed, if its scenario label names the scenario, or a succeeded run
    among the listed ones. *)
Theorem verdict_only_when_every_scenario_resolved
    (a : Adapter.t) (w w1 w2 : World) (pipelineType : string)
    (snapshot : ApplicationSnapshot.t) (scs : list IntegrationTestScenario.t)
    (s : ApplicationSnapshot.t) :
  IsIntegrationPipelineRun (Adapter.pipelineRun a) = true →
  GetTypeFromPipelineRun (Adapter.pipelineRun a) = Ok pipelineType →
  getApplicationSnapshotFromPipelineRun a (Adapter.pipelineRun a) pipelineType w
  = (Ok snapshot, w1) →
  getRequiredIntegrationTestScenariosForApplication a (Adapter.application a) w1
  = (Ok scs, w2) →
  PatchSnapshotStatus s ∈ writes (snd (EnsureApplicationSnapshotPassedAllTests a w)) →
  PatchSnapshotStatus s ∉ writes w →
  ∀ sc, sc ∈ scs → is_Some (resolved a (cluster w) snapshot sc).
Proof.
  intros Hkind Htype Hsnap Hscs Hs Hnot.
  destruct (getApplicationSnapshotFromPipelineRun_quiet _ _ _ _ _ _ Hsnap) as [C1 W1].
  destruct (getRequiredIntegrationTestScenarios_quiet _ _ _ _ _ Hscs) as [C2 W2].
  destruct (getAllPipelineRunsForApplicationSnapshot a snapshot scs w2)
    as [[prs|e] w3] eqn:Hprs.
  - destruct (EnsureApplicationSnapshotPassedAllTests_after_reads
                a w w1 w2 w3 pipelineType snapshot scs prs Hkind Htype Hsnap Hscs Hprs)
      as [[Hc Hw] Hrun].
    rewrite Hrun in Hs.
    destruct (decide (length scs = length prs)) as [Hlen|Hlen].
    + apply getAll_loop_result in Hprs. simpl in Hprs. subst prs.
      rewrite C2, C1 in Hlen. symmetry in Hlen. by apply omap_length_eq.
    + rewrite (bool_decide_eq_false_2 _ Hlen) in Hs. simpl in Hs. by rewrite Hw in Hs.
  - destruct (getAllPipelineRuns_quiet _ _ _ _ _ _ Hprs) as [C3 W3].
    unfold EnsureApplicationSnapshotPassedAllTests in Hs.
    rewrite Hkind, Htype, Hsnap, Hscs, Hprs in Hs. cbn [negb] in Hs.
    apply requeueOnErrorOrStop_updateStatus_no_patch in Hs.
    rewrite W3, W2, W1 in Hs. done.
Qed.

End Aggregator2.

(** *** The further properties at work on the example cluster *)

Lemma calculateIntegrationPipelineRunOutcome_only_test_outputs_witness :
  @calculateIntegrationPipelineRunOutcome json_Unmarshal MoreExamples.success_and_skipped_apart
  = @calculateIntegrationPipelineRunOutcome json_Unmarshal Examples.success_and_skipped.
Proof.
  apply (@calculateIntegrationPipelineRunOutcome_only_test_outputs json_Unmarshal).
  vm_compute. reflexivity.
Defined.

Lemma getLatestPipelineRun_first_of_latest_witness :
  first_latest [Examples.s1Early; Examples.s1Late; MoreExamples.s1Tie]
    (Some Examples.s1Late).
Proof.
  apply (getLatestPipelineRun_first_of_latest
           (Examples.adapter Examples.s2Failure) Examples.snapshotXyz Examples.S1
           (Examples.world
              (Examples.tested [Examples.s1Early; Examples.s2Failure; Examples.s1Late;
                                MoreExamples.s1Tie] [Examples.S1; Examples.S2]))
           (Examples.world
              (Examples.tested [Examples.s1Early; Examples.s2Failure; Examples.s1Late;
                                MoreExamples.s1Tie] [Examples.S1; Examples.S2]))).
  vm_compute. reflexivity.
Defined.

Lemma getAllPipelineRuns_count_witness :
  let w := Examples.world
             (Examples.tested [Examples.s1Early; Examples.s1Late]
                [Examples.S1; Examples.S2]) in
  length [Examples.s1Late] ≤ length [Examples.S1; Examples.S2]
  ∧ (length [Examples.S1; Examples.S2] = length [Examples.s1Late]
     ↔ ∀ sc, sc ∈ [Examples.S1; Examples.S2] →
             is_Some (resolved (Examples.adapter Examples.s1Late) (cluster w)
                        Examples.snapshotXyz sc)).
Proof.
  intros w.
  apply (getAllPipelineRuns_count (Examples.adapter Examples.s1Late) Examples.snapshotXyz
           [Examples.S1; Examples.S2] w w [Examples.s1Late]).
  vm_compute. reflexivity.
Defined.

Lemma getAllPipelineRuns_members_witness :
  MoreExamples.s1Aborted ∈ [MoreExamples.s1Aborted; Examples.s2Success].
Proof.
  apply (proj2 (getAllPipelineRuns_members (Examples.adapter MoreExamples.s1Aborted)
                  Examples.snapshotXyz [Examples.S1; Examples.S2]
                  (Examples.world
                     (Examples.tested [Examples.s1Late; Examples.s2Success;
                                       MoreExamples.s1Aborted] [Examples.S1; Examples.S2]))
                  (Examples.world
                     (Examples.tested [Examples.s1Late; Examples.s2Success;
                                       MoreExamples.s1Aborted] [Examples.S1; Examples.S2]))
                  [MoreExamples.s1Aborted; Examples.s2Success]
                  ltac:(vm_compute; reflexivity))
           Examples.S1).
  - apply list_elem_of_here.
  - vm_compute. reflexivity.
Defined.

Lemma prepareApplicationSnapshot_without_triggering_component_witness :
  ∃ w', @prepareApplicationSnapshotForPipelineRun tekton_helpers
          (Examples.adapter Examples.orphan) Examples.orphan MoreExamples.componentQ
          Examples.app1 (Examples.world Examples.fresh)
        = (Ok (preparedSnapshot (Examples.adapter Examples.orphan) Examples.app1
                 [ApplicationSnapshotComponent.mk "A" "r/a@sha1";
                  ApplicationSnapshotComponent.mk "B" "r/b@sha2"]), w').
Proof.
  apply (@prepareApplicationSnapshot_without_triggering_component tekton_helpers
           (Examples.adapter Examples.orphan) Examples.orphan MoreExamples.componentQ
           Examples.app1 (Examples.world Examples.fresh)).
  - vm_compute. exact I.
  - apply (bool_decide_unpack _). vm_compute. reflexivity.
Defined.

Lemma findMatchingApplicationSnapshot_first_match_witness :
  ∃ derived,
    let expected :=
      preparedSnapshot (Examples.adapter Examples.buildRun) Examples.app1
        (desiredComponents [Examples.componentA; Examples.componentB] "A" derived) in
    ("A" ∈ ["A"; "B"] →
     @getImagePullSpecFromPipelineRun tekton_helpers Examples.buildRun = Ok derived)
    ∧ ∃ l1 l2, [MoreExamples.stale; MoreExamples.swapped] = l1 ++ MoreExamples.swapped :: l2
               ∧ compareApplicationSnapshots expected MoreExamples.swapped = true
               ∧ ∀ x, x ∈ l1 → compareApplicationSnapshots expected x = false.
Proof.
  apply (@findMatchingApplicationSnapshot_first_match tekton_helpers
           (Examples.adapter Examples.buildRun)
           (Examples.world MoreExamples.deduplicated)
           (Examples.world MoreExamples.deduplicated) (Some MoreExamples.swapped)).
  vm_compute. reflexivity.
Defined.

Lemma findMatchingApplicationSnapshot_exact_witness :
  ∃ derived,
    ApplicationSnapshot.Spec_Components MoreExamples.swapped
    ≡ₚ desiredComponents [Examples.componentA; Examples.componentB] "A" derived
    ∧ ("A" ∈ ["A"; "B"] →
       @getImagePullSpecFromPipelineRun tekton_helpers Examples.buildRun = Ok derived).
Proof.
  apply (@findMatchingApplicationSnapshot_exact tekton_helpers
           (Examples.adapter Examples.buildRun)
           (Examples.world MoreExamples.deduplicated)
           (Examples.world MoreExamples.deduplicated) MoreExamples.swapped).
  - apply (bool_decide_unpack _). vm_compute. reflexivity.
  - vm_compute. reflexivity.
Defined.

Lemma EnsureApplicationSnapshotExists_existing_match_witness :
  @EnsureApplicationSnapshotExists tekton_helpers (Examples.adapter Examples.buildRun)
    (Examples.world MoreExamples.deduplicated)
  = (results.ContinueProcessing, Examples.world MoreExamples.deduplicated).
Proof.
  apply (proj2 (@EnsureApplicationSnapshotExists_existing_match tekton_helpers
                  (Examples.adapter Examples.buildRun)
                  (Examples.world MoreExamples.deduplicated)
                  "localhost@sha256:0a1b" MoreExamples.swapped
                  ltac:(vm_compute; reflexivity)
                  ltac:(change (MoreExamples.swapped
                                  ∈ [MoreExamples.stale; MoreExamples.swapped]);
                        apply list_elem_of_further, list_elem_of_here)
                  ltac:(vm_compute; reflexivity))).
  vm_compute. reflexivity.
Defined.

Lemma EnsureApplicationSnapshotExists_creates_witness :
  writes (snd (@EnsureApplicationSnapshotExists tekton_helpers
                 (Examples.adapter Examples.buildRun) (Examples.world Examples.fresh)))
  = [CreateSnapshot Examples.snapshotXyz].
Proof.
  apply (@EnsureApplicationSnapshotExists_creates tekton_helpers
           (Examples.adapter Examples.buildRun) (Examples.world Examples.fresh)
           "localhost@sha256:0a1b").
  - vm_compute. reflexivity.
  - vm_compute. reflexivity.
  - vm_compute. reflexivity.
  - intros f Hf. vm_compute in Hf. by apply elem_of_nil in Hf.
  - vm_compute. reflexivity.
Defined.

Lemma markSnapshot_again_changes_nothing_witness :
  let a := Examples.adapter Examples.s1Late in
  let w := Examples.world (Examples.tested [Examples.s1Late] [Examples.S1]) in
  let w1 := snd (markSnapshotAsPassed a Examples.snapshotXyz "passed" w) in
  cluster (snd (markSnapshotAsPassed a
                  (client.with_conditions Examples.snapshotXyz [passedCondition "passed"])
                  "passed" w1))
  = cluster w1.
Proof.
  intros a w w1.
  apply (proj1 (markSnapshot_again_changes_nothing a Examples.snapshotXyz "passed" w
                  ltac:(vm_compute; reflexivity))).
  vm_compute. reflexivity.
Defined.

Lemma no_required_scenario_passes_witness :
  let a := Examples.adapter MoreExamples.s1Aborted in
  let w := Examples.world (Examples.tested [MoreExamples.s1Aborted] [Examples.S3]) in
  ∃ s w',
    @EnsureApplicationSnapshotPassedAllTests json_Unmarshal tekton_helpers a w
    = (results.ContinueProcessing, w')
    ∧ writes w' = PatchSnapshotStatus s :: writes w
    ∧ ApplicationSnapshot.Namespace s = "ns"
    ∧ ApplicationSnapshot.Name s = "app1-xyz"
    ∧ find (client.is_snapshot "ns" "app1-xyz") (ApplicationSnapshots (cluster w'))
      = Some s
    ∧ verdict s = Some ("True", "Passed").
Proof.
  intros a w.
  destruct (@no_required_scenario_passes json_Unmarshal tekton_helpers a w w w "test"
              Examples.snapshotXyz)
    as (s & w' & Hrun & Hwrites & Hns & Hname & _ & Hstored & _ & Hverdict);
    try (vm_compute; first [reflexivity | exact I]).
  exists s, w'.
  split; [exact Hrun|]. split; [exact Hwrites|]. split; [exact Hns|].
  split; [exact Hname|]. split; [exact Hstored|]. exact Hverdict.
Defined.

Lemma getApplicationSnapshotFromPipelineRun_by_label_witness :
  PipelineRun.Labels Examples.s1Late !! "test.appstudio.openshift.io/snapshot"
  = Some "app1-xyz".
Proof.
  apply (getApplicationSnapshotFromPipelineRun_by_label
           (Examples.adapter Examples.s1Late) Examples.s1Late "test"
           (Examples.world (Examples.tested [Examples.s1Late] [Examples.S1]))
           (Examples.world (Examples.tested [Examples.s1Late] [Examples.S1]))
           Examples.snapshotXyz).
  vm_compute. reflexivity.
Defined.

Lemma verdict_only_when_every_scenario_resolved_witness :
  let a := Examples.adapter Examples.s2Success in
  let w := Examples.world
             (Examples.tested [Examples.s1Late; Examples.s2Success]
                [Examples.S1; Examples.S2; Examples.S3]) in
  is_Some (resolved a (cluster w) Examples.snapshotXyz Examples.S1).
Proof.
  intros a w.
  apply (@verdict_only_when_every_scenario_resolved json_Unmarshal tekton_helpers a w w w
           "test" Examples.snapshotXyz [Examples.S1; Examples.S2]
           (client.with_conditions Examples.snapshotXyz
              [passedCondition "All Integration Pipeline tests passed"]));
    try (vm_compute; reflexivity).
  - assert (writes (snd (@EnsureApplicationSnapshotPassedAllTests json_Unmarshal
                           tekton_helpers a w))
            = [PatchSnapshotStatus
                 (client.with_conditions Examples.snapshotXyz
                    [passedCondition "All Integration Pipeline tests passed"])]) as ->
      by (vm_compute; reflexivity).
    apply list_elem_of_here.
  - apply not_elem_of_nil.
  - apply list_elem_of_here.
Defined.

Lemma calculateIntegrationPipelineRunOutcome_first_objection_witness :
  @calculateIntegrationPipelineRunOutcome json_Unmarshal MoreExamples.failure_then_malformed
  = (false, None).
Proof.
  apply (proj2 (proj2 (@calculateIntegrationPipelineRunOutcome_first_objection
                         json_Unmarshal MoreExamples.failure_then_malformed))).
  exists [], (Examples.testOutput "{'result':'FAILURE'}"), [Examples.testOutput "oops"],
    {[ "result" := JString "FAILURE" ]}.
  split_and!.
  - vm_compute. reflexivity.
  - intros x Hx. by apply elem_of_nil in Hx.
  - vm_compute. reflexivity.
  - split; vm_compute; discriminate.
Defined.

Lemma determineIfAllIntegrationPipelinesPassed_first_error_witness :
  @determineIfAllIntegrationPipelinesPassed json_Unmarshal
    [Examples.s2Failure; Examples.malformed; Examples.s1Late]
  = (false, Some "invalid character looking for beginning of value").
Proof.
  apply (proj1 (@determineIfAllIntegrationPipelinesPassed_first_error json_Unmarshal
                  [Examples.s2Failure; Examples.malformed; Examples.s1Late])).
  exists [Examples.s2Failure], Examples.malformed, [Examples.s1Late]. split_and!.
  - reflexivity.
  - intros q Hq. apply list_elem_of_singleton in Hq. subst q. vm_compute. reflexivity.
  - vm_compute. reflexivity.
Defined.

Lemma getAllPipelineRuns_resolves_in_order_witness :
  let a := Examples.adapter MoreExamples.s1Aborted in
  let w := Examples.world
             (Examples.tested [Examples.s1Late; Examples.s2Success; MoreExamples.s1Aborted]
                [Examples.S1; Examples.S2]) in
  getAllPipelineRunsForApplicationSnapshot a Examples.snapshotXyz
    [Examples.S2; Examples.S3; Examples.S1] w
  = (Ok [Examples.s2Success; MoreExamples.s1Aborted], w).
Proof.
  intros a w.
  rewrite (proj2 (getAllPipelineRuns_resolves_in_order a Examples.snapshotXyz
                    [Examples.S2; Examples.S3; Examples.S1] w)
             ltac:(vm_compute; reflexivity)).
  vm_compute. reflexivity.
Defined.

Lemma prepareApplicationSnapshot_errors_witness :
  ∃ w', @prepareApplicationSnapshotForPipelineRun tekton_helpers
          (Examples.adapter Examples.orphan) Examples.orphan Examples.componentA
          Examples.app1 (MoreExamples.unreliable Examples.fresh [Some "connection refused"])
        = (Err "failed to get all Application Components for Application app1", w').
Proof.
  apply (proj1 (@prepareApplicationSnapshot_errors tekton_helpers
                  (Examples.adapter Examples.orphan) Examples.orphan Examples.componentA
                  Examples.app1
                  (MoreExamples.unreliable Examples.fresh [Some "connection refused"]))).
  vm_compute. intros H. exact H.
Defined.

Section OutcomeErrors.
Context {decoder : JsonDecoder} {helpers : Tekton}.

(** X22. When as many runs were resolved as scenarios are required and the
    outcome computation of one of them returns an error,
    EnsureApplicationSnapshotPassedAllTests writes no verdict and leaves
    every snapshot as it is; its result is RequeueOnErrorOrStop, which
    carries the error of the status update and not the one of the outcome
    computation. *)
Theorem outcome_error_writes_no_verdict
    (a : Adapter.t) (w w1 w2 w3 : World) (pipelineType : string)
    (snapshot : ApplicationSnapshot.t) (scs : list IntegrationTestScenario.t)
    (prs : list PipelineRun.t) (p : PipelineRun.t) (e : error) :
  IsIntegrationPipelineRun (Adapter.pipelineRun a) = true →
  GetTypeFromPipelineRun (Adapter.pipelineRun a) = Ok pipelineType →
  getApplicationSnapshotFromPipelineRun a (Adapter.pipelineRun a) pipelineType w
  = (Ok snapshot, w1) →
  getRequiredIntegrationTestScenariosForApplication a (Adapter.application a) w1
  = (Ok scs, w2) →
  getAllPipelineRunsForApplicationSnapshot a snapshot scs w2 = (Ok prs, w3) →
  length scs = length prs →
  p ∈ prs → snd (calculateIntegrationPipelineRunOutcome p) = Some e →
  EnsureApplicationSnapshotPassedAllTests a w = requeueOnErrorOrStop_updateStatus a w3
  ∧ (∃ err, fst (EnsureApplicationSnapshotPassedAllTests a w)
            = results.RequeueOnErrorOrStop err)
  ∧ ApplicationSnapshots (cluster (snd (EnsureApplicationSnapshotPassedAllTests a w)))
    = ApplicationSnapshots (cluster w)
  ∧ (writes (snd (EnsureApplicationSnapshotPassedAllTests a w)) = writes w
     ∨ ∃ updated, writes (snd (EnsureApplicationSnapshotPassedAllTests a w))
                  = UpdatePipelineRunStatus updated :: writes w).
Proof.
  intros Hkind Htype Hsnap Hscs Hprs Hlen Hp He.
  destruct (EnsureApplicationSnapshotPassedAllTests_after_reads
              a w w1 w2 w3 pipelineType snapshot scs prs Hkind Htype Hsnap Hscs Hprs)
    as [[Hc Hw] ->].
  rewrite (bool_decide_eq_true_2 _ Hlen). cbn [negb].
  pose proof (determine_loop_spec prs true) as Hdet.
  unfold determineIfAllIntegrationPipelinesPassed.
  destruct (determine_loop prs true) as [allPassed [e'|]].
  - split; [done|].
    destruct (requeueOnErrorOrStop_updateStatus a w3) as [r w4] eqn:Hup.
    destruct (requeueOnErrorOrStop_updateStatus_writes _ _ _ _ Hup) as [[err ->] Hwrites].
    destruct (requeueOnErrorOrStop_updateStatus_effect _ _ _ _ Hup) as (_ & Hsn & _).
    simpl. rewrite Hsn, Hc, <- Hw. split_and!; [by exists err|done|done].
  - destruct Hdet as [_ Hnone]. rewrite (Hnone p Hp) in He. done.
Qed.

End OutcomeErrors.

Lemma outcome_error_writes_no_verdict_witness :
  let a := Examples.adapter Examples.s1Late in
  let w := Examples.world
             (Examples.tested
                [Examples.s1Late;
                 Examples.testRun "s2-malformed" (Examples.testLabels "S2") "True" 4
                   [Examples.testOutput "oops"]]
                [Examples.S1; Examples.S2]) in
  ApplicationSnapshots
    (cluster (snd (@EnsureApplicationSnapshotPassedAllTests json_Unmarshal tekton_helpers
                     a w)))
  = [Examples.snapshotXyz].
Proof.
  intros a w.
  apply (@outcome_error_writes_no_verdict json_Unmarshal tekton_helpers a w w w w "test"
           Examples.snapshotXyz [Examples.S1; Examples.S2]
           [Examples.s1Late;
            Examples.testRun "s2-malformed" (Examples.testLabels "S2") "True" 4
              [Examples.testOutput "oops"]]
           (Examples.testRun "s2-malformed" (Examples.testLabels "S2") "True" 4
              [Examples.testOutput "oops"])
           "invalid character looking for beginning of value");
    try (vm_compute; reflexivity).
  apply list_elem_of_further, list_elem_of_here.
Defined.
